(** * Step-snapshot sorting engines: model and verification

    A shallow embedding of [sorting_algorithms.py].  Every engine of the
    source is a Python generator over a private list; here an engine is a
    computation in a state-and-error monad whose state holds the object
    store (lists by reference), the engine's [sorted_indices] set and the
    snapshots yielded so far.  A snapshot is recorded together with the
    store at the moment of the [yield], which is what a consumer that stops
    pulling at that point is left with.

    Not modelled: the insertion order of the highlight dictionary (no
    engine reads it back) and the interpreter's recursion limit.

    The last part of the file embeds what [visualizer.py] and [main.py]
    compute on top of the engines: bar geometry and colours, the finish
    effect, and the application's state machine. *)

From stdpp Require Import gmap strings list fin_maps sorting pretty list_numbers.

Open Scope Z_scope.

(** ** Step model *)

Inductive HighlightType := DEFAULT | COMPARE | SWAP | PIVOT | SORTED.

#[global] Instance HighlightType_eq_dec : EqDecision HighlightType.
Proof. solve_decision. Defined.

Record SortState (A : Type) := mkSortState {
  array : list A;
  highlights : gmap Z HighlightType;
  sorted_indices : list Z;
  description : string
}.
Arguments mkSortState {A} _ _ _ _.
Arguments array {A} _.
Arguments highlights {A} _.
Arguments sorted_indices {A} _.
Arguments description {A} _.

(** [{idx: hl for idx, hl in highlights}]: a later pair overrides an
    earlier one with the same index. *)
Definition highlight_dict (pairs : list (Z * HighlightType)) : gmap Z HighlightType :=
  foldl (λ m p, <[p.1 := p.2]> m) ∅ pairs.

(** [tuple(sorted(set(s)))]. *)
Definition sorted_tuple (s : gset Z) : list Z := sorting.merge_sort Z.le (elements s).

(** [set(range(n))], the argument of the completion snapshots. *)
Definition range_set (n : Z) : gset Z := list_to_set (seqZ 0 n).

Definition _state {A} (arr : list A) (hl : list (Z * HighlightType))
    (sorted : gset Z) (desc : string) : SortState A :=
  mkSortState arr (highlight_dict hl) (sorted_tuple sorted) desc.

(** ** Python list primitives *)

(** Index resolution of [l[i]] for a list of length [n]: a negative index
    counts from the end, anything outside [-n, n) raises [IndexError]. *)
Definition py_index (n : nat) (i : Z) : option nat :=
  if decide (0 ≤ i < Z.of_nat n) then Some (Z.to_nat i)
  else if decide (- Z.of_nat n ≤ i < 0) then Some (Z.to_nat (Z.of_nat n + i))
  else None.

Definition py_getitem {A} (l : list A) (i : Z) : option A :=
  k ← py_index (length l) i; l !! k.

Definition py_setitem {A} (l : list A) (i : Z) (x : A) : option (list A) :=
  k ← py_index (length l) i; Some (<[k := x]> l).

(** Bound normalisation of a slice [l[lo:hi]]. *)
Definition py_clamp (n : nat) (i : Z) : nat :=
  Z.to_nat (Z.min (Z.of_nat n) (Z.max 0 (if decide (i < 0) then i + Z.of_nat n else i))).

Definition py_slice {A} (l : list A) (lo hi : Z) : list A :=
  let a := py_clamp (length l) lo in
  let b := py_clamp (length l) hi in
  take (b - a)%nat (drop a l).

(** [range(lo, hi)]. *)
Definition range (lo hi : Z) : list Z := seqZ lo (hi - lo).

(** ** Store, frames and the engine monad *)

Abbreviation loc := nat (only parsing).

Record Frame (A : Type) := mkFrame {
  snapshot : SortState A;
  store_at : gmap loc (list A)
}.
Arguments mkFrame {A} _ _.
Arguments snapshot {A} _.
Arguments store_at {A} _.

Record state (A : Type) := mkState {
  heap : gmap loc (list A);
  finalized : gset Z;
  yielded : list (Frame A)
}.
Arguments mkState {A} _ _ _.
Arguments heap {A} _.
Arguments finalized {A} _.
Arguments yielded {A} _.

Inductive error := IndexError | BadReference | OutOfFuel.

Inductive result (S R : Type) :=
| Ok (r : R) (s : S)
| Raise (e : error).
Arguments Ok {S R} _ _.
Arguments Raise {S R} _.

Definition M (A R : Type) : Type := state A → result (state A) R.

Definition ret {A R} (r : R) : M A R := λ st, Ok r st.

Definition bind {A R R'} (m : M A R) (k : R → M A R') : M A R' :=
  λ st, match m st with
        | Ok r st' => k r st'
        | Raise e => Raise e
        end.

Definition raise {A R} (e : error) : M A R := λ _, Raise e.

Declare Scope engine_scope.
Delimit Scope engine_scope with engine.
Notation "x <- m ;; k" := (bind m (λ x, k))
  (at level 100, m at next level, right associativity) : engine_scope.
Notation "m ;; k" := (bind m (λ _, k))
  (at level 100, right associativity) : engine_scope.
Open Scope engine_scope.

Section Primitives.
Context {A : Type}.

(** [list(data)]: a new list object holding a copy of the elements. *)
Definition list_copy (data : loc) : M A loc := λ st,
  match heap st !! data with
  | Some xs =>
      let a := fresh (dom (heap st)) in
      Ok a (mkState (<[a := xs]> (heap st)) (finalized st) (yielded st))
  | None => Raise BadReference
  end.

(** [set()], bound to the engine's [sorted_indices]. *)
Definition new_set : M A unit := λ st,
  Ok tt (mkState (heap st) ∅ (yielded st)).

Definition len (arr : loc) : M A Z := λ st,
  match heap st !! arr with
  | Some l => Ok (Z.of_nat (length l)) st
  | None => Raise BadReference
  end.

(** [arr[i]] *)
Definition load (arr : loc) (i : Z) : M A A := λ st,
  match heap st !! arr with
  | Some l => match py_getitem l i with
              | Some x => Ok x st
              | None => Raise IndexError
              end
  | None => Raise BadReference
  end.

(** [arr[i] = x] *)
Definition store (arr : loc) (i : Z) (x : A) : M A unit := λ st,
  match heap st !! arr with
  | Some l => match py_setitem l i x with
              | Some l' => Ok tt (mkState (<[arr := l']> (heap st)) (finalized st) (yielded st))
              | None => Raise IndexError
              end
  | None => Raise BadReference
  end.

(** [arr[i], arr[j] = arr[j], arr[i]]: the right-hand side is read
    first, then the two targets are assigned left to right. *)
Definition swap (arr : loc) (i j : Z) : M A unit :=
  x <- load arr j ;; y <- load arr i ;; store arr i x ;; store arr j y.

(** [arr[lo:hi]], a new list value. *)
Definition slice (arr : loc) (lo hi : Z) : M A (list A) := λ st,
  match heap st !! arr with
  | Some l => Ok (py_slice l lo hi) st
  | None => Raise BadReference
  end.

(** [sorted_indices.add(i)] *)
Definition set_add (i : Z) : M A unit := λ st,
  Ok tt (mkState (heap st) ({[i]} ∪ finalized st) (yielded st)).

(** [sorted_indices.update(range(lo, hi))] *)
Definition set_update_range (lo hi : Z) : M A unit := λ st,
  Ok tt (mkState (heap st) (list_to_set (range lo hi) ∪ finalized st) (yielded st)).

Definition yield_ (s : SortState A) : M A unit := λ st,
  Ok tt (mkState (heap st) (finalized st) (yielded st ++ [mkFrame s (heap st)])).

(** [yield _state(arr, highlights=hl, sorted_indices=sorted_indices,
    description=desc)] *)
Definition yield_state (arr : loc) (hl : list (Z * HighlightType))
    (desc : string) : M A unit := λ st,
  match heap st !! arr with
  | Some l => yield_ (_state l hl (finalized st) desc) st
  | None => Raise BadReference
  end.

(** [yield _state(arr, sorted_indices=range(len(arr)), description=desc)];
    bubble and selection sort write [range(n)] with [n = len(arr)]. *)
Definition yield_complete (arr : loc) (desc : string) : M A unit := λ st,
  match heap st !! arr with
  | Some l => yield_ (_state l [] (range_set (Z.of_nat (length l))) desc) st
  | None => Raise BadReference
  end.

(** [for x in xs: acc = body(x, acc)], the loop-carried locals in [acc]. *)
Fixpoint for_each {T} (xs : list Z) (body : Z → T → M A T) (acc : T) : M A T :=
  match xs with
  | [] => ret acc
  | x :: xs' => acc' <- body x acc ;; for_each xs' body acc'
  end.

Definition for_ (xs : list Z) (body : Z → M A unit) : M A unit :=
  for_each xs (λ x _, body x) tt.
End Primitives.

(** Number of unrollings granted to the [while] loops and to the recursive
    engines on a list of length [n]; [OutOfFuel] is shown unreachable. *)
Definition fuel_for (n : Z) : nat := S (Z.to_nat n).

(** ** Algorithm engines *)

Section Engines.
Context {A : Type} (val : A → Z).
(** Elements are compared through their integer value [val]; for the
    integers of the source, [val] is the identity.  Tagged elements
    (a value with a label that comparisons ignore) make stability
    observable. *)

(** The [for j in range(0, n - i - 1)] loop of [bubble_sort]. *)
Definition bubble_pass (arr : loc) (n i : Z) : M A unit :=
  for_ (range 0 (n - i - 1)) (λ j,
    yield_state arr [(j, COMPARE); (j + 1, COMPARE)]
      ("Comparing indices " +:+ pretty j +:+ " and " +:+ pretty (j + 1)) ;;
    x <- load arr j ;;
    y <- load arr (j + 1) ;;
    if val x >? val y then
      swap arr j (j + 1) ;;
      yield_state arr [(j, SWAP); (j + 1, SWAP)]
        ("Swapped indices " +:+ pretty j +:+ " and " +:+ pretty (j + 1))
    else ret tt).

(** Body of the [for i in range(n)] loop of [bubble_sort]. *)
Definition bubble_round (arr : loc) (n i : Z) : M A unit :=
  bubble_pass arr n i ;;
  set_add (n - i - 1) ;;
  yield_state arr [(n - i - 1, SORTED)]
    ("Position " +:+ pretty (n - i - 1) +:+ " is sorted").

Definition bubble_sort (data : loc) : M A unit :=
  arr <- list_copy data ;;
  n <- len arr ;;
  new_set ;;
  for_ (range 0 n) (bubble_round arr n) ;;
  yield_complete arr "Bubble sort complete".

(** The [while j >= 0 and arr[j] > key] loop; returns the final [j]. *)
Fixpoint insertion_shift (fuel : nat) (arr : loc) (key : A) (j : Z) : M A Z :=
  match fuel with
  | O => raise OutOfFuel
  | S fuel' =>
      go <- (if j >=? 0 then x <- load arr j ;; ret (val x >? val key)
            else ret false) ;;
      if go : bool then
        yield_state arr [(j, COMPARE); (j + 1, COMPARE)]
          ("Comparing key with index " +:+ pretty j) ;;
        x <- load arr j ;;
        store arr (j + 1) x ;;
        yield_state arr [(j, SWAP); (j + 1, SWAP)]
          ("Shifting value at index " +:+ pretty j +:+ " to index " +:+ pretty (j + 1)) ;;
        insertion_shift fuel' arr key (j - 1)
      else ret j
  end.

(** Body of the [for i in range(1, len(arr))] loop of [insertion_sort]. *)
Definition insertion_round (arr : loc) (n i : Z) : M A unit :=
  key <- load arr i ;;
  let j := i - 1 in
  yield_state arr [(i, PIVOT)] ("Selecting key at index " +:+ pretty i) ;;
  j <- insertion_shift (fuel_for n) arr key j ;;
  store arr (j + 1) key ;;
  set_update_range 0 (i + 1) ;;
  yield_state arr [(j + 1, SWAP)] ("Inserted key at index " +:+ pretty (j + 1)).

Definition insertion_sort (data : loc) : M A unit :=
  arr <- list_copy data ;;
  new_set ;;
  n <- len arr ;;
  for_ (range 1 n) (insertion_round arr n) ;;
  yield_complete arr "Insertion sort complete".

(** The [for j in range(i + 1, n)] loop of [selection_sort]; the carried
    local is [min_idx]. *)
Definition selection_scan (arr : loc) (n i : Z) (min_idx : Z) : M A Z :=
  for_each (range (i + 1) n) (λ j min_idx,
    yield_state arr [(min_idx, PIVOT); (j, COMPARE)]
      ("Finding minimum from index " +:+ pretty i +:+ " onward") ;;
    x <- load arr j ;;
    y <- load arr min_idx ;;
    if val x <? val y then
      let min_idx := j in
      yield_state arr [(min_idx, PIVOT)] ("New minimum at index " +:+ pretty min_idx) ;;
      ret min_idx
    else ret min_idx) min_idx.

(** Body of the [for i in range(n)] loop of [selection_sort]. *)
Definition selection_round (arr : loc) (n i : Z) : M A unit :=
  let min_idx := i in
  min_idx <- selection_scan arr n i min_idx ;;
  swap arr i min_idx ;;
  set_add i ;;
  yield_state arr [(i, SORTED); (min_idx, SWAP)]
    ("Swapped minimum into position " +:+ pretty i).

Definition selection_sort (data : loc) : M A unit :=
  arr <- list_copy data ;;
  new_set ;;
  n <- len arr ;;
  for_ (range 0 n) (selection_round arr n) ;;
  yield_complete arr "Selection sort complete".

(** The [for j in range(low, high)] loop of [_quick_sort]; the carried
    local is [i]. *)
Definition _quick_sort_scan (arr : loc) (pivot : A) (low high : Z) (i : Z) : M A Z :=
  for_each (range low high) (λ j i,
    yield_state arr [(j, COMPARE); (high, PIVOT)]
      ("Comparing index " +:+ pretty j +:+ " with pivot") ;;
    x <- load arr j ;;
    if val x <=? val pivot then
      let i := i + 1 in
      swap arr i j ;;
      yield_state arr [(i, SWAP); (j, SWAP)]
        ("Swapped indices " +:+ pretty i +:+ " and " +:+ pretty j) ;;
      ret i
    else ret i) i.

(** The partition step of [_quick_sort], from the choice of the pivot
    to the snapshot that settles it; returns [pivot_idx]. *)
Definition _quick_sort_partition (arr : loc) (low high : Z) : M A Z :=
  pivot <- load arr high ;;
  let i := low - 1 in
  yield_state arr [(high, PIVOT)] ("Pivot chosen at index " +:+ pretty high) ;;
  i <- _quick_sort_scan arr pivot low high i ;;
  swap arr (i + 1) high ;;
  let pivot_idx := i + 1 in
  set_add pivot_idx ;;
  yield_state arr [(pivot_idx, SORTED)]
    ("Pivot settled at index " +:+ pretty pivot_idx) ;;
  ret pivot_idx.

Fixpoint _quick_sort (fuel : nat) (arr : loc) (low high : Z) : M A unit :=
  match fuel with
  | O => raise OutOfFuel
  | S fuel' =>
      if low >=? high then
        if low =? high then
          set_add low ;;
          yield_state arr [(low, SORTED)] ("Index " +:+ pretty low +:+ " is sorted")
        else ret tt
      else
        pivot_idx <- _quick_sort_partition arr low high ;;
        _quick_sort fuel' arr low (pivot_idx - 1) ;;
        _quick_sort fuel' arr (pivot_idx + 1) high
  end.

Definition quick_sort (data : loc) : M A unit :=
  arr <- list_copy data ;;
  new_set ;;
  n <- len arr ;;
  _quick_sort (fuel_for n) arr 0 (n - 1) ;;
  yield_complete arr "Quick sort complete".

(** First loop of [_merge]: [while i < len(left) and j < len(right)];
    returns the cursors [(i, j, k)] at exit. *)
Fixpoint _merge_compare (fuel : nat) (arr : loc) (start mid end_ : Z)
    (left right : list A) (i j k : Z) : M A (Z * Z * Z) :=
  match fuel with
  | O => raise OutOfFuel
  | S fuel' =>
      if (i <? Z.of_nat (length left)) && (j <? Z.of_nat (length right)) then
        yield_state arr [(k, COMPARE); (start + i, COMPARE); (mid + 1 + j, COMPARE)]
          ("Merging indices " +:+ pretty start +:+ " to " +:+ pretty end_) ;;
        match py_getitem left i, py_getitem right j with
        | Some x, Some y =>
            ij <- (if val x <=? val y
                  then store arr k x ;; ret (i + 1, j)
                  else store arr k y ;; ret (i, j + 1)) ;;
            yield_state arr [(k, SWAP)] ("Placed value at index " +:+ pretty k) ;;
            _merge_compare fuel' arr start mid end_ left right ij.1 ij.2 (k + 1)
        | _, _ => raise IndexError
        end
      else ret (i, j, k)
  end.

(** The two draining loops of [_merge]: [while i < len(src)], copying
    [src[i]] to [arr[k]]; returns [k] at exit. *)
Fixpoint _merge_drain (fuel : nat) (arr : loc) (side : string)
    (src : list A) (i k : Z) : M A Z :=
  match fuel with
  | O => raise OutOfFuel
  | S fuel' =>
      if i <? Z.of_nat (length src) then
        match py_getitem src i with
        | Some x =>
            store arr k x ;;
            yield_state arr [(k, SWAP)]
              ("Copying remaining " +:+ side +:+ " element to index " +:+ pretty k) ;;
            _merge_drain fuel' arr side src (i + 1) (k + 1)
        | None => raise IndexError
        end
      else ret k
  end.

Definition _merge (fuel : nat) (arr : loc) (start mid end_ : Z) : M A unit :=
  left <- slice arr start (mid + 1) ;;
  right <- slice arr (mid + 1) (end_ + 1) ;;
  ijk <- _merge_compare fuel arr start mid end_ left right 0 0 start ;;
  k <- _merge_drain fuel arr "left" left ijk.1.1 ijk.2 ;;
  _ <- _merge_drain fuel arr "right" right ijk.1.2 k ;;
  set_update_range start (end_ + 1) ;;
  yield_state arr ((λ idx, (idx, SORTED)) <$> range start (end_ + 1))
    ("Segment " +:+ pretty start +:+ ":" +:+ pretty end_ +:+ " sorted").

Fixpoint _merge_sort (fuel : nat) (arr : loc) (start end_ : Z) : M A unit :=
  match fuel with
  | O => raise OutOfFuel
  | S fuel' =>
      if start >=? end_ then
        set_add start ;;
        yield_state arr [(start, SORTED)]
          ("Index " +:+ pretty start +:+ " is trivially sorted")
      else
        let mid := (start + end_) `div` 2 in
        _merge_sort fuel' arr start mid ;;
        _merge_sort fuel' arr (mid + 1) end_ ;;
        _merge (fuel_for (end_ - start + 1)) arr start mid end_
  end.

Definition merge_sort (data : loc) : M A unit :=
  arr <- list_copy data ;;
  new_set ;;
  n <- len arr ;;
  (if 0 <? n then _merge_sort (fuel_for n) arr 0 (n - 1) else ret tt) ;;
  yield_complete arr "Merge sort complete".
End Engines.

(** ** Running an engine *)

(** The caller holds its sequence at [data] in store [h]; the run starts
    with nothing yielded. *)
Definition run {A} (engine : loc → M A unit) (h : gmap loc (list A)) (data : loc)
  : result (state A) unit :=
  engine data (mkState h ∅ []).

(** A store holding just the caller's sequence. *)
Definition caller_store {A} (xs : list A) : gmap loc (list A) := {[ 0%nat := xs ]}.

(** The snapshots of a complete run on input [xs], [None] if it raises. *)
Definition snapshots {A} (engine : loc → M A unit) (xs : list A) : option (list (SortState A)) :=
  match run engine (caller_store xs) 0%nat with
  | Ok _ st => Some (snapshot <$> yielded st)
  | Raise _ => None
  end.

(** ** Weakest preconditions for engine code *)

Section Logic.
Context {A : Type}.

(** [wp m st Q]: from [st], [m] returns normally, in a result and state
    related by [Q]. *)
Definition wp {R} (m : M A R) (st : state A) (Q : R → state A → Prop) : Prop :=
  ∃ r st', m st = Ok r st' ∧ Q r st'.

Lemma wp_ret {R} (r : R) st (Q : R → state A → Prop) :
  Q r st → wp (ret r) st Q.
Proof. intros HQ. exists r, st. done. Qed.

Lemma wp_bind {R R'} (m : M A R) (k : R → M A R') st (Q : R' → state A → Prop) :
  wp m st (λ r st', wp (k r) st' Q) → wp (bind m k) st Q.
Proof.
  intros (r & st' & Hm & r' & st'' & Hk & HQ).
  exists r', st''. unfold bind. rewrite Hm. done.
Qed.

Lemma wp_mono {R} (m : M A R) st (Q Q' : R → state A → Prop) :
  wp m st Q → (∀ r st', Q r st' → Q' r st') → wp m st Q'.
Proof. intros (r & st' & Hm & HQ) HQQ. exists r, st'. auto. Qed.

Lemma wp_run {R} (m : M A R) st (Q : R → state A → Prop) r st' :
  wp m st Q → m st = Ok r st' → Q r st'.
Proof. intros (r0 & st0 & Hm & HQ) Hm'. congruence. Qed.

Lemma range_cons lo hi : lo < hi → range lo hi = lo :: range (lo + 1) hi.
Proof.
  intros Hlt. unfold range. rewrite seqZ_cons by lia.
  f_equal. f_equal; lia.
Qed.

Lemma range_nil lo hi : hi ≤ lo → range lo hi = [].
Proof. intros Hle. unfold range. apply seqZ_nil. lia. Qed.

Lemma elem_of_range lo hi k : k ∈ range lo hi ↔ lo ≤ k < hi.
Proof. unfold range. rewrite elem_of_seqZ. lia. Qed.

(** Invariant rule of [for x in range(lo, hi)], the invariant indexed
    by the number of the next iteration. *)
Lemma wp_for_range {T} (I : nat → T → state A → Prop) (lo hi : Z)
    (body : Z → T → M A T) acc st (Q : T → state A → Prop) :
  0 ≤ lo →
  I (Z.to_nat lo) acc st →
  (∀ k acc st, lo ≤ Z.of_nat k < hi → I k acc st →
     wp (body (Z.of_nat k) acc) st (I (S k))) →
  (∀ acc st, I (Z.to_nat (Z.max lo hi)) acc st → Q acc st) →
  wp (for_each (range lo hi) body acc) st Q.
Proof.
  intros Hlo HI Hbody HQ.
  remember (Z.to_nat (hi - lo)) as d eqn:Hd.
  revert lo acc st Hlo HI Hbody HQ Hd.
  induction d as [|d IH]; intros lo acc st Hlo HI Hbody HQ Hd.
  - rewrite range_nil by lia. apply wp_ret, HQ.
    replace (Z.max lo hi) with lo by lia. done.
  - rewrite range_cons by lia. simpl. apply wp_bind.
    eapply wp_mono.
    + replace lo with (Z.of_nat (Z.to_nat lo)) at 1 by lia.
      apply Hbody; [lia | done].
    + intros acc' st' HI'. apply IH; try lia.
      * replace (Z.to_nat (lo + 1)) with (S (Z.to_nat lo)) by lia. done.
      * intros k acc0 st0 Hk. apply Hbody. lia.
      * intros acc0 st0. replace (Z.max (lo + 1) hi) with (Z.max lo hi) by lia.
        apply HQ.
Qed.
End Logic.

(** ** States of a run and well-formed traces *)

Section Run.
Context {A : Type}.
(** [h0]: the store the engine was started in; [a]: the engine's private
    list; [n]: its length; [done_]: the description of the engine's
    completion snapshot. *)
Context (h0 : gmap loc (list A)) (a : loc) (n : nat) (done_ : string).

Definition St (l : list A) (F : gset Z) (gs : list (Frame A)) : state A :=
  mkState (<[a := l]> h0) F gs.

Definition snap (l : list A) (F : gset Z) (hl : list (Z * HighlightType))
    (d : string) : Frame A :=
  mkFrame (_state l hl F d) (<[a := l]> h0).

(** An intermediate frame, yielded while the finalized set was [F]. *)
Definition frame_ok (F : gset Z) (f : Frame A) : Prop :=
  ∃ l hl d, f = snap l F hl d ∧ length l = n ∧
    Forall (λ p, 0 ≤ p.1 < Z.of_nat n) hl ∧ hl ≠ [] ∧ d ≠ done_ ∧
    (∀ k, k ∈ F → 0 ≤ k < Z.of_nat n).

(** [trace_ok F gs F']: the frames [gs] were yielded, in this order,
    while the finalized set grew from [F] to [F']. *)
Inductive trace_ok : gset Z → list (Frame A) → gset Z → Prop :=
| trace_ok_nil F F' : F ⊆ F' → trace_ok F [] F'
| trace_ok_cons F T F' f gs :
    F ⊆ T → frame_ok T f → trace_ok T gs F' → trace_ok F (f :: gs) F'.

Lemma trace_ok_sub F gs F' : trace_ok F gs F' → F ⊆ F'.
Proof. induction 1; set_solver. Qed.

Lemma trace_ok_pre F0 F gs F' : F0 ⊆ F → trace_ok F gs F' → trace_ok F0 gs F'.
Proof.
  intros Hsub Htr. destruct Htr.
  - constructor. set_solver.
  - econstructor; [|done..]. set_solver.
Qed.

Lemma trace_ok_app F gs F' gs' F'' :
  trace_ok F gs F' → trace_ok F' gs' F'' → trace_ok F (gs ++ gs') F''.
Proof.
  induction 1 as [F F' Hsub | F T F' f gs Hsub Hf Htr IH]; intros Htr'; simpl.
  - by apply (trace_ok_pre F F').
  - econstructor; eauto.
Qed.

Lemma trace_ok_one F f : frame_ok F f → trace_ok F [f] F.
Proof. intros Hf. econstructor; [done | done | by constructor]. Qed.

Lemma trace_ok_snoc F gs F' f :
  trace_ok F gs F' → frame_ok F' f → trace_ok F (gs ++ [f]) F'.
Proof. intros Htr Hf. eapply trace_ok_app; [done|]. by apply trace_ok_one. Qed.

Lemma trace_ok_grow F gs F' F'' :
  trace_ok F gs F' → F' ⊆ F'' → trace_ok F gs F''.
Proof.
  intros Htr Hsub. rewrite <- (app_nil_r gs).
  eapply trace_ok_app; [done|]. by constructor.
Qed.

Lemma trace_ok_elem F gs F' f :
  trace_ok F gs F' → f ∈ gs → ∃ T, F ⊆ T ∧ T ⊆ F' ∧ frame_ok T f.
Proof.
  induction 1 as [F F' Hsub | F T F' f' gs Hsub Hf Htr IH]; intros Hin.
  - by apply elem_of_nil in Hin.
  - apply elem_of_cons in Hin as [-> | Hin].
    + exists T. split_and!; [done | by eapply trace_ok_sub | done].
    + destruct (IH Hin) as (T' & ? & ? & ?). exists T'. split_and!; [set_solver | done..].
Qed.

(** Along a well-formed trace the finalized sets only grow. *)
Lemma trace_ok_lookup F gs F' i j f g :
  trace_ok F gs F' → (i < j)%nat → gs !! i = Some f → gs !! j = Some g →
  ∃ T T', frame_ok T f ∧ frame_ok T' g ∧ F ⊆ T ∧ T ⊆ T' ∧ T' ⊆ F'.
Proof.
  intros Htr. revert i j.
  induction Htr as [F F' Hsub | F T F' f' gs Hsub Hf Htr IH]; intros i j Hij Hi Hj.
  - done.
  - destruct j as [|j]; [lia|]. simpl in Hj.
    destruct i as [|i]; simpl in Hi.
    + simplify_eq. apply list_elem_of_lookup_2 in Hj.
      destruct (trace_ok_elem _ _ _ _ Htr Hj) as (T' & ? & ? & ?).
      exists T, T'. done.
    + destruct (IH i j) as (T1 & T2 & ? & ? & ? & ? & ?); [lia | done | done |].
      exists T1, T2. split_and!; [done | done | set_solver | done | done].
Qed.

Definition set_in_range (F : gset Z) : Prop := ∀ k, k ∈ F → 0 ≤ k < Z.of_nat n.

(** A frame whose finalized indices do not cover the whole array. *)
Definition unfinished (f : Frame A) : Prop :=
  ∃ k, 0 ≤ k < Z.of_nat n ∧ k ∉ sorted_indices (snapshot f).

(** Every frame but the last one is unfinished. *)
Definition early_unfinished (gs : list (Frame A)) : Prop :=
  ∀ gs' f, gs = gs' ++ [f] → Forall unfinished gs'.

Lemma elem_of_sorted_tuple k (F : gset Z) : k ∈ sorted_tuple F ↔ k ∈ F.
Proof. unfold sorted_tuple. by rewrite merge_sort_Permutation, elem_of_elements. Qed.

Lemma frame_ok_unfinished F f k :
  frame_ok F f → 0 ≤ k < Z.of_nat n → k ∉ F → unfinished f.
Proof.
  intros (l & hl & d & -> & _) Hk Hnot. exists k. split; [done|].
  simpl. by rewrite elem_of_sorted_tuple.
Qed.

Lemma trace_ok_unfinished F gs F' k :
  trace_ok F gs F' → 0 ≤ k < Z.of_nat n → k ∉ F' → Forall unfinished gs.
Proof.
  intros Htr Hk Hnot. apply Forall_forall. intros f Hf.
  destruct (trace_ok_elem _ _ _ _ Htr Hf) as (T & _ & HT & Hok).
  eapply frame_ok_unfinished; [done | done | set_solver].
Qed.

Lemma early_unfinished_snoc gs f : Forall unfinished gs → early_unfinished (gs ++ [f]).
Proof. intros Hgs gs' f' [-> _]%app_inj_tail. done. Qed.

Lemma early_unfinished_nil : early_unfinished [].
Proof. intros gs' f Heq. by destruct gs'. Qed.

(** The frames [gs] show, at every index they list as finalized, the
    value that [l] holds there. *)
Definition settled (l : list A) (gs : list (Frame A)) : Prop :=
  Forall (λ f, ∀ k : nat, Z.of_nat k ∈ sorted_indices (snapshot f) →
                 array (snapshot f) !! k = l !! k) gs.

(** The arrays of the frames [gs] agree with [l] on the positions [Pos]. *)
Definition frames_keep (Pos : nat → Prop) (l : list A) (gs : list (Frame A)) : Prop :=
  Forall (λ f, ∀ p, Pos p → array (snapshot f) !! p = l !! p) gs.

Lemma frames_keep_snap (Pos : nat → Prop) l0 l F hl d :
  (∀ p, Pos p → l !! p = l0 !! p) → frames_keep Pos l0 [snap l F hl d].
Proof. intros H. by apply Forall_singleton. Qed.

Lemma settled_snap l0 l F hl d :
  (∀ k : nat, Z.of_nat k ∈ F → l !! k = l0 !! k) → settled l0 [snap l F hl d].
Proof.
  intros H. apply Forall_singleton. simpl. intros k Hk%elem_of_sorted_tuple. by apply H.
Qed.

Lemma settled_keep F gs F' l l' :
  trace_ok F gs F' → settled l gs →
  (∀ k : nat, Z.of_nat k ∈ F' → l' !! k = l !! k) → settled l' gs.
Proof.
  intros Htr Hs Hl. unfold settled in *. apply Forall_forall. intros f Hf k Hk.
  rewrite Forall_forall in Hs. rewrite (Hs f Hf k Hk). symmetry. apply Hl.
  destruct (trace_ok_elem _ _ _ _ Htr Hf) as (T & _ & HT & l0 & hl & d & -> & _).
  simpl in Hk. apply elem_of_sorted_tuple in Hk. by apply HT.
Qed.

Lemma settled_of_keep (Pos : nat → Prop) F gs l l' :
  trace_ok F gs F → frames_keep Pos l gs →
  (∀ k : nat, Z.of_nat k ∈ F → Pos k) → (∀ p, Pos p → l' !! p = l !! p) →
  settled l' gs.
Proof.
  intros Htr Hk HF Hl. unfold settled, frames_keep in *.
  apply Forall_forall. intros f Hf k Hin.
  rewrite Forall_forall in Hk.
  destruct (trace_ok_elem _ _ _ _ Htr Hf) as (T & _ & HT & l0 & hl & d & Heq & _).
  assert (Pos k) as Hpos.
  { apply HF, HT. rewrite Heq in Hin. simpl in Hin. by apply elem_of_sorted_tuple in Hin. }
  rewrite (Hk f Hf k Hpos). symmetry. by apply Hl.
Qed.

(** *** Rules for the primitives on run states *)

Lemma heap_St l F gs : heap (St l F gs) !! a = Some l.
Proof. apply lookup_insert_eq. Qed.

Lemma py_getitem_nat (l : list A) i k :
  i = Z.of_nat k → (k < length l)%nat → py_getitem l i = l !! k.
Proof.
  intros -> Hk. unfold py_getitem, py_index.
  rewrite decide_True by lia. simpl. by rewrite Nat2Z.id.
Qed.

Lemma py_setitem_nat (l : list A) i k x :
  i = Z.of_nat k → (k < length l)%nat → py_setitem l i x = Some (<[k := x]> l).
Proof.
  intros -> Hk. unfold py_setitem, py_index.
  rewrite decide_True by lia. simpl. by rewrite Nat2Z.id.
Qed.

Lemma wp_len l F gs (Q : Z → state A → Prop) :
  Q (Z.of_nat (length l)) (St l F gs) → wp (len a) (St l F gs) Q.
Proof. intros HQ. eexists _, _. split; [|done]. unfold len. by rewrite heap_St. Qed.

Lemma wp_load l F gs i k x (Q : A → state A → Prop) :
  i = Z.of_nat k → l !! k = Some x →
  Q x (St l F gs) → wp (load a i) (St l F gs) Q.
Proof.
  intros Hi Hk HQ. eexists _, _. split; [|done]. unfold load.
  rewrite heap_St, (py_getitem_nat l i k), Hk; [done | done |].
  by eapply lookup_lt_Some.
Qed.

Lemma wp_store l F gs i k x (Q : unit → state A → Prop) :
  i = Z.of_nat k → (k < length l)%nat →
  Q tt (St (<[k := x]> l) F gs) → wp (store a i x) (St l F gs) Q.
Proof.
  intros Hi Hk HQ. eexists _, _. split; [|done]. unfold store.
  rewrite heap_St, (py_setitem_nat l i k) by done.
  unfold St. simpl. by rewrite insert_insert_eq.
Qed.

Lemma wp_swap l F gs i j ki kj x y (Q : unit → state A → Prop) :
  i = Z.of_nat ki → j = Z.of_nat kj → l !! ki = Some x → l !! kj = Some y →
  Q tt (St (<[kj := x]> (<[ki := y]> l)) F gs) → wp (swap a i j) (St l F gs) Q.
Proof.
  intros Hi Hj Hx Hy HQ. unfold swap.
  apply wp_bind, (wp_load _ _ _ _ kj y); [done..|].
  apply wp_bind, (wp_load _ _ _ _ ki x); [done..|].
  apply wp_bind, (wp_store _ _ _ _ ki); [done | by eapply lookup_lt_Some |].
  apply (wp_store _ _ _ _ kj); [done | |done].
  rewrite length_insert. by eapply lookup_lt_Some.
Qed.

Lemma wp_slice l F gs lo hi (Q : list A → state A → Prop) :
  Q (py_slice l lo hi) (St l F gs) → wp (slice a lo hi) (St l F gs) Q.
Proof. intros HQ. eexists _, _. split; [|done]. unfold slice. by rewrite heap_St. Qed.

Lemma wp_set_add l F gs i (Q : unit → state A → Prop) :
  Q tt (St l ({[i]} ∪ F) gs) → wp (set_add i) (St l F gs) Q.
Proof. intros HQ. eexists _, _. split; [|done]. done. Qed.

Lemma wp_set_update_range l F gs lo hi (Q : unit → state A → Prop) :
  Q tt (St l (list_to_set (range lo hi) ∪ F) gs) →
  wp (set_update_range lo hi) (St l F gs) Q.
Proof. intros HQ. eexists _, _. split; [|done]. done. Qed.

Lemma wp_yield_state l F gs hl d (Q : unit → state A → Prop) :
  Q tt (St l F (gs ++ [snap l F hl d])) → wp (yield_state a hl d) (St l F gs) Q.
Proof.
  intros HQ. eexists _, _. split; [|done]. unfold yield_state.
  by rewrite heap_St.
Qed.

Lemma wp_yield_complete l F gs d (Q : unit → state A → Prop) :
  Q tt (St l F (gs ++ [snap l (range_set (Z.of_nat (length l))) [] d])) →
  wp (yield_complete a d) (St l F gs) Q.
Proof.
  intros HQ. eexists _, _. split; [|done]. unfold yield_complete.
  by rewrite heap_St.
Qed.

Lemma wp_new_set l F gs (Q : unit → state A → Prop) :
  Q tt (St l ∅ gs) → wp new_set (St l F gs) Q.
Proof. intros HQ. eexists _, _. split; [|done]. done. Qed.
End Run.

(** [list(data)] starts the run: the private list is a fresh location. *)
Lemma wp_list_copy {A} (h : gmap loc (list A)) d xs F gs (Q : loc → state A → Prop) :
  h !! d = Some xs →
  Q (fresh (dom h)) (St h (fresh (dom h)) xs F gs) →
  wp (list_copy d) (mkState h F gs) Q.
Proof.
  intros Hd HQ. eexists _, _. split; [|done]. unfold list_copy. simpl. by rewrite Hd.
Qed.

(** Closed integer intervals [lo, hi) as finalized sets. *)
Lemma elem_of_range_set n k : k ∈ range_set n ↔ 0 ≤ k < n.
Proof. unfold range_set. rewrite elem_of_list_to_set, elem_of_seqZ. lia. Qed.

Lemma elem_of_range_to_set lo hi k :
  k ∈ (list_to_set (range lo hi) : gset Z) ↔ lo ≤ k < hi.
Proof. by rewrite elem_of_list_to_set, elem_of_range. Qed.

(** ** Order facts on arrays, by position *)

Section Order.
Context {A : Type} (val : A → Z).

Definition le_val (x y : A) : Prop := val x ≤ val y.

(** Every position from [m] on holds a value no smaller than any value
    to its left. *)
Definition ordered_from (m : nat) (l : list A) : Prop :=
  ∀ p q x y, (p < q)%nat → (m ≤ q)%nat →
    l !! p = Some x → l !! q = Some y → val x ≤ val y.

(** The positions below [m] are in order, and no value at or after [m]
    is smaller than one of them. *)
Definition ordered_upto (m : nat) (l : list A) : Prop :=
  ∀ p q x y, (p < q)%nat → (p < m)%nat →
    l !! p = Some x → l !! q = Some y → val x ≤ val y.

Definition nondecreasing (l : list A) : Prop :=
  ∀ p q x y, (p < q)%nat → l !! p = Some x → l !! q = Some y → val x ≤ val y.

Lemma nondecreasing_Sorted l : nondecreasing l → Sorted le_val l.
Proof.
  induction l as [|x l IH]; intros Hnd; [constructor|].
  constructor.
  - apply IH. intros p q y z Hpq Hp Hq. by apply (Hnd (S p) (S q)); [lia|..].
  - destruct l as [|y l]; constructor.
    apply (Hnd 0%nat 1%nat x y); [lia | done | done].
Qed.

Lemma Sorted_nondecreasing l : Sorted le_val l → nondecreasing l.
Proof.
  intros Hs. apply Sorted_StronglySorted in Hs; [|intros x y z; unfold le_val; lia].
  induction Hs as [|x l Hs IH Hall]; intros p q y z Hpq Hp Hq; [done|].
  destruct q as [|q]; [lia|]. simpl in Hq.
  destruct p as [|p]; simpl in Hp.
  - simplify_eq. rewrite Forall_forall in Hall.
    apply Hall. by eapply list_elem_of_lookup_2.
  - apply (IH p q); [lia | done | done].
Qed.

Lemma ordered_from_0 l : ordered_from 0 l → nondecreasing l.
Proof. intros H p q x y ? ? ?. eapply H; eauto with lia. Qed.

Lemma ordered_upto_length l : ordered_upto (length l) l → nondecreasing l.
Proof.
  intros H p q x y Hpq Hp Hq. eapply H; eauto.
  apply lookup_lt_Some in Hp. lia.
Qed.

(** Reading an array after two positions were exchanged. *)
Lemma lookup_swap (l : list A) ki kj x y p z :
  l !! ki = Some x → l !! kj = Some y →
  <[kj := x]> (<[ki := y]> l) !! p = Some z →
  (p = kj ∧ z = x) ∨ (p ≠ kj ∧ p = ki ∧ z = y) ∨ (p ≠ kj ∧ p ≠ ki ∧ l !! p = Some z).
Proof.
  intros Hx Hy Hp.
  destruct (decide (p = kj)) as [->|Hkj].
  - rewrite list_lookup_insert_eq in Hp; [left; by simplify_eq|].
    rewrite length_insert. by eapply lookup_lt_Some.
  - rewrite list_lookup_insert_ne in Hp by done.
    destruct (decide (p = ki)) as [->|Hki].
    + rewrite list_lookup_insert_eq in Hp by (by eapply lookup_lt_Some).
      right; left. by simplify_eq.
    + rewrite list_lookup_insert_ne in Hp by done. by right; right.
Qed.
End Order.

(** A description built from a literal prefix differs from a completion
    description as soon as the prefixes do. *)
Ltac desc_neq := let H := fresh in intros H; cbn in H; discriminate H.

Ltac frame_ok_tac :=
  eexists _, _, _; split; [reflexivity|];
  split_and!; [ rewrite ?length_insert; (done || lia)
              | repeat (constructor; [simpl; lia|]); constructor
              | done
              | desc_neq
              | try assumption ].

(** ** What a complete run establishes *)

Section RunSpec.
Context {A : Type} (val : A → Z).

(** The run of an engine from store [h], the caller's sequence [xs]
    being at some location of [h]: it returns normally; the private list
    [l'] is a fresh location holding a sorted rearrangement of [xs]; the
    trace is a well-formed sequence [gs] of intermediate frames, with a
    property [P] of its own, followed by the completion frame. *)
Definition run_spec (done_ : string) (P : list A → list (Frame A) → Prop)
    (h : gmap loc (list A)) (xs : list A) (res : result (state A) unit) : Prop :=
  let a := fresh (dom h) in
  let n := length xs in
  ∃ l' F gs,
    res = Ok tt (St h a l' F (gs ++ [snap h a l' (range_set (Z.of_nat n)) [] done_])) ∧
    length l' = n ∧ l' ≡ₚ xs ∧ nondecreasing val l' ∧
    trace_ok h a n done_ ∅ gs F ∧ set_in_range n F ∧ P l' gs.

Lemma wp_run_spec done_ P h xs d (engine : loc → M A unit) :
  wp (engine d) (mkState h ∅ [])
    (λ _ st', ∃ l' F gs,
       st' = St h (fresh (dom h)) l' F
               (gs ++ [snap h (fresh (dom h)) l' (range_set (Z.of_nat (length xs))) [] done_]) ∧
       length l' = length xs ∧ l' ≡ₚ xs ∧ nondecreasing val l' ∧
       trace_ok h (fresh (dom h)) (length xs) done_ ∅ gs F ∧
       set_in_range (length xs) F ∧ P l' gs) →
  run_spec done_ P h xs (run engine h d).
Proof.
  intros ([] & st' & Hrun & l' & F & gs & -> & H).
  exists l', F, gs. done.
Qed.
End RunSpec.

(** ** Bubble sort *)

Section Bubble.
Context {A : Type} (val : A → Z).
Context (h0 : gmap loc (list A)) (a : loc) (n : nat).

Local Abbreviation St := (St h0 a).
Local Abbreviation trace_ok := (trace_ok h0 a n "Bubble sort complete").
Local Abbreviation frame_ok := (frame_ok h0 a n "Bubble sort complete").

Local Abbreviation set_in_range := (set_in_range n).

(** One pass moves the largest value of the unsettled prefix to its
    end; the finalized set is not touched. *)
Lemma bubble_pass_wp (i : nat) l F gs :
  (i < n)%nat → length l = n → ordered_from val (n - i) l → set_in_range F →
  wp (bubble_pass val a (Z.of_nat n) (Z.of_nat i)) (St l F gs)
    (λ _ st', ∃ l' new, st' = St l' F (gs ++ new) ∧ length l' = n ∧ l' ≡ₚ l ∧
       ordered_from val (n - S i) l' ∧ trace_ok F new F ∧
       (∀ p, (n - i ≤ p)%nat → l' !! p = l !! p) ∧
       frames_keep (λ p, (n - i ≤ p)%nat) l new).
Proof.
  intros Hi Hlen Hord HF. unfold bubble_pass, for_.
  apply (wp_for_range (λ k _ st, ∃ l' new, st = St l' F (gs ++ new) ∧
           length l' = n ∧ l' ≡ₚ l ∧ ordered_from val (n - i) l' ∧
           (∀ p x y, (p ≤ k)%nat → l' !! p = Some x → l' !! k = Some y → val x ≤ val y) ∧
           trace_ok F new F ∧
           (∀ p, (n - i ≤ p)%nat → l' !! p = l !! p) ∧
           frames_keep (λ p, (n - i ≤ p)%nat) l new)); [lia | | |].
  - exists l, []. rewrite app_nil_r. split_and!; try done.
    + intros p x y Hp Hx Hy. assert (p = 0%nat) as -> by lia.
      change (Z.to_nat 0) with 0%nat in Hy. simplify_eq. lia.
    + by constructor.
    + by apply Forall_nil.
  - intros k [] st Hk (l' & new & -> & Hlen' & Hperm & Hord' & Hmax & Htr & Hsame & Hkeep).
    destruct (lookup_lt_is_Some_2 l' k) as [x Hx]; [lia|].
    destruct (lookup_lt_is_Some_2 l' (S k)) as [y Hy]; [lia|].
    apply wp_bind, wp_yield_state.
    apply wp_bind, (wp_load _ _ _ _ _ _ k x); [done..|].
    apply wp_bind, (wp_load _ _ _ _ _ _ (S k) y); [lia | done |].
    assert (trace_ok F (new ++ [snap h0 a l' F
              [(Z.of_nat k, COMPARE); (Z.of_nat k + 1, COMPARE)]
              ("Comparing indices " +:+ pretty (Z.of_nat k) +:+ " and "
                 +:+ pretty (Z.of_nat k + 1))]) F) as Htr1.
    { apply trace_ok_snoc; [done|]. frame_ok_tac. }
    assert (frames_keep (λ p, (n - i ≤ p)%nat) l (new ++ [snap h0 a l' F
              [(Z.of_nat k, COMPARE); (Z.of_nat k + 1, COMPARE)]
              ("Comparing indices " +:+ pretty (Z.of_nat k) +:+ " and "
                 +:+ pretty (Z.of_nat k + 1))])) as Hkeep1.
    { apply Forall_app. split; [done|]. by apply frames_keep_snap. }
    destruct (Z.gtb_spec (val x) (val y)) as [Hcmp|Hcmp].
    + apply wp_bind, (wp_swap _ _ _ _ _ _ _ k (S k) x y); [lia | lia | done | done |].
      apply wp_yield_state.
      assert (∀ p, (n - i ≤ p)%nat → <[S k := x]> (<[k := y]> l') !! p = l !! p) as Hsame'.
      { intros p Hp. rewrite !list_lookup_insert_ne by lia. by apply Hsame. }
      eexists _, _. split; [by rewrite <- !app_assoc|].
      split_and!; [..| done |].
      * by rewrite !length_insert.
      * etrans; [by apply Permutation_insert_swap|done].
      * intros p q u v Hpq Hq Hu Hv.
        apply (lookup_swap _ _ _ x y) in Hu; [|done..].
        apply (lookup_swap _ _ _ x y) in Hv; [|done..].
        destruct Hv as [[-> ->]|[(_ & -> & _)|(_ & _ & Hv)]]; [lia..|].
        destruct Hu as [[-> ->]|[(_ & -> & ->)|(_ & _ & Hu)]].
        -- by apply (Hord' k q); [lia..| |].
        -- by apply (Hord' (S k) q); [lia..| |].
        -- by apply (Hord' p q).
      * intros p u v Hp Hu Hv.
        apply (lookup_swap _ _ _ x y) in Hu; [|done..].
        apply (lookup_swap _ _ _ x y) in Hv; [|done..].
        destruct Hv as [[_ ->]|[(? & _)|(? & _)]]; [|done..].
        destruct Hu as [[_ ->]|[(_ & _ & ->)|(? & ? & Hu)]]; [lia|lia|].
        apply (Hmax p); [lia | done | done].
      * rewrite app_assoc. apply trace_ok_snoc; [done|].
        frame_ok_tac.
      * rewrite app_assoc. apply Forall_app. split; [done|]. by apply frames_keep_snap.
    + apply wp_ret. eexists _, _. split; [by rewrite <- !app_assoc|].
      split_and!; try done.
      intros p u v Hp Hu Hv. simplify_eq.
      destruct (decide (p = S k)) as [->|]; [simplify_eq; lia|].
      trans (val x); [apply (Hmax p); [lia | done | done] | lia].
  - intros [] st (l' & new & -> & Hlen' & Hperm & Hord' & Hmax & Htr & Hsame & Hkeep).
    exists l', new. split_and!; try done.
    intros p q x y Hpq Hq Hx Hy.
    destruct (decide (n - i ≤ q)%nat); [by apply (Hord' p q)|].
    replace (Z.to_nat (0 `max` (Z.of_nat n - Z.of_nat i - 1))) with q in Hmax by lia.
    apply (Hmax p); [lia | done | done].
Qed.

(** One round settles position [n - i - 1]. *)
Lemma bubble_round_wp (i : nat) l F gs :
  (i < n)%nat → length l = n → ordered_from val (n - i) l →
  F = list_to_set (range (Z.of_nat n - Z.of_nat i) (Z.of_nat n)) →
  wp (bubble_round val a (Z.of_nat n) (Z.of_nat i)) (St l F gs)
    (λ _ st', ∃ l' F' new f, st' = St l' F' (gs ++ new ++ [f]) ∧
       length l' = n ∧ l' ≡ₚ l ∧ ordered_from val (n - S i) l' ∧
       F' = list_to_set (range (Z.of_nat n - Z.of_nat (S i)) (Z.of_nat n)) ∧
       trace_ok F new F ∧ frame_ok F' f ∧
       (∀ p, (n - i ≤ p)%nat → l' !! p = l !! p) ∧ settled l' (new ++ [f])).
Proof.
  intros Hi Hlen Hord HF. unfold bubble_round.
  assert (set_in_range F) as HFr.
  { intros k. rewrite HF, elem_of_range_to_set. lia. }
  apply wp_bind. eapply wp_mono; [by apply bubble_pass_wp|].
  intros [] st' (l' & new & -> & Hlen' & Hperm & Hord' & Htr & Hsame & Hkeep).
  apply wp_bind, wp_set_add, wp_yield_state.
  eexists l', _, new, _. split; [by rewrite <- app_assoc|].
  assert ({[Z.of_nat n - Z.of_nat i - 1]} ∪ F
          = list_to_set (range (Z.of_nat n - Z.of_nat (S i)) (Z.of_nat n))) as HF'.
  { apply set_eq. intros k.
    rewrite elem_of_union, elem_of_singleton, HF, !elem_of_range_to_set. lia. }
  split_and!; try done.
  - frame_ok_tac. intros k. rewrite HF', elem_of_range_to_set. lia.
  - apply Forall_app. split; [|by apply settled_snap].
    apply (settled_of_keep h0 a n "Bubble sort complete" (λ p, (n - i ≤ p)%nat) F new l);
      [done | done | | done].
    intros k. rewrite HF, elem_of_range_to_set. lia.
Qed.

Lemma bubble_sort_run d xs :
  h0 !! d = Some xs → a = fresh (dom h0) → n = length xs →
  run_spec val "Bubble sort complete"
    (λ l' gs, early_unfinished n gs ∧ settled l' gs) h0 xs
    (run (bubble_sort val) h0 d).
Proof.
  intros Hd Ha Hn. apply wp_run_spec. rewrite <- Ha, <- Hn. unfold bubble_sort.
  apply wp_bind, (wp_list_copy _ _ xs); [done|]. rewrite <- Ha.
  apply wp_bind, wp_len, wp_bind, wp_new_set, wp_bind. rewrite <- Hn.
  unfold for_.
  apply (wp_for_range (λ i _ st, ∃ l F gs, st = St l F gs ∧
           length l = n ∧ l ≡ₚ xs ∧ ordered_from val (n - i) l ∧
           F = list_to_set (range (Z.of_nat n - Z.of_nat i) (Z.of_nat n)) ∧
           trace_ok ∅ gs F ∧ early_unfinished n gs ∧
           ((i < n)%nat → Forall (unfinished n) gs) ∧ settled l gs)); [lia | | |].
  - exists xs, ∅, []. split_and!; try done.
    + intros p q x y Hpq Hq Hx Hy. apply lookup_lt_Some in Hy. lia.
    + rewrite range_nil by lia. done.
    + by constructor.
    + apply early_unfinished_nil.
    + by apply Forall_nil.
  - intros i [] st Hi (l & F & gs & -> & Hlen & Hperm & Hord & HF & Htr & Hearly & Hunf & Hset).
    eapply wp_mono; [apply bubble_round_wp; try done; lia|].
    intros [] st' (l' & F' & new & f & -> & Hlen' & Hperm' & Hord' & HF' & Htr' & Hf
                     & Hsame & Hset').
    assert (F ⊆ F') as Hsub.
    { intros k. rewrite HF, HF', !elem_of_range_to_set. lia. }
    assert (Forall (unfinished n) (gs ++ new)) as Hunf'.
    { apply Forall_app. split; [apply Hunf; lia|].
      apply (trace_ok_unfinished _ _ _ _ _ _ _ 0 Htr'); [lia|].
      rewrite HF, elem_of_range_to_set. lia. }
    exists l', F', (gs ++ new ++ [f]). split_and!; try done.
    + by etrans.
    + eapply trace_ok_app; [done|].
      eapply trace_ok_app; [by eapply trace_ok_grow|].
      by apply trace_ok_one.
    + rewrite app_assoc. by apply early_unfinished_snoc.
    + intros Hi'. rewrite app_assoc. apply Forall_app. split; [done|].
      apply Forall_singleton. apply (frame_ok_unfinished _ _ _ _ _ _ 0 Hf); [lia|].
      rewrite HF', elem_of_range_to_set. lia.
    + apply Forall_app. split; [|done].
      apply (settled_keep h0 a n "Bubble sort complete" ∅ gs F l); [done | done |].
      intros k. rewrite HF, elem_of_range_to_set. intros Hk. apply Hsame. lia.
  - intros [] st (l & F & gs & -> & Hlen & Hperm & Hord & HF & Htr & Hearly & Hunf & Hset).
    apply wp_yield_complete.
    exists l, F, gs. rewrite Hlen. split_and!; try done.
    + apply ordered_from_0.
      by replace (n - Z.to_nat (0 `max` Z.of_nat n))%nat with 0%nat in Hord by lia.
    + intros k. rewrite HF, elem_of_range_to_set. lia.
Qed.
End Bubble.

(** ** Selection sort *)

Section Selection.
Context {A : Type} (val : A → Z).
Context (h0 : gmap loc (list A)) (a : loc) (n : nat).

Local Abbreviation St := (St h0 a).
Local Abbreviation trace_ok := (trace_ok h0 a n "Selection sort complete").
Local Abbreviation frame_ok := (frame_ok h0 a n "Selection sort complete").
Local Abbreviation set_in_range := (set_in_range n).

(** The scan leaves the array alone and returns the position of a
    minimum of the unsettled suffix. *)
Lemma selection_scan_wp (i : nat) l F gs :
  (i < n)%nat → length l = n → set_in_range F →
  wp (selection_scan val a (Z.of_nat n) (Z.of_nat i) (Z.of_nat i)) (St l F gs)
    (λ m st', ∃ km new, m = Z.of_nat km ∧ st' = St l F (gs ++ new) ∧
       (i ≤ km < n)%nat ∧
       (∀ q x y, (i ≤ q < n)%nat → l !! km = Some x → l !! q = Some y → val x ≤ val y) ∧
       trace_ok F new F ∧ frames_keep (λ _, True) l new).
Proof.
  intros Hi Hlen HF. unfold selection_scan.
  apply (wp_for_range (λ k m st, ∃ km new, m = Z.of_nat km ∧
           st = St l F (gs ++ new) ∧ (i ≤ km < k)%nat ∧
           (∀ q x y, (i ≤ q < k)%nat → l !! km = Some x → l !! q = Some y → val x ≤ val y) ∧
           trace_ok F new F ∧ frames_keep (λ _, True) l new)); [lia | | |].
  - exists i, []. rewrite app_nil_r.
    split_and!; [done | done | lia | lia | | by constructor | by apply Forall_nil].
    intros q x y Hq Hx Hy. assert (q = i) as -> by lia. simplify_eq. lia.
  - intros k m st Hk (km & new & -> & -> & Hkm & Hmin & Htr & Hkeep).
    destruct (lookup_lt_is_Some_2 l k) as [x Hx]; [lia|].
    destruct (lookup_lt_is_Some_2 l km) as [y Hy]; [lia|].
    apply wp_bind, wp_yield_state.
    apply wp_bind, (wp_load _ _ _ _ _ _ k x); [done..|].
    apply wp_bind, (wp_load _ _ _ _ _ _ km y); [done..|].
    assert (trace_ok F (new ++ [snap h0 a l F
              [(Z.of_nat km, PIVOT); (Z.of_nat k, COMPARE)]
              ("Finding minimum from index " +:+ pretty (Z.of_nat i) +:+ " onward")]) F)
      as Htr1.
    { apply trace_ok_snoc; [done|]. frame_ok_tac. }
    assert (frames_keep (λ _, True) l (new ++ [snap h0 a l F
              [(Z.of_nat km, PIVOT); (Z.of_nat k, COMPARE)]
              ("Finding minimum from index " +:+ pretty (Z.of_nat i) +:+ " onward")]))
      as Hkeep1.
    { apply Forall_app. split; [done|]. by apply frames_keep_snap. }
    destruct (Z.ltb_spec (val x) (val y)) as [Hcmp|Hcmp].
    + apply wp_bind, wp_yield_state, wp_ret.
      eexists k, _.
      split_and!; [done | by rewrite <- !app_assoc | lia | lia | | |].
      * intros q u v Hq Hu Hv. simplify_eq.
        destruct (decide (q = k)) as [->|]; [simplify_eq; lia|].
        trans (val y); [lia|]. apply (Hmin q); [lia | done | done].
      * rewrite app_assoc. apply trace_ok_snoc; [done|]. frame_ok_tac.
      * rewrite app_assoc. apply Forall_app. split; [done|]. by apply frames_keep_snap.
    + apply wp_ret. eexists km, _.
      split_and!; [done | by rewrite <- !app_assoc | lia | lia | | done | done].
      intros q u v Hq Hu Hv. simplify_eq.
      destruct (decide (q = k)) as [->|]; [simplify_eq; lia|].
      apply (Hmin q); [lia | done | done].
  - intros m st (km & new & -> & -> & Hkm & Hmin & Htr & Hkeep).
    exists km, new. split_and!; [done | done | lia | lia | | done | done].
    intros q x y Hq. apply Hmin. lia.
Qed.

(** One round settles position [i]. *)
Lemma selection_round_wp (i : nat) l F gs :
  (i < n)%nat → length l = n → ordered_upto val i l →
  F = list_to_set (range 0 (Z.of_nat i)) →
  wp (selection_round val a (Z.of_nat n) (Z.of_nat i)) (St l F gs)
    (λ _ st', ∃ l' F' new f, st' = St l' F' (gs ++ new ++ [f]) ∧
       length l' = n ∧ l' ≡ₚ l ∧ ordered_upto val (S i) l' ∧
       F' = list_to_set (range 0 (Z.of_nat (S i))) ∧
       trace_ok F new F ∧ frame_ok F' f ∧
       (∀ p, (p < i)%nat → l' !! p = l !! p) ∧ settled l' (new ++ [f])).
Proof.
  intros Hi Hlen Hord HF. unfold selection_round.
  assert (set_in_range F) as HFr.
  { intros k. rewrite HF, elem_of_range_to_set. lia. }
  apply wp_bind. eapply wp_mono; [by apply selection_scan_wp|].
  intros m st' (km & new & -> & -> & Hkm & Hmin & Htr & Hkeep).
  destruct (lookup_lt_is_Some_2 l i) as [x Hx]; [lia|].
  destruct (lookup_lt_is_Some_2 l km) as [y Hy]; [lia|].
  apply wp_bind, (wp_swap _ _ _ _ _ _ _ i km x y); [done..|].
  apply wp_bind, wp_set_add, wp_yield_state.
  eexists _, _, new, _. split; [by rewrite <- app_assoc|].
  assert ({[Z.of_nat i]} ∪ F = list_to_set (range 0 (Z.of_nat (S i)))) as HF'.
  { apply set_eq. intros k.
    rewrite elem_of_union, elem_of_singleton, HF, !elem_of_range_to_set. lia. }
  assert (∀ p, (p < i)%nat → <[km := x]> (<[i := y]> l) !! p = l !! p) as Hsame.
  { intros p Hp. by rewrite !list_lookup_insert_ne by lia. }
  split_and!; [by rewrite !length_insert | by apply Permutation_insert_swap | | done | done
              | | done |].
  - intros p q u v Hpq Hp Hu Hv.
    apply (lookup_swap _ _ _ x y) in Hu; [|done..].
    apply (lookup_swap _ _ _ x y) in Hv; [|done..].
    assert (∀ q' w, (i ≤ q')%nat → l !! q' = Some w → val y ≤ val w) as Hmin'.
    { intros q' w Hq' Hw. apply (Hmin q'); [|done..].
      apply lookup_lt_Some in Hw. lia. }
    assert (∀ p' q' w w', (p' < i)%nat → (p' < q')%nat →
              l !! p' = Some w → l !! q' = Some w' → val w ≤ val w') as Hord'.
    { intros p' q' w w' ? ? ? ?. by apply (Hord p' q'). }
    destruct Hu as [[-> ->]|[(? & -> & ->)|(? & ? & Hu)]];
      destruct Hv as [[-> ->]|[(? & -> & ->)|(? & ? & Hv)]]; try lia.
    + assert (km = i) as Heq by lia. rewrite Heq in Hy. simplify_eq.
      apply (Hmin' q); [lia | done].
    + apply (Hmin' i); [lia | done].
    + apply (Hmin' q); [lia | done].
    + destruct (decide (p < i)%nat); [by apply (Hord' p i)|lia].
    + destruct (decide (p < i)%nat); [by apply (Hord' p km); [|lia|..]|lia].
    + destruct (decide (p < i)%nat); [by apply (Hord' p q)|lia].
  - frame_ok_tac. intros k. rewrite HF', elem_of_range_to_set. lia.
  - apply Forall_app. split; [|by apply settled_snap].
    apply (settled_of_keep h0 a n "Selection sort complete" (λ p, (p < i)%nat) F new l);
      [done | | | done].
    + eapply Forall_impl; [exact Hkeep|]. intros f Hf p _. by apply Hf.
    + intros k. rewrite HF, elem_of_range_to_set. lia.
Qed.

Lemma selection_sort_run d xs :
  h0 !! d = Some xs → a = fresh (dom h0) → n = length xs →
  run_spec val "Selection sort complete"
    (λ l' gs, early_unfinished n gs ∧ settled l' gs) h0 xs
    (run (selection_sort val) h0 d).
Proof.
  intros Hd Ha Hn. apply wp_run_spec. rewrite <- Ha, <- Hn. unfold selection_sort.
  apply wp_bind, (wp_list_copy _ _ xs); [done|]. rewrite <- Ha.
  apply wp_bind, wp_new_set, wp_bind, wp_len, wp_bind. rewrite <- Hn.
  unfold for_.
  apply (wp_for_range (λ i _ st, ∃ l F gs, st = St l F gs ∧
           length l = n ∧ l ≡ₚ xs ∧ ordered_upto val i l ∧
           F = list_to_set (range 0 (Z.of_nat i)) ∧
           trace_ok ∅ gs F ∧ early_unfinished n gs ∧
           ((i < n)%nat → Forall (unfinished n) gs) ∧ settled l gs)); [lia | | |].
  - exists xs, ∅, []. split_and!; try done.
    + intros p q x y Hpq Hq Hx Hy. change (Z.to_nat 0) with 0%nat in Hq. lia.
    + by constructor.
    + apply early_unfinished_nil.
    + by apply Forall_nil.
  - intros i [] st Hi (l & F & gs & -> & Hlen & Hperm & Hord & HF & Htr & Hearly & Hunf & Hset).
    eapply wp_mono; [apply selection_round_wp; try done; lia|].
    intros [] st' (l' & F' & new & f & -> & Hlen' & Hperm' & Hord' & HF' & Htr' & Hf
                     & Hsame & Hset').
    assert (F ⊆ F') as Hsub.
    { intros k. rewrite HF, HF', !elem_of_range_to_set. lia. }
    assert (Forall (unfinished n) (gs ++ new)) as Hunf'.
    { apply Forall_app. split; [apply Hunf; lia|].
      apply (trace_ok_unfinished _ _ _ _ _ _ _ (Z.of_nat i) Htr'); [lia|].
      rewrite HF, elem_of_range_to_set. lia. }
    exists l', F', (gs ++ new ++ [f]). split_and!; try done.
    + by etrans.
    + eapply trace_ok_app; [done|].
      eapply trace_ok_app; [by eapply trace_ok_grow|].
      by apply trace_ok_one.
    + rewrite app_assoc. by apply early_unfinished_snoc.
    + intros Hi'. rewrite app_assoc. apply Forall_app. split; [done|].
      apply Forall_singleton.
      apply (frame_ok_unfinished _ _ _ _ _ _ (Z.of_nat (S i)) Hf); [lia|].
      rewrite HF', elem_of_range_to_set. lia.
    + apply Forall_app. split; [|done].
      apply (settled_keep h0 a n "Selection sort complete" ∅ gs F l); [done | done |].
      intros k. rewrite HF, elem_of_range_to_set. intros Hk. apply Hsame. lia.
  - intros [] st (l & F & gs & -> & Hlen & Hperm & Hord & HF & Htr & Hearly & Hunf & Hset).
    apply wp_yield_complete.
    exists l, F, gs. rewrite Hlen. split_and!; try done.
    + apply ordered_upto_length. rewrite Hlen.
      by replace (Z.to_nat (0 `max` Z.of_nat n)) with n in Hord by lia.
    + intros k. rewrite HF, elem_of_range_to_set. lia.
Qed.
End Selection.

(** ** Insertion sort *)

Section Insertion.
Context {A : Type} (val : A → Z).
Context (h0 : gmap loc (list A)) (a : loc) (n : nat).

Local Abbreviation St := (St h0 a).
Local Abbreviation trace_ok := (trace_ok h0 a n "Insertion sort complete").
Local Abbreviation frame_ok := (frame_ok h0 a n "Insertion sort complete").
Local Abbreviation set_in_range := (set_in_range n).

(** The positions below [i] are in order. *)
Definition prefix_sorted (i : nat) (l : list A) : Prop :=
  ∀ p q x y, (p < q)%nat → (q < i)%nat →
    l !! p = Some x → l !! q = Some y → val x ≤ val y.

(** While [key] is being inserted among the positions up to [i], the
    array has a hole at [m]: putting [key] there gives back a
    rearrangement of [l0]; the other positions up to [i] are in order;
    everything between the hole and [i] is larger than [key]. *)
Record hole (i m : nat) (key : A) (l0 l : list A) : Prop := {
  hole_perm : <[m := key]> l ≡ₚ l0;
  hole_sorted : ∀ p q x y, (p < q)%nat → (q ≤ i)%nat → p ≠ m → q ≠ m →
    l !! p = Some x → l !! q = Some y → val x ≤ val y;
  hole_above : ∀ q y, (m < q)%nat → (q ≤ i)%nat → l !! q = Some y → val key < val y
}.

Lemma insertion_shift_wp fuel (i m : nat) key l0 l F gs :
  (m ≤ i)%nat → (i < n)%nat → (m < fuel)%nat → length l = n → set_in_range F →
  hole i m key l0 l →
  wp (insertion_shift val fuel a key (Z.of_nat m - 1)) (St l F gs)
    (λ j st', ∃ m' l' new, j = Z.of_nat m' - 1 ∧ st' = St l' F (gs ++ new) ∧
       (m' ≤ m)%nat ∧ length l' = n ∧ hole i m' key l0 l' ∧
       (∀ p x, S p = m' → l' !! p = Some x → val x ≤ val key) ∧
       trace_ok F new F).
Proof.
  revert m l gs. induction fuel as [|fuel IH]; intros m l gs Hmi Hi Hfuel Hlen HF Hhole;
    [lia|].
  simpl.
  destruct (Z.geb_spec (Z.of_nat m - 1) 0) as [Hm|Hm].
  - destruct m as [|m]; [lia|].
    destruct (lookup_lt_is_Some_2 l m) as [x Hx]; [lia|].
    apply wp_bind, wp_bind, (wp_load _ _ _ _ _ _ m x); [lia | done |].
    apply wp_ret.
    destruct (Z.gtb_spec (val x) (val key)) as [Hcmp|Hcmp].
    + apply wp_bind, wp_yield_state.
      apply wp_bind, (wp_load _ _ _ _ _ _ m x); [lia | done |].
      apply wp_bind, (wp_store _ _ _ _ _ _ (S m)); [lia | lia |].
      apply wp_bind, wp_yield_state.
      replace (Z.of_nat (S m) - 1 - 1) with (Z.of_nat m - 1) by lia.
      eapply wp_mono.
      { apply (IH m); [lia | lia | lia | by rewrite length_insert | done |].
        destruct Hhole as [Hperm Hsorted Habove]. split.
        - rewrite <- Hperm.
          assert (<[S m := key]> l !! m = Some x) as Hx'
            by (by rewrite list_lookup_insert_ne by lia).
          assert (<[S m := key]> l !! S m = Some key) as Hk'
            by (rewrite list_lookup_insert_eq; [done|lia]).
          rewrite <- (Permutation_insert_swap (<[S m := key]> l) m (S m) x key Hx' Hk').
          rewrite (list_insert_insert_ne _ m (S m) key key) by lia.
          rewrite list_insert_insert_eq.
          by rewrite (list_insert_insert_ne _ m (S m)) by lia.
        - intros p q u v Hpq Hq Hp Hqm Hu Hv.
          destruct (decide (q = S m)) as [->|].
          + rewrite list_lookup_insert_eq in Hv by lia. simplify_eq.
            rewrite list_lookup_insert_ne in Hu by lia.
            apply (Hsorted p m); [lia..|done|done].
          + rewrite list_lookup_insert_ne in Hv by lia.
            destruct (decide (p = S m)) as [->|].
            * rewrite list_lookup_insert_eq in Hu by lia. simplify_eq.
              apply (Hsorted m q); [lia..|done|done].
            * rewrite list_lookup_insert_ne in Hu by lia.
              apply (Hsorted p q); [lia..|done|done].
        - intros q v Hq Hqi Hv.
          destruct (decide (q = S m)) as [->|].
          + rewrite list_lookup_insert_eq in Hv by lia. simplify_eq. lia.
          + rewrite list_lookup_insert_ne in Hv by lia.
            apply (Habove q); [lia | lia | done]. }
      intros j st' (m' & l' & new & -> & -> & Hm' & Hlen' & Hhole' & Hexit & Htr).
      eexists m', l', _. split_and!; [done | by rewrite <- !app_assoc | lia | done..|].
      eapply trace_ok_app; [apply trace_ok_one; frame_ok_tac|].
      eapply trace_ok_app; [apply trace_ok_one; frame_ok_tac|]. done.
    + apply wp_ret. exists (S m), l, []. rewrite app_nil_r.
      split_and!; [done | done | lia | done | done | | by constructor].
      intros p u Hp Hu. simplify_eq. done.
  - apply wp_bind, wp_ret, wp_ret. exists m, l, []. rewrite app_nil_r.
    split_and!; [done | done | lia | done | done | | by constructor].
    intros p u Hp Hu. lia.
Qed.

(** One round inserts the value at [i] into the ordered prefix. *)
Lemma insertion_round_wp (i : nat) l F gs :
  (1 ≤ i)%nat → (i < n)%nat → length l = n → prefix_sorted i l →
  set_in_range F →
  wp (insertion_round val a (Z.of_nat n) (Z.of_nat i)) (St l F gs)
    (λ _ st', ∃ l' new f,
       st' = St l' (list_to_set (range 0 (Z.of_nat i + 1)) ∪ F) (gs ++ new ++ [f]) ∧
       length l' = n ∧ l' ≡ₚ l ∧ prefix_sorted (S i) l' ∧
       trace_ok F new F ∧
       frame_ok (list_to_set (range 0 (Z.of_nat i + 1)) ∪ F) f).
Proof.
  intros Hi1 Hi Hlen Hsorted HF. unfold insertion_round.
  destruct (lookup_lt_is_Some_2 l i) as [key Hkey]; [lia|].
  apply wp_bind, (wp_load _ _ _ _ _ _ i key); [done..|].
  apply wp_bind, wp_yield_state, wp_bind.
  eapply wp_mono.
  { apply (insertion_shift_wp _ i i key l); [lia | done | | done | done |].
    - unfold fuel_for. lia.
    - split.
      + by rewrite list_insert_id.
      + intros p q x y Hpq Hq Hp Hqi. apply Hsorted; lia.
      + intros q y Hq Hq'. lia. }
  intros j st' (m & l' & new & -> & -> & Hm & Hlen' & [Hperm Hsorted' Habove] & Hexit & Htr).
  apply wp_bind, (wp_store _ _ _ _ _ _ m); [lia | lia |].
  apply wp_bind, wp_set_update_range, wp_yield_state.
  eexists _, (_ :: new), _. split; [by rewrite <- !app_assoc|].
  split_and!; [by rewrite length_insert | done | | |].
  - intros p q x y Hpq Hq Hx Hy.
    destruct (decide (q = m)) as [->|].
    + rewrite list_lookup_insert_eq in Hy by lia. simplify_eq.
      rewrite list_lookup_insert_ne in Hx by lia.
      destruct m as [|m]; [lia|].
      destruct (lookup_lt_is_Some_2 l' m) as [z Hz]; [lia|].
      trans (val z); [|by apply (Hexit m)].
      destruct (decide (p = m)) as [->|]; [simplify_eq; lia|].
      apply (Hsorted' p m); [lia..|done|done].
    + rewrite list_lookup_insert_ne in Hy by lia.
      destruct (decide (p = m)) as [->|].
      * rewrite list_lookup_insert_eq in Hx by lia. simplify_eq.
        apply Z.lt_le_incl, (Habove q); [lia | lia | done].
      * rewrite list_lookup_insert_ne in Hx by lia.
        apply (Hsorted' p q); [lia..|done|done].
  - econstructor; [done | frame_ok_tac | done].
  - frame_ok_tac. intros k.
    rewrite elem_of_union, elem_of_range_to_set. intros [?|?%HF]; lia.
Qed.

Lemma insertion_sort_run d xs :
  h0 !! d = Some xs → a = fresh (dom h0) → n = length xs →
  run_spec val "Insertion sort complete" (λ _ gs, early_unfinished n gs) h0 xs
    (run (insertion_sort val) h0 d).
Proof.
  intros Hd Ha Hn. apply wp_run_spec. rewrite <- Ha, <- Hn. unfold insertion_sort.
  apply wp_bind, (wp_list_copy _ _ xs); [done|]. rewrite <- Ha.
  apply wp_bind, wp_new_set, wp_bind, wp_len, wp_bind. rewrite <- Hn.
  unfold for_.
  apply (wp_for_range (λ i _ st, ∃ l F gs, st = St l F gs ∧
           length l = n ∧ l ≡ₚ xs ∧ prefix_sorted i l ∧
           (∀ k, k ∈ F → 0 ≤ k < Z.of_nat i ∧ k < Z.of_nat n) ∧
           trace_ok ∅ gs F ∧ early_unfinished n gs ∧
           ((i < n)%nat → Forall (unfinished n) gs))); [lia | | |].
  - exists xs, ∅, []. split_and!; try done.
    + intros p q x y Hpq Hq Hx Hy. change (Z.to_nat 1) with 1%nat in Hq. lia.
    + by constructor.
    + apply early_unfinished_nil.
  - intros i [] st Hi (l & F & gs & -> & Hlen & Hperm & Hord & HF & Htr & Hearly & Hunf).
    assert (set_in_range F) as HFr by (intros k ?%HF; lia).
    eapply wp_mono; [apply insertion_round_wp; try done; lia|].
    intros [] st' (l' & new & f & -> & Hlen' & Hperm' & Hord' & Htr' & Hf).
    assert (Forall (unfinished n) (gs ++ new)) as Hunf'.
    { apply Forall_app. split; [apply Hunf; lia|].
      apply (trace_ok_unfinished _ _ _ _ _ _ _ (Z.of_nat i) Htr'); [lia|].
      intros ?%HF. lia. }
    eexists l', _, (gs ++ new ++ [f]). split_and!; try done.
    + by etrans.
    + intros k. rewrite elem_of_union, elem_of_range_to_set. intros [?|?%HF]; lia.
    + rewrite app_assoc. apply trace_ok_snoc; [|done].
      eapply trace_ok_grow; [by eapply trace_ok_app|set_solver].
    + rewrite app_assoc. by apply early_unfinished_snoc.
    + intros Hi'. rewrite app_assoc. apply Forall_app. split; [done|].
      apply Forall_singleton.
      apply (frame_ok_unfinished _ _ _ _ _ _ (Z.of_nat (S i)) Hf); [lia|].
      rewrite elem_of_union, elem_of_range_to_set. intros [?|?%HF]; lia.
  - intros [] st (l & F & gs & -> & Hlen & Hperm & Hord & HF & Htr & Hearly & Hunf).
    apply wp_yield_complete.
    exists l, F, gs. rewrite Hlen. split_and!; try done.
    + intros p q x y Hpq Hx Hy. apply (Hord p q); [done | | done | done].
      apply lookup_lt_Some in Hy. lia.
    + intros k ?%HF. lia.
Qed.
End Insertion.

(** ** Quick sort *)

Section Quick.
Context {A : Type} (val : A → Z).
Context (h0 : gmap loc (list A)) (a : loc) (n : nat).

Local Abbreviation St := (St h0 a).
Local Abbreviation trace_ok := (trace_ok h0 a n "Quick sort complete").
Local Abbreviation frame_ok := (frame_ok h0 a n "Quick sort complete").
Local Abbreviation set_in_range := (set_in_range n).

(** Subranges are the positions [lo ≤ p < e]; the source's inclusive
    bound is [high = e - 1]. *)
Definition same_outside (lo e : nat) (l l' : list A) : Prop :=
  ∀ p, (p < lo ∨ e ≤ p)%nat → l' !! p = l !! p.

Definition comes_from (lo e : nat) (l l' : list A) : Prop :=
  ∀ q x, (lo ≤ q < e)%nat → l' !! q = Some x →
    ∃ p, (lo ≤ p < e)%nat ∧ l !! p = Some x.

Definition sorted_on (lo e : nat) (l : list A) : Prop :=
  ∀ p q x y, (lo ≤ p)%nat → (p < q)%nat → (q < e)%nat →
    l !! p = Some x → l !! q = Some y → val x ≤ val y.

Lemma comes_from_refl lo e l : comes_from lo e l l.
Proof. intros q x Hq Hx. eauto. Qed.

Lemma comes_from_swap lo e l l' ki kj x y :
  comes_from lo e l l' → (lo ≤ ki < e)%nat → (lo ≤ kj < e)%nat →
  l' !! ki = Some x → l' !! kj = Some y →
  comes_from lo e l (<[kj := x]> (<[ki := y]> l')).
Proof.
  intros Hcf Hki Hkj Hx Hy q z Hq Hz.
  apply (lookup_swap _ _ _ x y) in Hz; [|done..].
  destruct Hz as [[-> ->]|[(_ & -> & ->)|(_ & _ & Hz)]]; eauto.
Qed.

Lemma same_outside_swap lo e l l' ki kj x y :
  same_outside lo e l l' → (lo ≤ ki < e)%nat → (lo ≤ kj < e)%nat →
  same_outside lo e l (<[kj := x]> (<[ki := y]> l')).
Proof.
  intros Hso Hki Hkj p Hp.
  rewrite !list_lookup_insert_ne by lia. by apply Hso.
Qed.

Lemma quick_scan_wp (lo e : nat) pivot l F gs :
  (lo + 1 < e)%nat → (e ≤ n)%nat → length l = n → set_in_range F →
  wp (_quick_sort_scan val a pivot (Z.of_nat lo) (Z.of_nat e - 1) (Z.of_nat lo - 1))
    (St l F gs)
    (λ i st', ∃ m l' new, i = Z.of_nat m - 1 ∧ st' = St l' F (gs ++ new) ∧
       (lo ≤ m < e)%nat ∧ length l' = n ∧ l' ≡ₚ l ∧
       same_outside lo (e - 1) l l' ∧ comes_from lo e l l' ∧
       (∀ q x, (lo ≤ q < m)%nat → l' !! q = Some x → val x ≤ val pivot) ∧
       (∀ q x, (m ≤ q)%nat → (q < e - 1)%nat → l' !! q = Some x → val pivot < val x) ∧
       trace_ok F new F ∧ frames_keep (λ p, (p < lo ∨ e ≤ p)%nat) l new).
Proof.
  intros Hlo He Hlen HF. unfold _quick_sort_scan.
  apply (wp_for_range (λ k i st, ∃ m l' new, i = Z.of_nat m - 1 ∧
           st = St l' F (gs ++ new) ∧ (lo ≤ m ≤ k)%nat ∧ length l' = n ∧ l' ≡ₚ l ∧
           same_outside lo (e - 1) l l' ∧ comes_from lo e l l' ∧
           (∀ q x, (lo ≤ q < m)%nat → l' !! q = Some x → val x ≤ val pivot) ∧
           (∀ q x, (m ≤ q)%nat → (q < k)%nat → l' !! q = Some x → val pivot < val x) ∧
           trace_ok F new F ∧ frames_keep (λ p, (p < lo ∨ e ≤ p)%nat) l new)); [lia | | |].
  - exists lo, l, []. rewrite app_nil_r.
    split_and!; [done | done | lia | lia | done | done | done | apply comes_from_refl
                | intros; lia | intros; lia | by constructor | by apply Forall_nil].
  - intros k i st Hk (m & l' & new & -> & -> & Hm & Hlen' & Hperm & Hso & Hcf & Hle & Hgt
                        & Htr & Hkeep).
    destruct (lookup_lt_is_Some_2 l' k) as [x Hx]; [lia|].
    apply wp_bind, wp_yield_state.
    apply wp_bind, (wp_load _ _ _ _ _ _ k x); [done..|].
    assert (trace_ok F (new ++ [snap h0 a l' F
              [(Z.of_nat k, COMPARE); (Z.of_nat e - 1, PIVOT)]
              ("Comparing index " +:+ pretty (Z.of_nat k) +:+ " with pivot")]) F)
      as Htr1.
    { apply trace_ok_snoc; [done|]. frame_ok_tac. }
    assert (frames_keep (λ p, (p < lo ∨ e ≤ p)%nat) l (new ++ [snap h0 a l' F
              [(Z.of_nat k, COMPARE); (Z.of_nat e - 1, PIVOT)]
              ("Comparing index " +:+ pretty (Z.of_nat k) +:+ " with pivot")]))
      as Hkeep1.
    { apply Forall_app. split; [done|]. apply frames_keep_snap.
      intros p Hp. apply Hso. lia. }
    destruct (Z.leb_spec (val x) (val pivot)) as [Hcmp|Hcmp].
    + destruct (lookup_lt_is_Some_2 l' m) as [y Hy]; [lia|].
      apply wp_bind, (wp_swap _ _ _ _ _ _ _ m k y x); [lia | done | done | done |].
      apply wp_bind, wp_yield_state, wp_ret.
      assert (same_outside lo (e - 1) l (<[k := y]> (<[m := x]> l'))) as Hso'.
      { apply same_outside_swap; [done | lia | lia]. }
      eexists (S m), _, _.
      split_and!; [lia | by rewrite <- !app_assoc | lia | lia
                  | by rewrite !length_insert
                  | by etrans; [apply Permutation_insert_swap|]
                  | done
                  | apply comes_from_swap; [done | lia | lia | done | done] | | | |].
      * intros q z Hq Hz. apply (lookup_swap _ _ _ y x) in Hz; [|done..].
        destruct Hz as [[-> ->]|[(_ & -> & ->)|(? & ? & Hz)]]; [|lia|].
        -- assert (m = k) as Heq by lia. rewrite Heq in Hy. simplify_eq. lia.
        -- apply (Hle q); [lia | done].
      * intros q z Hq Hqk Hz. apply (lookup_swap _ _ _ y x) in Hz; [|done..].
        destruct Hz as [[-> ->]|[(_ & -> & ->)|(? & ? & Hz)]]; [|lia|].
        -- apply (Hgt m); [lia | lia | done].
        -- apply (Hgt q); [lia | lia | done].
      * rewrite app_assoc. apply trace_ok_snoc; [done|]. frame_ok_tac.
      * rewrite app_assoc. apply Forall_app. split; [done|]. apply frames_keep_snap.
        intros p Hp. apply Hso'. lia.
    + apply wp_ret. eexists m, l', _.
      split_and!; [done | by rewrite <- !app_assoc | lia | lia | done | done | done
                  | done | done | | done | done].
      intros q z Hq Hqk Hz.
      destruct (decide (q = k)) as [->|]; [simplify_eq; lia|].
      apply (Hgt q); [lia | lia | done].
  - intros i st (m & l' & new & -> & -> & Hm & Hlen' & Hperm & Hso & Hcf & Hle & Hgt
                   & Htr & Hkeep).
    exists m, l', new.
    split_and!; [done | done | lia | lia | done | done | done | done | done | | done | done].
    intros q x Hq Hqe. apply Hgt; lia.
Qed.

(** The partition step: the last value of the subrange is the pivot; it
    ends at [p], with the values no larger than it on its left and the
    larger ones on its right; [p] is finalized and shown as SORTED. *)
Lemma quick_partition_wp (lo e : nat) pivot l F gs :
  (lo + 1 < e)%nat → (e ≤ n)%nat → length l = n → set_in_range F →
  l !! (e - 1)%nat = Some pivot →
  wp (_quick_sort_partition val a (Z.of_nat lo) (Z.of_nat e - 1)) (St l F gs)
    (λ r st', ∃ p l' new, r = Z.of_nat p ∧ (lo ≤ p < e)%nat ∧
       st' = St l' ({[Z.of_nat p]} ∪ F)
               (gs ++ (snap h0 a l F [(Z.of_nat e - 1, PIVOT)]
                         ("Pivot chosen at index " +:+ pretty (Z.of_nat e - 1)) :: new)
                   ++ [snap h0 a l' ({[Z.of_nat p]} ∪ F) [(Z.of_nat p, SORTED)]
                         ("Pivot settled at index " +:+ pretty (Z.of_nat p))]) ∧
       length l' = n ∧ l' ≡ₚ l ∧ same_outside lo e l l' ∧ comes_from lo e l l' ∧
       l' !! p = Some pivot ∧
       (∀ q x, (lo ≤ q < p)%nat → l' !! q = Some x → val x ≤ val pivot) ∧
       (∀ q x, (p < q < e)%nat → l' !! q = Some x → val pivot < val x) ∧
       trace_ok F new F ∧
       frames_keep (λ p, (p < lo ∨ e ≤ p)%nat) l
         (snap h0 a l F [(Z.of_nat e - 1, PIVOT)]
            ("Pivot chosen at index " +:+ pretty (Z.of_nat e - 1)) :: new)).
Proof.
  intros Hlo He Hlen HF Hpivot. unfold _quick_sort_partition.
  apply wp_bind, (wp_load _ _ _ _ _ _ (e - 1)%nat pivot); [lia | done |].
  apply wp_bind, wp_yield_state, wp_bind.
  eapply wp_mono; [by apply quick_scan_wp|].
  intros i st' (m & l1 & new & -> & -> & Hm & Hlen1 & Hperm & Hso & Hcf & Hle & Hgt
                  & Htr & Hkeep).
  assert (l1 !! (e - 1)%nat = Some pivot) as Hpivot1.
  { rewrite Hso; [done|lia]. }
  destruct (lookup_lt_is_Some_2 l1 m) as [x Hx]; [lia|].
  apply wp_bind, (wp_swap _ _ _ _ _ _ _ m (e - 1)%nat x pivot); [lia | lia | done | done |].
  apply wp_bind, wp_set_add.
  replace (Z.of_nat m - 1 + 1) with (Z.of_nat m) by lia.
  apply wp_bind, wp_yield_state, wp_ret.
  eexists m, _, new.
  split_and!; [done | lia | lia | by rewrite <- !app_assoc | by rewrite !length_insert
              | by etrans; [apply Permutation_insert_swap|]
              | | apply comes_from_swap; [done | lia | lia | done | done] | | | | done |].
  - apply same_outside_swap; [|lia|lia]. intros p Hp. apply Hso. lia.
  - destruct (lookup_lt_is_Some_2 (<[(e - 1)%nat := x]> (<[m := pivot]> l1)) m) as [z Hz].
    { rewrite !length_insert. lia. }
    rewrite Hz. apply (lookup_swap _ _ _ x pivot) in Hz; [|done..].
    destruct Hz as [[Heq ->]|[(_ & _ & ->)|(_ & ? & _)]]; [|done..].
    rewrite Heq in Hx. by simplify_eq.
  - intros q z Hq Hz. apply (lookup_swap _ _ _ x pivot) in Hz; [|done..].
    destruct Hz as [[-> ->]|[(_ & -> & ->)|(_ & _ & Hz)]]; [lia | lia |].
    by apply (Hle q).
  - intros q z Hq Hz. apply (lookup_swap _ _ _ x pivot) in Hz; [|done..].
    destruct Hz as [[-> ->]|[(_ & -> & ->)|(? & _ & Hz)]]; [|lia|].
    + apply (Hgt m); [lia | lia | done].
    + apply (Hgt q); [lia | lia | done].
  - apply Forall_cons. split; [|exact Hkeep]. done.
Qed.

(** A frame that does not show some position of the subrange as
    finalized. *)
Definition misses (lo e : nat) (f : Frame A) : Prop :=
  ∃ k, (lo ≤ k < e)%nat ∧ Z.of_nat k ∉ sorted_indices (snapshot f).

(** Of the frames of a call on a non-empty subrange, only the last one
    shows the whole subrange finalized; an empty subrange yields none. *)
Definition early_miss (lo e : nat) (new : list (Frame A)) : Prop :=
  ((lo < e)%nat → ∃ gs' f, new = gs' ++ [f] ∧ Forall (misses lo e) gs') ∧
  ((e ≤ lo)%nat → new = []).

Lemma frame_ok_misses lo e F f k :
  frame_ok F f → (lo ≤ k < e)%nat → Z.of_nat k ∉ F → misses lo e f.
Proof.
  intros (l & hl & d & -> & _) Hk Hnot. exists k. split; [done|].
  simpl. by rewrite elem_of_sorted_tuple.
Qed.

Lemma trace_ok_misses lo e F gs F' k :
  trace_ok F gs F' → (lo ≤ k < e)%nat → Z.of_nat k ∉ F' → Forall (misses lo e) gs.
Proof.
  intros Htr Hk Hnot. apply Forall_forall. intros f Hf.
  destruct (trace_ok_elem _ _ _ _ _ _ _ _ Htr Hf) as (T & _ & HT & Hok).
  eapply frame_ok_misses; [done | done | set_solver].
Qed.

Lemma misses_weaken lo e lo' e' f :
  misses lo' e' f → (lo ≤ lo')%nat → (e' ≤ e)%nat → misses lo e f.
Proof. intros (k & Hk & Hnot) ? ?. exists k. split; [lia|done]. Qed.

Lemma quick_sort_rec_wp fuel (lo e : nat) l F gs :
  (lo ≤ e)%nat → (e ≤ n)%nat → (e - lo < fuel)%nat → length l = n →
  set_in_range F → (∀ k, (lo ≤ k < e)%nat → Z.of_nat k ∉ F) →
  wp (_quick_sort val fuel a (Z.of_nat lo) (Z.of_nat e - 1)) (St l F gs)
    (λ _ st', ∃ l' new,
       st' = St l' (list_to_set (range (Z.of_nat lo) (Z.of_nat e)) ∪ F) (gs ++ new) ∧
       length l' = n ∧ l' ≡ₚ l ∧ same_outside lo e l l' ∧ comes_from lo e l l' ∧
       sorted_on lo e l' ∧
       trace_ok F new (list_to_set (range (Z.of_nat lo) (Z.of_nat e)) ∪ F) ∧
       early_miss lo e new ∧ settled l' new).
Proof.
  revert lo e l F gs.
  induction fuel as [|fuel IH]; intros lo e l F gs Hlo He Hfuel Hlen HF Hfresh; [lia|].
  simpl. destruct (Z.geb_spec (Z.of_nat lo) (Z.of_nat e - 1)) as [Hge|Hlt].
  - destruct (Z.eqb_spec (Z.of_nat lo) (Z.of_nat e - 1)) as [Heq|Hne].
    + (* a single position *)
      apply wp_bind, wp_set_add, wp_yield_state.
      assert ({[Z.of_nat lo]} ∪ F
              = list_to_set (range (Z.of_nat lo) (Z.of_nat e)) ∪ F) as HF'.
      { apply set_eq. intros k.
        rewrite !elem_of_union, elem_of_singleton, elem_of_range_to_set.
        naive_solver lia. }
      rewrite HF'. eexists l, [_].
      split_and!; [done | done | done | done | | | | | by apply settled_snap].
      * apply comes_from_refl.
      * intros p q x y ? ? ?. lia.
      * eapply trace_ok_pre; cycle 1; [apply trace_ok_one|set_solver].
        frame_ok_tac. intros k.
        rewrite elem_of_union, elem_of_range_to_set. intros [?|?%HF]; lia.
      * split; [|lia]. intros _. by eexists [], _.
    + (* an empty subrange *)
      apply wp_ret.
      assert (list_to_set (range (Z.of_nat lo) (Z.of_nat e)) ∪ F = F) as ->.
      { apply set_eq. intros k. rewrite elem_of_union, elem_of_range_to_set.
        split; [intros [?|?]; [lia|done] | by right]. }
      exists l, []. rewrite app_nil_r.
      split_and!; [done | done | done | done | apply comes_from_refl | |
                   by constructor | | by apply Forall_nil].
      * intros p q x y ? ? ?. lia.
      * split; [lia|done].
  - destruct (lookup_lt_is_Some_2 l (e - 1)%nat) as [pivot Hpivot]; [lia|].
    apply wp_bind. eapply wp_mono; [apply (quick_partition_wp lo e pivot); try done; lia|].
    intros r st1 (p & l1 & new1 & -> & Hp & -> & Hlen1 & Hperm1 & Hso1 & Hcf1
                    & Hpiv1 & Hle1 & Hgt1 & Htr1 & Hkeep1).
    set (f0 := snap h0 a l F [(Z.of_nat e - 1, PIVOT)]
                 ("Pivot chosen at index " +:+ pretty (Z.of_nat e - 1))) in *.
    set (F1 := {[Z.of_nat p]} ∪ F) in *.
    set (fs := snap h0 a l1 F1 [(Z.of_nat p, SORTED)]
                 ("Pivot settled at index " +:+ pretty (Z.of_nat p))) in *.
    assert (set_in_range F1) as HF1.
    { intros k. unfold F1. rewrite elem_of_union, elem_of_singleton.
      intros [->|?%HF]; lia. }
    assert (frame_ok F f0) as Hf0 by (subst f0; frame_ok_tac).
    assert (frame_ok F1 fs) as Hfs by (subst fs; frame_ok_tac).
    (* left of the pivot *)
    apply wp_bind. eapply wp_mono.
    { apply (IH lo p l1 F1); [lia | lia | lia | done | done |].
      intros k Hk. unfold F1. rewrite elem_of_union, elem_of_singleton.
      intros [?|?]; [lia|]. by apply (Hfresh k); [lia|]. }
    intros [] st2 (l2 & new2 & -> & Hlen2 & Hperm2 & Hso2 & Hcf2 & Hsort2 & Htr2 & Hem2
                     & Hset2).
    set (F2 := list_to_set (range (Z.of_nat lo) (Z.of_nat p)) ∪ F1) in *.
    assert (set_in_range F2) as HF2.
    { intros k. unfold F2. rewrite elem_of_union, elem_of_range_to_set.
      intros [?|?%HF1]; lia. }
    (* right of the pivot *)
    replace (Z.of_nat p + 1) with (Z.of_nat (S p)) by lia.
    eapply wp_mono.
    { apply (IH (S p) e l2 F2); [lia | lia | lia | done | done |].
      intros k Hk. unfold F2, F1.
      rewrite !elem_of_union, elem_of_range_to_set, elem_of_singleton.
      intros [?|[?|?]]; [lia | lia |]. by apply (Hfresh k); [lia|]. }
    intros [] st3 (l3 & new3 & -> & Hlen3 & Hperm3 & Hso3 & Hcf3 & Hsort3 & Htr3 & Hem3
                     & Hset3).
    assert (list_to_set (range (Z.of_nat (S p)) (Z.of_nat e)) ∪ F2
            = list_to_set (range (Z.of_nat lo) (Z.of_nat e)) ∪ F) as HF3.
    { apply set_eq. intros k. unfold F2, F1.
      rewrite !elem_of_union, !elem_of_range_to_set, elem_of_singleton.
      naive_solver lia. }
    rewrite HF3 in Htr3 |- *.
    (* where the values of the final array come from *)
    assert (l3 !! p = Some pivot) as Hpiv3.
    { rewrite Hso3 by lia. rewrite Hso2 by lia. done. }
    assert (∀ q x, (lo ≤ q < p)%nat → l3 !! q = Some x → val x ≤ val pivot) as Hle3.
    { intros q x Hq Hx. rewrite Hso3 in Hx by lia.
      destruct (Hcf2 q x Hq Hx) as (q' & Hq' & Hx'). by apply (Hle1 q'). }
    assert (∀ q x, (p < q < e)%nat → l3 !! q = Some x → val pivot < val x) as Hgt3.
    { intros q x Hq Hx.
      destruct (Hcf3 q x) as (q' & Hq' & Hx'); [lia | done |].
      rewrite Hso2 in Hx' by lia. apply (Hgt1 q'); [lia | done]. }
    assert (same_outside lo e l l3) as Hso13.
    { intros q Hq. rewrite Hso3 by lia. rewrite Hso2 by lia. by apply Hso1. }
    assert (∀ k : nat, Z.of_nat k ∈ F → (k < lo ∨ e ≤ k)%nat) as Hout.
    { intros k Hk. destruct (decide (lo ≤ k < e)%nat) as [Hin|]; [|lia].
      by destruct (Hfresh k Hin). }
    exists l3, ((f0 :: new1) ++ [fs] ++ new2 ++ new3).
    split_and!.
    + by rewrite <- !app_assoc.
    + done.
    + by rewrite Hperm3, Hperm2.
    + done.
    + intros q x Hq Hx. destruct (decide (p < q)%nat).
      * destruct (Hcf3 q x) as (q' & Hq' & Hx'); [lia | done |].
        rewrite Hso2 in Hx' by lia. apply (Hcf1 q'); [lia | done].
      * rewrite Hso3 in Hx by lia. destruct (decide (q = p)) as [->|].
        -- rewrite Hso2 in Hx by lia. by apply (Hcf1 p); [lia|].
        -- destruct (Hcf2 q x) as (q' & Hq' & Hx'); [lia | done |].
           apply (Hcf1 q'); [lia | done].
    + intros s t x y Hs Hst Ht Hx Hy.
      destruct (decide (t < p)%nat).
      { rewrite Hso3 in Hx, Hy by lia. by apply (Hsort2 s t). }
      destruct (decide (p < s)%nat).
      { by apply (Hsort3 s t); [lia..| |]. }
      destruct (decide (s = p)) as [->|].
      { simplify_eq. apply Z.lt_le_incl, (Hgt3 t); [lia | done]. }
      trans (val pivot); [apply (Hle3 s); [lia | done]|].
      destruct (decide (t = p)) as [->|]; [simplify_eq; lia|].
      apply Z.lt_le_incl, (Hgt3 t); [lia | done].
    + eapply trace_ok_app.
      { eapply trace_ok_cons; [|exact Hf0|exact Htr1]. done. }
      eapply trace_ok_app.
      { apply (trace_ok_pre _ _ _ _ F F1); [set_solver|by apply trace_ok_one]. }
      eapply trace_ok_app; done.
    + split; [intros _|lia].
      assert (Forall (misses lo e) (f0 :: new1)) as Hm1.
      { apply (trace_ok_misses lo e F _ F lo); [|lia|apply Hfresh; lia].
        eapply trace_ok_cons; [|exact Hf0|exact Htr1]. done. }
      assert (misses lo e fs) as Hms.
      { destruct (decide (p = lo)) as [->|].
        - apply (frame_ok_misses lo e F1 fs (S lo) Hfs); [lia|]. unfold F1.
          rewrite elem_of_union, elem_of_singleton. intros [?|?]; [lia|].
          by apply (Hfresh (S lo)); [lia|].
        - apply (frame_ok_misses lo e F1 fs lo Hfs); [lia|]. unfold F1.
          rewrite elem_of_union, elem_of_singleton. intros [?|?]; [lia|].
          by apply (Hfresh lo); [lia|]. }
      destruct Hem2 as [Hem2 Hem2'], Hem3 as [Hem3 Hem3'].
      destruct (decide (S p < e)%nat) as [Hr|Hr].
      * destruct (Hem3 Hr) as (gs3 & f3 & -> & Hgs3).
        exists ((f0 :: new1) ++ [fs] ++ new2 ++ gs3), f3.
        split; [by rewrite <- !app_assoc|].
        rewrite !Forall_app. split_and!; [done | by apply Forall_singleton | |].
        -- apply (trace_ok_misses lo e F1 _ F2 (S p) Htr2); [lia|]. unfold F2, F1.
           rewrite !elem_of_union, elem_of_range_to_set, elem_of_singleton.
           intros [?|[?|?]]; [lia | lia |]. by apply (Hfresh (S p)); [lia|].
        -- eapply Forall_impl; [done|]. intros f Hf.
           eapply misses_weaken; [done | lia | lia].
      * rewrite (Hem3' ltac:(lia)), app_nil_r.
        destruct Hem2 as (gs2 & f2 & -> & Hgs2); [lia|].
        exists ((f0 :: new1) ++ [fs] ++ gs2), f2.
        split; [by rewrite <- !app_assoc|].
        rewrite !Forall_app. split_and!; [done | by apply Forall_singleton |].
        eapply Forall_impl; [done|]. intros f Hf.
        eapply misses_weaken; [done | lia | lia].
    + unfold settled. rewrite !Forall_app. split_and!.
      * apply (settled_of_keep h0 a n "Quick sort complete"
                 (λ p, (p < lo ∨ e ≤ p)%nat) F (f0 :: new1) l); [|done|done|done].
        eapply trace_ok_cons; [|exact Hf0|exact Htr1]. done.
      * apply settled_snap. intros k. unfold F1.
        rewrite elem_of_union, elem_of_singleton. intros [Hk|Hk%Hout].
        -- assert (k = p) as -> by lia. by rewrite Hpiv1, Hpiv3.
        -- rewrite Hso3 by lia. by rewrite Hso2 by lia.
      * apply (settled_keep h0 a n "Quick sort complete" F1 new2 F2 l2); [done | done |].
        intros k. unfold F2, F1.
        rewrite !elem_of_union, elem_of_range_to_set, elem_of_singleton.
        intros [?|[?|?%Hout]]; apply Hso3; lia.
      * done.
Qed.

Lemma quick_sort_run d xs :
  h0 !! d = Some xs → a = fresh (dom h0) → n = length xs →
  run_spec val "Quick sort complete"
    (λ l' gs, early_unfinished n gs ∧ settled l' gs) h0 xs
    (run (quick_sort val) h0 d).
Proof.
  intros Hd Ha Hn. apply wp_run_spec. rewrite <- Ha, <- Hn. unfold quick_sort.
  apply wp_bind, (wp_list_copy _ _ xs); [done|]. rewrite <- Ha.
  apply wp_bind, wp_new_set, wp_bind, wp_len, wp_bind. rewrite <- Hn.
  eapply wp_mono.
  { apply (quick_sort_rec_wp _ 0 n xs ∅ []); [lia | lia | | done | done | set_solver].
    unfold fuel_for. lia. }
  intros [] st (l & gs & -> & Hlen & Hperm & Hso & Hcf & Hsort & Htr & Hem & Hset).
  apply wp_yield_complete. simpl.
  eexists l, _, gs. rewrite Hlen. split_and!; [done | done | done | | done | | | done].
  - intros p q x y Hpq Hx Hy. apply (Hsort p q); [lia | done | | done | done].
    apply lookup_lt_Some in Hy. lia.
  - intros k. rewrite elem_of_union, elem_of_range_to_set. set_solver by lia.
  - destruct Hem as [Hem Hem']. destruct (decide (0 < n)%nat) as [Hpos|Hz].
    + destruct (Hem Hpos) as (gs' & f & -> & Hgs'). apply early_unfinished_snoc.
      eapply Forall_impl; [done|]. intros f' (k & Hk & Hnot). exists (Z.of_nat k).
      split; [lia|done].
    + rewrite Hem' by lia. apply early_unfinished_nil.
Qed.
End Quick.

(** ** Merge sort *)

(** [overwrite s ys l]: the list [l] with the values [ys] written over the
    positions from [s] on. *)
Definition overwrite {A} (s : nat) (ys l : list A) : list A :=
  take s l ++ ys ++ drop (s + length ys) l.

Section Overwrite.
Context {A : Type}.
Implicit Types l ys : list A.

Lemma length_overwrite s ys l :
  (s + length ys ≤ length l)%nat → length (overwrite s ys l) = length l.
Proof.
  intros Hle. unfold overwrite.
  rewrite !length_app, length_take, length_drop. lia.
Qed.

Lemma overwrite_nil s l : overwrite s [] l = l.
Proof. unfold overwrite. simpl. rewrite Nat.add_0_r. apply take_drop. Qed.

(** Writing one more value right after the ones already written. *)
Lemma overwrite_snoc s ys x l :
  (s + length ys < length l)%nat →
  <[(s + length ys)%nat := x]> (overwrite s ys l) = overwrite s (ys ++ [x]) l.
Proof.
  intros Hlt. unfold overwrite.
  rewrite insert_app_r_alt by (rewrite length_take; lia).
  rewrite length_take, Nat.min_l by lia.
  rewrite insert_app_r_alt by lia.
  replace (s + length ys - s - length ys)%nat with 0%nat by lia.
  rewrite length_app. simpl.
  destruct (lookup_lt_is_Some_2 l (s + length ys)%nat) as [z Hz]; [lia|].
  rewrite (drop_S l z (s + length ys)) by done.
  simpl. rewrite <- app_assoc. simpl. do 3 f_equal. f_equal. lia.
Qed.

Lemma overwrite_id s k l :
  (s + k ≤ length l)%nat → overwrite s (take k (drop s l)) l = l.
Proof.
  intros Hle. unfold overwrite.
  rewrite length_take, length_drop, Nat.min_l by lia.
  rewrite <- (take_drop s l) at 4. f_equal.
  rewrite <- (take_drop k (drop s l)) at 2. f_equal.
  by rewrite drop_drop.
Qed.

(** Overwriting again a range that covers the first one. *)
Lemma overwrite_overwrite s ys ys' l :
  length ys = length ys' → (s + length ys ≤ length l)%nat →
  overwrite s ys (overwrite s ys' l) = overwrite s ys l.
Proof.
  intros Hlen Hle. unfold overwrite.
  rewrite take_app_le by (rewrite length_take; lia).
  rewrite take_take, Nat.min_id.
  do 2 f_equal.
  rewrite drop_app_ge by (rewrite length_take; lia).
  rewrite length_take, Nat.min_l by lia.
  rewrite drop_app_ge by lia.
  rewrite drop_drop. f_equal. lia.
Qed.

(** Overwriting the positions that follow an overwritten range. *)
Lemma overwrite_app s ys1 ys2 l :
  (s + length ys1 + length ys2 ≤ length l)%nat →
  overwrite (s + length ys1) ys2 (overwrite s ys1 l) = overwrite s (ys1 ++ ys2) l.
Proof.
  intros Hle. unfold overwrite.
  rewrite take_app_ge by (rewrite length_take; lia).
  rewrite length_take, Nat.min_l by lia.
  rewrite take_app_ge by lia.
  replace (s + length ys1 - s - length ys1)%nat with 0%nat by lia.
  rewrite take_0, app_nil_r, <- !app_assoc. do 3 f_equal.
  rewrite drop_app_ge by (rewrite length_take; lia).
  rewrite length_take, Nat.min_l by lia.
  rewrite drop_app_ge by lia.
  rewrite drop_drop, length_app. f_equal. lia.
Qed.

Lemma overwrite_segment s ys l :
  (s + length ys ≤ length l)%nat →
  take (length ys) (drop s (overwrite s ys l)) = ys.
Proof.
  intros Hle. unfold overwrite.
  rewrite drop_app_ge by (rewrite length_take; lia).
  rewrite length_take, Nat.min_l by lia.
  replace (s - s)%nat with 0%nat by lia. rewrite drop_0.
  by rewrite take_app_length.
Qed.

Lemma overwrite_drop_after s ys l k :
  (s + length ys ≤ k)%nat → (s + length ys ≤ length l)%nat →
  drop k (overwrite s ys l) = drop k l.
Proof.
  intros Hk Hle. unfold overwrite.
  rewrite drop_app_ge by (rewrite length_take; lia).
  rewrite length_take, Nat.min_l by lia.
  rewrite drop_app_ge by lia.
  rewrite drop_drop. f_equal. lia.
Qed.

Lemma overwrite_take_left s ys1 ys2 l :
  (s + length (ys1 ++ ys2) ≤ length l)%nat →
  take (length ys1) (drop s (overwrite s (ys1 ++ ys2) l)) = ys1.
Proof.
  intros Hle. rewrite <- (take_app_length ys1 ys2) at 3.
  rewrite <- (overwrite_segment s (ys1 ++ ys2) l) at 2 by done.
  rewrite take_take, length_app. f_equal. lia.
Qed.

Lemma overwrite_take_right s ys1 ys2 l :
  (s + length (ys1 ++ ys2) ≤ length l)%nat →
  take (length ys2) (drop (s + length ys1) (overwrite s (ys1 ++ ys2) l)) = ys2.
Proof.
  intros Hle. rewrite <- (drop_app_length ys1 ys2) at 3.
  rewrite <- (overwrite_segment s (ys1 ++ ys2) l) at 2 by done.
  rewrite skipn_firstn_comm, drop_drop, length_app. f_equal. lia.
Qed.

Lemma py_slice_nat l (lo hi : nat) :
  (lo ≤ hi)%nat → (hi ≤ length l)%nat →
  py_slice l (Z.of_nat lo) (Z.of_nat hi) = take (hi - lo) (drop lo l).
Proof.
  intros Hlo Hhi. unfold py_slice, py_clamp.
  rewrite !decide_False by lia.
  replace (Z.to_nat (Z.of_nat (length l) `min` (0 `max` Z.of_nat lo))) with lo by lia.
  by replace (Z.to_nat (Z.of_nat (length l) `min` (0 `max` Z.of_nat hi))) with hi by lia.
Qed.
End Overwrite.

#[global] Instance le_val_dec {A} (val : A → Z) : RelDecision (le_val val).
Proof. intros x y. unfold le_val. apply _. Defined.

#[global] Instance le_val_total {A} (val : A → Z) : Total (le_val val).
Proof. intros x y. unfold le_val. lia. Qed.

#[global] Instance le_val_trans {A} (val : A → Z) : Transitive (le_val val).
Proof. intros x y z. unfold le_val. lia. Qed.

(** A frame that highlights exactly one cell, as written. *)
Definition swap_frame {A} (f : Frame A) : Prop :=
  ∃ k, highlights (snapshot f) = {[ k := SWAP ]}.

(** ** Stability: equal values in the order of their tags *)

Section InOrder.
Context {A : Type} (val tag : A → Z).

(** Comparisons see [val] only; [tag] tells equal values apart.  In a
    list that is [in_order], of two elements with the same value the one
    with the smaller tag comes first. *)
Definition in_order (l : list A) : Prop :=
  ∀ p q x y, (p < q)%nat → l !! p = Some x → l !! q = Some y →
    val x = val y → tag x ≤ tag y.

Definition tag_le (x y : A) : Prop := val x = val y → tag x ≤ tag y.

Lemma in_order_nil : in_order [].
Proof. intros p q x y _ Hp. by rewrite lookup_nil in Hp. Qed.

Lemma in_order_cons x l :
  in_order (x :: l) ↔ Forall (tag_le x) l ∧ in_order l.
Proof.
  split.
  - intros H. split.
    + apply Forall_forall. intros y [q Hq]%list_elem_of_lookup Heq.
      by apply (H 0%nat (S q) x y); [lia|..].
    + intros p q y z Hpq Hp Hq. by apply (H (S p) (S q)); [lia|..].
  - intros [Hx Hl] p q y z Hpq Hp Hq.
    destruct q as [|q]; [lia|]. simpl in Hq. destruct p as [|p]; simpl in Hp.
    + simplify_eq. rewrite Forall_forall in Hx. apply Hx.
      by eapply list_elem_of_lookup_2.
    + apply (Hl p q); [lia|done..].
Qed.

Lemma in_order_StronglySorted l : in_order l ↔ StronglySorted tag_le l.
Proof.
  induction l as [|x l IH].
  - split; [constructor|intros; apply in_order_nil].
  - rewrite in_order_cons, IH. split.
    + intros [? ?]. by constructor.
    + intros H. by inversion_clear H.
Qed.

#[global] Instance tag_le_dec : RelDecision tag_le.
Proof. intros x y. unfold tag_le. apply _. Defined.

#[global] Instance in_order_dec l : Decision (in_order l).
Proof.
  refine (cast_if (decide (StronglySorted tag_le l)));
    by rewrite in_order_StronglySorted.
Defined.

Lemma in_order_app l1 l2 :
  in_order (l1 ++ l2) ↔
  in_order l1 ∧ in_order l2 ∧ ∀ x y, x ∈ l1 → y ∈ l2 → tag_le x y.
Proof.
  induction l1 as [|x l1 IH]; simpl.
  - split; [|by intros (_ & ? & _)].
    intros H. split_and!; [apply in_order_nil | done |]. intros x y Hx. by apply elem_of_nil in Hx.
  - rewrite !in_order_cons, IH, Forall_app, !Forall_forall. split.
    + intros ((H1 & H2) & Hl1 & Hl2 & Hc). split_and!; [done..|].
      intros z y [->|Hz]%elem_of_cons Hy; [by apply H2|by apply Hc].
    + intros ((H1 & Hl1) & Hl2 & Hc). split_and!; [done | | done | done |].
      * intros y Hy. apply Hc; [left|done].
      * intros z y Hz Hy. apply Hc; [by right|done].
Qed.

Lemma in_order_Permutation_cross l1 l2 l1' l2' :
  in_order (l1 ++ l2) → l1' ≡ₚ l1 → l2' ≡ₚ l2 →
  ∀ x y, x ∈ l1' → y ∈ l2' → tag_le x y.
Proof.
  intros (_ & _ & Hc)%in_order_app H1 H2 x y Hx Hy.
  apply Hc; [by rewrite <- H1|by rewrite <- H2].
Qed.

(** Merging two sorted runs, the left one first on ties, keeps equal
    values in order. *)
Lemma list_merge_in_order l1 l2 :
  Sorted (le_val val) l1 → in_order (l1 ++ l2) →
  in_order (list_merge (le_val val) l1 l2).
Proof.
  revert l2. induction l1 as [|x1 l1 IH1]; intros l2.
  { intros _ H. by rewrite list_merge_nil_l. }
  induction l2 as [|x2 l2 IH2]; intros Hs1 Hin.
  { rewrite list_merge_nil_r. by rewrite app_nil_r in Hin. }
  rewrite list_merge_cons. destruct (decide (le_val val x1 x2)) as [Hle|Hgt].
  - simpl in Hin. apply in_order_cons in Hin as [Hx1 Hin].
    apply in_order_cons. split.
    + apply Forall_forall. intros y Hy. rewrite merge_Permutation in Hy.
      rewrite Forall_forall in Hx1. by apply Hx1.
    + apply IH1; [by inversion Hs1|done].
  - apply in_order_app in Hin as (Hl1 & Hl2 & Hc).
    apply in_order_cons in Hl2 as [Hx2 Hl2].
    apply in_order_cons. split.
    + apply Forall_forall. intros y Hy. rewrite merge_Permutation in Hy.
      apply elem_of_app in Hy as [Hy|Hy].
      * intros Heq. exfalso. apply Hgt. unfold le_val.
        apply Sorted_StronglySorted in Hs1; [|apply _].
        apply elem_of_cons in Hy as [->|Hy]; [lia|].
        apply StronglySorted_inv in Hs1 as [_ Hall].
        rewrite Forall_forall in Hall. specialize (Hall y Hy). unfold le_val in *. lia.
      * rewrite Forall_forall in Hx2. by apply Hx2.
    + apply IH2; [done|]. apply in_order_app. split_and!; [done | done |].
      intros x y Hx Hy. apply Hc; [done|by right].
Qed.
End InOrder.

Section Merge.
Context {A : Type} (val : A → Z).
Context (h0 : gmap loc (list A)) (a : loc) (n : nat).

Local Abbreviation St := (St h0 a).
Local Abbreviation trace_ok := (trace_ok h0 a n "Merge sort complete").
Local Abbreviation frame_ok := (frame_ok h0 a n "Merge sort complete").
Local Abbreviation set_in_range := (set_in_range n).
Local Abbreviation merged := (list_merge (le_val val)).

(** The comparing loop: [out] is what was placed so far, [i] and [j]
    the read cursors; what is placed and what remains to be merged
    always make up the merge of the two halves. *)
Lemma merge_compare_wp fuel (s m e : nat) left right (i j : nat) out l F gs :
  (i ≤ length left)%nat → (j ≤ length right)%nat → length out = (i + j)%nat →
  (s + length left + length right ≤ n)%nat → (m + 1 = s + length left)%nat →
  length l = n → (length left - i + (length right - j) < fuel)%nat →
  set_in_range F →
  wp (_merge_compare val fuel a (Z.of_nat s) (Z.of_nat m) (Z.of_nat e) left right
        (Z.of_nat i) (Z.of_nat j) (Z.of_nat (s + i + j)))
    (St (overwrite s out l) F gs)
    (λ r st', ∃ i' j' out' new,
       r = (Z.of_nat i', Z.of_nat j', Z.of_nat (s + i' + j')) ∧
       st' = St (overwrite s out' l) F (gs ++ new) ∧
       (i ≤ i' ≤ length left)%nat ∧ (j ≤ j' ≤ length right)%nat ∧
       length out' = (i' + j')%nat ∧
       (i' = length left ∨ j' = length right) ∧
       out' ++ merged (drop i' left) (drop j' right)
         = out ++ merged (drop i left) (drop j right) ∧
       trace_ok F new F ∧ length new = (2 * (length out' - length out))%nat).
Proof.
  revert i j out gs.
  induction fuel as [|fuel IH]; intros i j out gs Hi Hj Hout Hn Hm Hlen Hfuel HF; [lia|].
  simpl.
  destruct (Z.ltb_spec (Z.of_nat i) (Z.of_nat (length left))) as [Hil|Hil];
    [destruct (Z.ltb_spec (Z.of_nat j) (Z.of_nat (length right))) as [Hjl|Hjl]|]; simpl.
  - destruct (lookup_lt_is_Some_2 left i) as [x Hx]; [lia|].
    destruct (lookup_lt_is_Some_2 right j) as [y Hy]; [lia|].
    apply wp_bind, wp_yield_state.
    rewrite (py_getitem_nat left _ i), (py_getitem_nat right _ j), Hx, Hy by (done || lia).
    assert (length (overwrite s out l) = n) as Hlen' by (rewrite length_overwrite; lia).
    assert (merged (drop i left) (drop j right)
            = if decide (le_val val x y)
              then x :: merged (drop (S i) left) (drop j right)
              else y :: merged (drop i left) (drop (S j) right)) as Hmerge.
    { rewrite (drop_S left x i Hx), (drop_S right y j Hy), list_merge_cons.
      by destruct (decide (le_val val x y)). }
    set (f1 := snap h0 a (overwrite s out l) F
                 [(Z.of_nat (s + i + j), COMPARE); (Z.of_nat s + Z.of_nat i, COMPARE);
                  (Z.of_nat m + 1 + Z.of_nat j, COMPARE)]
                 ("Merging indices " +:+ pretty (Z.of_nat s) +:+ " to " +:+ pretty (Z.of_nat e))).
    assert (frame_ok F f1) as Hf1 by (subst f1; frame_ok_tac).
    destruct (Z.leb_spec (val x) (val y)) as [Hcmp|Hcmp].
    + apply wp_bind, wp_bind, (wp_store _ _ _ _ _ _ (s + length out)%nat); [lia | lia |].
      rewrite overwrite_snoc by lia.
      apply wp_ret, wp_bind, wp_yield_state. simpl.
      replace (Z.of_nat i + 1) with (Z.of_nat (S i)) by lia.
      replace (Z.of_nat (s + i + j) + 1) with (Z.of_nat (s + S i + j)) by lia.
      eapply wp_mono.
      { apply (IH (S i) j (out ++ [x])); [lia | lia | | lia | lia | done | lia | done].
        rewrite length_app. simpl. lia. }
      intros r st' (i' & j' & out' & new & -> & -> & Hi' & Hj' & Hout' & Hex & Heq & Htr & Hnew).
      rewrite decide_True in Hmerge by done.
      eexists i', j', out', (f1 :: _ :: new).
      split_and!; [done | by rewrite <- !app_assoc | lia | lia | lia | lia | done | done
                   | | |].
      * by rewrite Heq, Hmerge, <- app_assoc.
      * assert (length (overwrite s (out ++ [x]) l) = n)
          by (rewrite length_overwrite; rewrite ?length_app; simpl; lia).
        econstructor; [done | done |]. econstructor; [done | | done]. frame_ok_tac.
      * simpl. rewrite Hnew, length_app. simpl. lia.
    + apply wp_bind, wp_bind, (wp_store _ _ _ _ _ _ (s + length out)%nat); [lia | lia |].
      rewrite overwrite_snoc by lia.
      apply wp_ret, wp_bind, wp_yield_state. simpl.
      replace (Z.of_nat j + 1) with (Z.of_nat (S j)) by lia.
      replace (Z.of_nat (s + i + j) + 1) with (Z.of_nat (s + i + S j)) by lia.
      eapply wp_mono.
      { apply (IH i (S j) (out ++ [y])); [lia | lia | | lia | lia | done | lia | done].
        rewrite length_app. simpl. lia. }
      intros r st' (i' & j' & out' & new & -> & -> & Hi' & Hj' & Hout' & Hex & Heq & Htr & Hnew).
      rewrite decide_False in Hmerge by (unfold le_val; lia).
      eexists i', j', out', (f1 :: _ :: new).
      split_and!; [done | by rewrite <- !app_assoc | lia | lia | lia | lia | done | done
                   | | |].
      * by rewrite Heq, Hmerge, <- app_assoc.
      * assert (length (overwrite s (out ++ [y]) l) = n)
          by (rewrite length_overwrite; rewrite ?length_app; simpl; lia).
        econstructor; [done | done |]. econstructor; [done | | done]. frame_ok_tac.
      * simpl. rewrite Hnew, length_app. simpl. lia.
  - apply wp_ret. exists i, j, out, []. rewrite app_nil_r.
    split_and!; [done | done | lia | lia | lia | lia | done | right; lia | done
                | by constructor | simpl; lia].
  - apply wp_ret. exists i, j, out, []. rewrite app_nil_r.
    split_and!; [done | done | lia | lia | lia | lia | done | left; lia | done
                | by constructor | simpl; lia].
Qed.

(** A draining loop copies what is left of [src], one frame each. *)
Lemma merge_drain_wp fuel side src (i s : nat) out l F gs :
  (i ≤ length src)%nat → (s + length out + (length src - i) ≤ n)%nat →
  length l = n → (length src - i < fuel)%nat → set_in_range F →
  wp (_merge_drain fuel a side src (Z.of_nat i) (Z.of_nat (s + length out)))
    (St (overwrite s out l) F gs)
    (λ r st', ∃ new, r = Z.of_nat (s + length out + (length src - i)) ∧
       st' = St (overwrite s (out ++ drop i src) l) F (gs ++ new) ∧
       trace_ok F new F ∧ length new = (length src - i)%nat ∧
       Forall swap_frame new).
Proof.
  revert i out gs.
  induction fuel as [|fuel IH]; intros i out gs Hi Hn Hlen Hfuel HF; [lia|].
  simpl. destruct (Z.ltb_spec (Z.of_nat i) (Z.of_nat (length src))) as [Hil|Hil].
  - destruct (lookup_lt_is_Some_2 src i) as [x Hx]; [lia|].
    rewrite (py_getitem_nat src _ i), Hx by (done || lia).
    apply wp_bind, (wp_store _ _ _ _ _ _ (s + length out)%nat); [lia | |].
    { rewrite length_overwrite; lia. }
    rewrite overwrite_snoc by lia.
    apply wp_bind, wp_yield_state.
    replace (Z.of_nat i + 1) with (Z.of_nat (S i)) by lia.
    replace (Z.of_nat (s + length out) + 1)
      with (Z.of_nat (s + length (out ++ [x]))) by (rewrite length_app; simpl; lia).
    eapply wp_mono.
    { apply (IH (S i) (out ++ [x])); [lia | | done | lia | done].
      rewrite length_app. simpl. lia. }
    intros r st' (new & -> & -> & Htr & Hnew & Hswap).
    rewrite (drop_S src x i Hx).
    replace (out ++ x :: drop (S i) src) with ((out ++ [x]) ++ drop (S i) src)
      by (by rewrite <- app_assoc).
    eexists (_ :: new).
    split_and!; [ | by rewrite <- !app_assoc | | simpl; lia | ].
    + rewrite length_app. simpl. f_equal. lia.
    + econstructor; [done | | done].
      assert (length (overwrite s (out ++ [x]) l) = n).
      { rewrite length_overwrite; rewrite ?length_app; simpl; lia. }
      frame_ok_tac.
    + constructor; [|done]. eexists. simpl. unfold highlight_dict. simpl.
      by rewrite insert_empty.
  - apply wp_ret. exists []. rewrite drop_ge, !app_nil_r by lia.
    split_and!; [f_equal; lia | done | by constructor | simpl; lia | done].
Qed.

(** The frame that closes a merge of the positions [s .. e]. *)
Definition segment_frame (s e : nat) (l : list A) (F : gset Z) : Frame A :=
  snap h0 a l (list_to_set (range (Z.of_nat s) (Z.of_nat e + 1)) ∪ F)
    ((λ idx, (idx, SORTED)) <$> range (Z.of_nat s) (Z.of_nat e + 1))
    ("Segment " +:+ pretty (Z.of_nat s) +:+ ":" +:+ pretty (Z.of_nat e) +:+ " sorted").

Lemma segment_frame_ok (s e : nat) l F :
  (s ≤ e)%nat → (e < n)%nat → length l = n → set_in_range F →
  frame_ok (list_to_set (range (Z.of_nat s) (Z.of_nat e + 1)) ∪ F) (segment_frame s e l F).
Proof.
  intros Hs He Hlen HF. eexists _, _, _. split; [reflexivity|].
  split_and!; [done | | | desc_neq |].
  - apply Forall_fmap, Forall_forall. intros k Hk%elem_of_range. simpl. lia.
  - rewrite range_cons by lia. done.
  - intros k. rewrite elem_of_union, elem_of_range_to_set. intros [?|?%HF]; lia.
Qed.

(** [_merge] writes the merge of the two halves over [s .. e]: a
    comparing phase of two frames per placement, then the two draining
    phases of one single-cell frame per copied value, then the frame
    that finalizes the whole range. *)
Lemma merge_wp fuel (s m e : nat) l F gs :
  (s ≤ m)%nat → (m < e)%nat → (e < n)%nat → length l = n → set_in_range F →
  (e + 1 - s < fuel)%nat →
  wp (_merge val fuel a (Z.of_nat s) (Z.of_nat m) (Z.of_nat e)) (St l F gs)
    (λ _ st', ∃ cmp drainl drainr (i j : nat),
       let left := take (m + 1 - s) (drop s l) in
       let right := take (e - m) (drop (m + 1) l) in
       let l' := overwrite s (merged left right) l in
       st' = St l' (list_to_set (range (Z.of_nat s) (Z.of_nat e + 1)) ∪ F)
               (gs ++ cmp ++ drainl ++ drainr ++ [segment_frame s e l' F]) ∧
       trace_ok F (cmp ++ drainl ++ drainr) F ∧
       (i ≤ length left)%nat ∧ (j ≤ length right)%nat ∧
       (i = length left ∨ j = length right) ∧
       length cmp = (2 * (i + j))%nat ∧
       length drainl = (length left - i)%nat ∧ Forall swap_frame drainl ∧
       length drainr = (length right - j)%nat ∧ Forall swap_frame drainr).
Proof.
  intros Hs Hm He Hlen HF Hfuel. unfold _merge.
  replace (Z.of_nat m + 1) with (Z.of_nat (m + 1)) by lia.
  replace (Z.of_nat e + 1) with (Z.of_nat (e + 1)) by lia.
  apply wp_bind, wp_slice. rewrite py_slice_nat by lia.
  apply wp_bind, wp_slice. rewrite py_slice_nat by lia.
  replace (e + 1 - (m + 1))%nat with (e - m)%nat by lia.
  set (left := take (m + 1 - s) (drop s l)).
  set (right := take (e - m) (drop (m + 1) l)).
  assert (length left = (m + 1 - s)%nat) as Hll.
  { unfold left. rewrite length_take, length_drop. lia. }
  assert (length right = (e - m)%nat) as Hlr.
  { unfold right. rewrite length_take, length_drop. lia. }
  apply wp_bind.
  change 0 with (Z.of_nat 0).
  replace (Z.of_nat s) with (Z.of_nat (s + 0 + 0)) at 2 by (f_equal; lia).
  rewrite <- (overwrite_nil s l) at 1.
  eapply wp_mono.
  { apply (merge_compare_wp fuel s m e left right 0 0 []);
      [lia | lia | done | lia | lia | done | lia | done]. }
  intros r st1 (i & j & out & cmp & -> & -> & Hi & Hj & Hout & Hex & Heq & Htr1 & Hcmp).
  simpl in Heq, Hcmp. rewrite !drop_0 in Heq.
  simpl. apply wp_bind.
  replace (s + i + j)%nat with (s + length out)%nat by lia.
  eapply wp_mono.
  { apply (merge_drain_wp fuel "left" left i s out); [lia | lia | done | lia | done]. }
  intros r st2 (drainl & -> & -> & Htr2 & Hdl & Hsl).
  apply wp_bind.
  replace (s + length out + (length left - i))%nat
    with (s + length (out ++ drop i left))%nat
    by (rewrite length_app, length_drop; lia).
  eapply wp_mono.
  { apply (merge_drain_wp fuel "right" right j s (out ++ drop i left));
      [lia | | done | lia | done].
    rewrite length_app, length_drop. lia. }
  intros r st3 (drainr & -> & -> & Htr3 & Hdr & Hsr).
  assert ((out ++ drop i left) ++ drop j right = merged left right) as Hfinal.
  { rewrite <- Heq. destruct Hex as [->| ->].
    - by rewrite drop_all, list_merge_nil_l, app_nil_r.
    - by rewrite (drop_all right), list_merge_nil_r, app_nil_r. }
  rewrite Hfinal.
  apply wp_bind, wp_set_update_range, wp_yield_state.
  replace (Z.of_nat (e + 1)) with (Z.of_nat e + 1) by lia.
  exists cmp, drainl, drainr, i, j. simpl.
  split_and!; [by rewrite <- !app_assoc | | lia | lia | lia | lia | lia | done | lia | done].
  eapply trace_ok_app; [done|]. eapply trace_ok_app; done.
Qed.

Lemma merge_sort_rec_wp fuel (s e : nat) l F gs :
  (s ≤ e)%nat → (e < n)%nat → (e - s < fuel)%nat → length l = n → set_in_range F →
  wp (_merge_sort val fuel a (Z.of_nat s) (Z.of_nat e)) (St l F gs)
    (λ _ st', ∃ seg new,
       st' = St (overwrite s seg l)
               (list_to_set (range (Z.of_nat s) (Z.of_nat e + 1)) ∪ F) (gs ++ new) ∧
       length seg = (e + 1 - s)%nat ∧ seg ≡ₚ take (e + 1 - s) (drop s l) ∧
       Sorted (le_val val) seg ∧
       trace_ok F new (list_to_set (range (Z.of_nat s) (Z.of_nat e + 1)) ∪ F) ∧
       (∀ tag, in_order val tag (take (e + 1 - s) (drop s l)) → in_order val tag seg)).
Proof.
  revert s e l F gs.
  induction fuel as [|fuel IH]; intros s e l F gs Hs He Hfuel Hlen HF; [lia|].
  simpl. destruct (Z.geb_spec (Z.of_nat s) (Z.of_nat e)) as [Hge|Hlt].
  - assert (e = s) as -> by lia.
    apply wp_bind, wp_set_add, wp_yield_state.
    assert ({[Z.of_nat s]} ∪ F
            = list_to_set (range (Z.of_nat s) (Z.of_nat s + 1)) ∪ F) as HF'.
    { apply set_eq. intros k.
      rewrite !elem_of_union, elem_of_singleton, elem_of_range_to_set.
      naive_solver lia. }
    rewrite HF'.
    destruct (lookup_lt_is_Some_2 l s) as [x Hx]; [lia|].
    assert (take (s + 1 - s) (drop s l) = [x]) as Hseg.
    { replace (s + 1 - s)%nat with 1%nat by lia.
      by rewrite (drop_S l x s Hx). }
    eexists [x], [_]. split_and!.
    + by rewrite <- Hseg, overwrite_id by lia.
    + simpl. lia.
    + by rewrite Hseg.
    + repeat constructor.
    + eapply trace_ok_pre; cycle 1; [apply trace_ok_one|set_solver].
      frame_ok_tac. intros k.
      rewrite elem_of_union, elem_of_range_to_set. intros [?|?%HF]; lia.
    + intros tag. by rewrite Hseg.
  - set (m := ((s + e) / 2)%nat).
    assert ((Z.of_nat s + Z.of_nat e) `div` 2 = Z.of_nat m) as ->.
    { unfold m. rewrite Nat2Z.inj_div. f_equal. lia. }
    assert (s ≤ m ∧ m < e)%nat as [Hsm Hme].
    { unfold m. split.
      - apply Nat.div_le_lower_bound; lia.
      - apply Nat.Div0.div_lt_upper_bound; lia. }
    (* left half *)
    apply wp_bind. eapply wp_mono; [apply (IH s m l F); [lia | lia | lia | done | done]|].
    intros [] st1 (seg1 & new1 & -> & Hlen1 & Hperm1 & Hsort1 & Htr1 & Hord1).
    set (F1 := list_to_set (range (Z.of_nat s) (Z.of_nat m + 1)) ∪ F) in *.
    assert (set_in_range F1) as HF1.
    { intros k. unfold F1. rewrite elem_of_union, elem_of_range_to_set.
      intros [?|?%HF]; lia. }
    assert (length (overwrite s seg1 l) = n) as Hlen1'
      by (rewrite length_overwrite; lia).
    (* right half *)
    replace (Z.of_nat m + 1) with (Z.of_nat (m + 1)) at 1 by lia.
    apply wp_bind. eapply wp_mono.
    { apply (IH (m + 1)%nat e (overwrite s seg1 l) F1); [lia | lia | lia | done | done]. }
    intros [] st2 (seg2 & new2 & -> & Hlen2 & Hperm2 & Hsort2 & Htr2 & Hord2).
    set (F2 := list_to_set (range (Z.of_nat (m + 1)) (Z.of_nat e + 1)) ∪ F1) in *.
    assert (set_in_range F2) as HF2.
    { intros k. unfold F2. rewrite elem_of_union, elem_of_range_to_set.
      intros [?|?%HF1]; lia. }
    rewrite overwrite_drop_after in Hperm2, Hord2 by lia.
    assert (take (e + 1 - s) (drop s l)
            = take (m + 1 - s) (drop s l) ++ take (e + 1 - (m + 1)) (drop (m + 1) l))
      as Hsplit.
    { replace (drop (m + 1) l) with (drop (m + 1 - s) (drop s l))
        by (rewrite drop_drop; f_equal; lia).
      rewrite take_take_drop. f_equal. lia. }
    assert (overwrite (m + 1) seg2 (overwrite s seg1 l)
            = overwrite s (seg1 ++ seg2) l) as ->.
    { replace (m + 1)%nat with (s + length seg1)%nat by lia.
      apply overwrite_app. lia. }
    set (l2 := overwrite s (seg1 ++ seg2) l).
    assert (length l2 = n) as Hlen2'.
    { unfold l2. rewrite length_overwrite; rewrite ?length_app; lia. }
    (* merge *)
    eapply wp_mono.
    { apply (merge_wp _ s m e l2 F2); [lia | lia | lia | done | done |].
      unfold fuel_for. lia. }
    intros [] st3 (cmp & drainl & drainr & i & j & Hst & Htr3 & _).
    simpl in Hst.
    assert (take (m + 1 - s) (drop s l2) = seg1) as Hleft.
    { replace (m + 1 - s)%nat with (length seg1) by lia.
      apply overwrite_take_left. rewrite length_app. lia. }
    assert (take (e - m) (drop (m + 1) l2) = seg2) as Hright.
    { replace (e - m)%nat with (length seg2) by lia.
      replace (m + 1)%nat with (s + length seg1)%nat by lia.
      apply overwrite_take_right. rewrite length_app. lia. }
    rewrite Hleft, Hright in Hst.
    assert (length (merged seg1 seg2) = length (seg1 ++ seg2)) as Hlenm.
    { apply Permutation_length, merge_Permutation. }
    unfold l2 in Hst. rewrite overwrite_overwrite in Hst
      by (rewrite ?Hlenm, ?length_app; lia).
    assert (list_to_set (range (Z.of_nat s) (Z.of_nat e + 1)) ∪ F2
            = list_to_set (range (Z.of_nat s) (Z.of_nat e + 1)) ∪ F) as HF3.
    { apply set_eq. intros k. unfold F2, F1.
      rewrite !elem_of_union, !elem_of_range_to_set. naive_solver lia. }
    pose proof (segment_frame_ok s e (overwrite s (merged seg1 seg2) l) F2) as Hfin.
    unfold segment_frame in Hst, Hfin. rewrite HF3 in Hst, Hfin. subst st3.
    eexists (merged seg1 seg2), (new1 ++ new2 ++ cmp ++ drainl ++ drainr ++ [_]).
    split_and!.
    + by rewrite <- !app_assoc.
    + rewrite Hlenm, length_app. lia.
    + rewrite merge_Permutation, Hperm1, Hperm2.
      replace (e + 1 - (m + 1))%nat with (e - m)%nat by lia.
      replace (m + 1)%nat with (s + (m + 1 - s))%nat at 2 by lia.
      rewrite <- drop_drop, take_take_drop. by replace (m + 1 - s + (e - m))%nat
        with (e + 1 - s)%nat by lia.
    + by apply Sorted_list_merge; [apply _|..].
    + eapply trace_ok_app; [done|].
      eapply trace_ok_app; [done|].
      rewrite !app_assoc. apply trace_ok_snoc.
      * rewrite <- !app_assoc. eapply trace_ok_grow; [done|]. rewrite <- HF3. set_solver.
      * apply Hfin; [lia | lia | | done].
        rewrite length_overwrite; rewrite ?Hlenm, ?length_app; lia.
    + intros tag Hin. rewrite Hsplit in Hin.
      apply list_merge_in_order; [done|].
      pose proof Hin as (Hin1 & Hin2 & _)%in_order_app.
      apply in_order_app. split_and!; [by apply Hord1 | by apply Hord2 |].
      by eapply in_order_Permutation_cross.
Qed.

Lemma merge_sort_run d xs :
  h0 !! d = Some xs → a = fresh (dom h0) → n = length xs →
  run_spec val "Merge sort complete"
    (λ l' _, ∀ tag, in_order val tag xs → in_order val tag l') h0 xs
    (run (merge_sort val) h0 d).
Proof.
  intros Hd Ha Hn. apply wp_run_spec. rewrite <- Ha, <- Hn. unfold merge_sort.
  apply wp_bind, (wp_list_copy _ _ xs); [done|]. rewrite <- Ha.
  apply wp_bind, wp_new_set, wp_bind, wp_len, wp_bind. rewrite <- Hn.
  destruct (Z.ltb_spec 0 (Z.of_nat n)) as [Hpos|Hzero].
  - change 0 with (Z.of_nat 0).
    replace (Z.of_nat n - 1) with (Z.of_nat (n - 1)) by lia.
    eapply wp_mono.
    { apply (merge_sort_rec_wp _ 0 (n - 1) xs ∅ []); [lia | lia | | done | done].
      unfold fuel_for. lia. }
    intros [] st (seg & gs & -> & Hlen & Hperm & Hsort & Htr & Hord).
    assert (overwrite 0 seg xs = seg) as Hseg.
    { unfold overwrite. rewrite take_0, drop_ge, app_nil_r by lia. done. }
    rewrite Hseg. apply wp_yield_complete. simpl.
    replace (length seg) with n by lia.
    eexists seg, _, gs. split_and!; [done | lia | | | done | |].
    + rewrite Hperm, drop_0. by rewrite take_ge by lia.
    + by apply Sorted_nondecreasing.
    + intros k. rewrite elem_of_union, elem_of_range_to_set. set_solver by lia.
    + intros tag Hin. apply Hord. rewrite drop_0. by rewrite take_ge by lia.
  - apply wp_ret, wp_yield_complete.
    exists xs, ∅, []. rewrite <- Hn.
    split_and!; [done | done | done | | by constructor | done | done].
    intros p q x y Hpq Hx Hy. apply lookup_lt_Some in Hy. lia.
Qed.
End Merge.

(** ** The step model's normalisations *)

Section StepModel.
Lemma Sorted_seqZ m n : Sorted Z.le (seqZ m n).
Proof.
  remember (Z.to_nat n) as k eqn:Hk. revert m n Hk.
  induction k as [|k IH]; intros m n Hk.
  - rewrite seqZ_nil by lia. constructor.
  - rewrite seqZ_cons by lia. constructor; [apply IH; lia|].
    destruct (decide (0 < Z.pred n)) as [Hpos|Hneg].
    + rewrite seqZ_cons by lia. constructor. lia.
    + rewrite seqZ_nil by lia. constructor.
Qed.

(** The finalized indices of a snapshot are in ascending order, without
    repetition. *)
Lemma sorted_tuple_ascending (F : gset Z) : StronglySorted Z.lt (sorted_tuple F).
Proof.
  unfold sorted_tuple.
  assert (NoDup (sorting.merge_sort Z.le (elements F))) as Hnd.
  { rewrite merge_sort_Permutation. apply NoDup_elements. }
  pose proof (StronglySorted_merge_sort Z.le (elements F)) as Hs.
  induction Hs as [|x l Hs IH Hall]; constructor.
  - apply IH. by apply NoDup_cons in Hnd as [_ ?].
  - apply NoDup_cons in Hnd as [Hx _].
    rewrite Forall_forall in Hall |- *. intros y Hy.
    specialize (Hall y Hy). assert (x ≠ y) by (by intros ->). lia.
Qed.

Lemma length_sorted_tuple (F : gset Z) : length (sorted_tuple F) = size F.
Proof. unfold sorted_tuple. by rewrite merge_sort_Permutation. Qed.

Lemma sorted_tuple_range_set n : sorted_tuple (range_set n) = seqZ 0 n.
Proof.
  apply (Sorted_unique Z.le).
  - apply Sorted_merge_sort, _.
  - apply Sorted_seqZ.
  - unfold sorted_tuple, range_set. rewrite merge_sort_Permutation.
    apply elements_list_to_set, NoDup_seqZ.
Qed.

Lemma dom_highlight_dict hl k :
  k ∈ dom (highlight_dict hl) ↔ k ∈ hl.*1.
Proof.
  unfold highlight_dict.
  assert (∀ m : gmap Z HighlightType,
            k ∈ dom (foldl (λ m p, <[p.1 := p.2]> m) m hl) ↔ k ∈ dom m ∨ k ∈ hl.*1) as H.
  { induction hl as [|[i c] hl IH]; intros m; simpl.
    - rewrite elem_of_nil. naive_solver.
    - rewrite IH, dom_insert, elem_of_union, elem_of_singleton, elem_of_cons.
      naive_solver. }
  rewrite H, dom_empty. set_solver.
Qed.
End StepModel.

(** ** The five engines *)

Inductive algorithm := Bubble | Insertion | Selection | Quick | Merge.

Definition algorithm_name (alg : algorithm) : string :=
  match alg with
  | Bubble => "Bubble"
  | Insertion => "Insertion"
  | Selection => "Selection"
  | Quick => "Quick"
  | Merge => "Merge"
  end.

(** The description of an engine's last snapshot. *)
Definition completion (alg : algorithm) : string :=
  algorithm_name alg +:+ " sort complete".

Definition engine {A} (val : A → Z) (alg : algorithm) : loc → M A unit :=
  match alg with
  | Bubble => bubble_sort val
  | Insertion => insertion_sort val
  | Selection => selection_sort val
  | Quick => quick_sort val
  | Merge => merge_sort val
  end.

Section AllEngines.
Context {A : Type} (val : A → Z).

Lemma run_spec_mono done_ (P Q : list A → list (Frame A) → Prop) h xs res :
  run_spec val done_ P h xs res → (∀ l gs, P l gs → Q l gs) →
  run_spec val done_ Q h xs res.
Proof.
  intros (l' & F & gs & ? & ? & ? & ? & ? & ? & ?) HPQ.
  exists l', F, gs. split_and!; auto.
Qed.

(** Every engine, from every store, on every input. *)
Lemma engine_run alg h d xs :
  h !! d = Some xs →
  run_spec val (completion alg)
    (λ l' gs, (alg ≠ Merge → early_unfinished (length xs) gs) ∧
              (alg ≠ Insertion → alg ≠ Merge → settled l' gs)) h xs
    (run (engine val alg) h d).
Proof.
  intros Hd. destruct alg; simpl.
  - eapply run_spec_mono; [by eapply bubble_sort_run|]. naive_solver.
  - eapply run_spec_mono; [by eapply insertion_sort_run|]. naive_solver.
  - eapply run_spec_mono; [by eapply selection_sort_run|]. naive_solver.
  - eapply run_spec_mono; [by eapply quick_sort_run|]. naive_solver.
  - eapply run_spec_mono; [by eapply merge_sort_run|]. naive_solver.
Qed.
End AllEngines.

(** ** Properties of complete runs *)

Section Runs.
Context {A : Type} (val : A → Z).

(** The snapshot sequence of a run on input [xs]: intermediate frames
    [gs], then the completion snapshot over the final array [l']. *)
Lemma snapshots_run alg xs :
  let h := caller_store xs in
  let a := fresh (dom h) in
  let n := length xs in
  ∃ l' F gs,
    snapshots (engine val alg) xs
      = Some ((snapshot <$> gs) ++ [_state l' [] (range_set (Z.of_nat n)) (completion alg)]) ∧
    length l' = n ∧ l' ≡ₚ xs ∧ nondecreasing val l' ∧
    trace_ok h a n (completion alg) ∅ gs F ∧ set_in_range n F ∧
    (alg ≠ Merge → early_unfinished n gs) ∧
    (alg ≠ Insertion → alg ≠ Merge → settled l' gs).
Proof.
  intros h a n.
  destruct (engine_run val alg h 0%nat xs) as (l' & F & gs & Hrun & Hrest).
  { apply lookup_singleton_eq. }
  exists l', F, gs. split; [|done].
  unfold snapshots. fold h. rewrite Hrun. simpl. by rewrite fmap_app.
Qed.
End Runs.

(** C1. For every input and each of the five engines, the last snapshot
    holds a non-decreasing array that is a permutation of the input, and
    its finalized indices are exactly [0 .. n-1]. *)
Theorem final_snapshot_sorted {A} (val : A → Z) (alg : algorithm) (xs : list A) :
  ∃ tr s, snapshots (engine val alg) xs = Some tr ∧ last tr = Some s ∧
    Sorted (le_val val) (array s) ∧ array s ≡ₚ xs ∧
    sorted_indices s = seqZ 0 (Z.of_nat (length xs)).
Proof.
  destruct (snapshots_run val alg xs) as (l' & F & gs & Hsn & Hlen & Hperm & Hnd & _).
  eexists _, _. split; [exact Hsn|]. rewrite last_snoc. split; [done|]. simpl.
  split_and!; [by apply nondecreasing_Sorted | done | apply sorted_tuple_range_set].
Qed.

(** C4. The caller's sequence, and every other list of the caller's
    store, is the same at every yield and when the run completes: the
    engine works on a list of its own, at a location that did not exist
    before, and each snapshot shows the content of that list. *)
Theorem input_not_mutated {A} (val : A → Z) (alg : algorithm)
    (h : gmap loc (list A)) (d : loc) (xs : list A) :
  h !! d = Some xs →
  ∃ st, run (engine val alg) h d = Ok tt st ∧
    heap st !! d = Some xs ∧
    Forall (λ f, store_at f !! d = Some xs) (yielded st) ∧
    (∀ c ys, h !! c = Some ys →
       heap st !! c = Some ys ∧ Forall (λ f, store_at f !! c = Some ys) (yielded st)) ∧
    h !! fresh (dom h) = None ∧
    Forall (λ f, store_at f !! fresh (dom h) = Some (array (snapshot f))) (yielded st).
Proof.
  intros Hd.
  destruct (engine_run val alg h d xs Hd) as (l' & F & gs & Hrun & _ & _ & _ & Htr & _).
  set (a := fresh (dom h)) in *.
  assert (h !! a = None) as Ha by apply not_elem_of_dom, is_fresh.
  assert (∀ f, f ∈ gs ++ [snap h a l' (range_set (Z.of_nat (length xs))) [] (completion alg)] →
            ∃ l, store_at f = <[a := l]> h ∧ array (snapshot f) = l) as Hframes.
  { intros f [Hf|Hf%list_elem_of_singleton]%elem_of_app.
    - destruct (trace_ok_elem _ _ _ _ _ _ _ _ Htr Hf) as (T & _ & _ & l & hl & dsc & -> & _).
      by exists l.
    - subst f. by exists l'. }
  assert (∀ c ys, h !! c = Some ys →
            heap (St h a l' F (gs ++ [snap h a l' (range_set (Z.of_nat (length xs))) []
                                        (completion alg)])) !! c = Some ys ∧
            Forall (λ f, store_at f !! c = Some ys)
              (gs ++ [snap h a l' (range_set (Z.of_nat (length xs))) [] (completion alg)]))
    as Hkeep.
  { intros c ys Hc. assert (a ≠ c) by congruence. split.
    - simpl. by rewrite lookup_insert_ne.
    - apply Forall_forall. intros f Hf. destruct (Hframes f Hf) as (l & -> & _).
      by rewrite lookup_insert_ne. }
  eexists. split; [exact Hrun|].
  split_and!; [by apply Hkeep | by apply Hkeep | done | done |].
  apply Forall_forall. intros f Hf. destruct (Hframes f Hf) as (l & -> & ->).
  apply lookup_insert_eq.
Qed.

Lemma input_not_mutated_witness :
  caller_store [3; 1; 2] !! 0%nat = Some [3; 1; 2] ∧
  ∃ st, run (engine id Bubble) (caller_store [3; 1; 2]) 0%nat = Ok tt st ∧
    heap st !! 0%nat = Some [3; 1; 2] ∧
    Forall (λ f, store_at f !! 0%nat = Some [3; 1; 2]) (yielded st) ∧
    (∀ c ys, caller_store [3; 1; 2] !! c = Some ys →
       heap st !! c = Some ys ∧ Forall (λ f, store_at f !! c = Some ys) (yielded st)) ∧
    caller_store [3; 1; 2] !! fresh (dom (caller_store [3; 1; 2])) = None ∧
    Forall (λ f, store_at f !! fresh (dom (caller_store [3; 1; 2]))
                 = Some (array (snapshot f))) (yielded st).
Proof.
  split; [reflexivity|].
  apply (input_not_mutated id Bubble (caller_store [3; 1; 2]) 0%nat [3; 1; 2]).
  reflexivity.
Defined.

(** What the frames of a well-formed trace look like from outside. *)
Lemma frame_ok_snapshot {A} (h0 : gmap loc (list A)) a n done_ F (f : Frame A) :
  frame_ok h0 a n done_ F f →
  length (array (snapshot f)) = n ∧
  (∀ k, k ∈ dom (highlights (snapshot f)) → 0 ≤ k < Z.of_nat n) ∧
  highlights (snapshot f) ≠ ∅ ∧
  sorted_indices (snapshot f) = sorted_tuple F ∧
  description (snapshot f) ≠ done_ ∧
  set_in_range n F.
Proof.
  intros (l & hl & d & -> & Hlen & Hhl & Hne & Hd & HF). simpl.
  split_and!; [done | | | done | done | done].
  - intros k Hk%dom_highlight_dict.
    apply list_elem_of_fmap in Hk as (p & -> & Hp).
    rewrite Forall_forall in Hhl. by apply Hhl.
  - destruct hl as [|[k c] hl]; [done|]. intros Hempty.
    assert (k ∈ dom (highlight_dict ((k, c) :: hl))) as Hk.
    { apply dom_highlight_dict. simpl. left. }
    rewrite Hempty, dom_empty in Hk. set_solver.
Qed.

(** C7. On the empty input every engine yields exactly one snapshot, the
    completion snapshot with an empty array and no finalized index; on
    [[7]] its last snapshot is the completion snapshot with array [[7]]
    and finalized indices [{0}]; on every input it yields at least one
    snapshot. *)
Theorem empty_and_singleton_runs (alg : algorithm) :
  snapshots (engine id alg) [] = Some [mkSortState [] ∅ [] (completion alg)] ∧
  (∃ tr, snapshots (engine id alg) [7] = Some tr ∧
         last tr = Some (mkSortState [7] ∅ [0] (completion alg))) ∧
  (∀ (A : Type) (val : A → Z) (xs : list A),
     ∃ tr s, snapshots (engine val alg) xs = Some (tr ++ [s])).
Proof.
  split_and!.
  - destruct alg; vm_compute; reflexivity.
  - destruct alg; eexists; (split; [vm_compute; reflexivity|reflexivity]).
  - intros A val xs.
    destruct (snapshots_run val alg xs) as (l' & F & gs & Hsn & _).
    eauto.
Qed.

(** C9. The last snapshot of every run is the completion snapshot: its
    description is the algorithm's name followed by " sort complete", it
    highlights nothing and its finalized indices cover the whole array;
    no snapshot before it carries that description, and each of them
    highlights something. *)
Theorem completion_snapshot_last {A} (val : A → Z) (alg : algorithm) (xs : list A) :
  ∃ tr s, snapshots (engine val alg) xs = Some (tr ++ [s]) ∧
    description s = algorithm_name alg +:+ " sort complete" ∧
    highlights s = ∅ ∧
    sorted_indices s = seqZ 0 (Z.of_nat (length xs)) ∧
    Forall (λ s', description s' ≠ description s ∧ highlights s' ≠ highlights s) tr.
Proof.
  destruct (snapshots_run val alg xs) as (l' & F & gs & Hsn & _ & _ & _ & Htr & _).
  eexists _, _. split; [exact Hsn|]. simpl.
  split_and!; [done | done | apply sorted_tuple_range_set |].
  apply Forall_fmap, Forall_forall. intros f Hf.
  destruct (trace_ok_elem _ _ _ _ _ _ _ _ Htr Hf) as (T & _ & _ & Hok).
  apply frame_ok_snapshot in Hok as (_ & _ & Hhl & _ & Hd & _). done.
Qed.

(** C10. In every snapshot of every run the array has the length of the
    input, the highlighted indices and the finalized indices are
    positions of the array, and the finalized indices are listed in
    strictly ascending order. *)
Theorem snapshot_indices_valid {A} (val : A → Z) (alg : algorithm) (xs : list A) :
  ∃ tr, snapshots (engine val alg) xs = Some tr ∧
    Forall (λ s,
      length (array s) = length xs ∧
      (∀ k, k ∈ dom (highlights s) → 0 ≤ k < Z.of_nat (length xs)) ∧
      (∀ k, k ∈ sorted_indices s → 0 ≤ k < Z.of_nat (length xs)) ∧
      StronglySorted Z.lt (sorted_indices s)) tr.
Proof.
  destruct (snapshots_run val alg xs) as (l' & F & gs & Hsn & Hlen & _ & _ & Htr & _).
  eexists. split; [exact Hsn|].
  apply Forall_app. split.
  - apply Forall_fmap, Forall_forall. intros f Hf.
    destruct (trace_ok_elem _ _ _ _ _ _ _ _ Htr Hf) as (T & _ & _ & Hok).
    apply frame_ok_snapshot in Hok as (Hl & Hhl & _ & Hsi & _ & HT). simpl.
    rewrite Hsi. split_and!; [done | done | | apply sorted_tuple_ascending].
    intros k Hk%elem_of_sorted_tuple. by apply HT.
  - apply Forall_singleton. simpl.
    split_and!; [done | | | apply sorted_tuple_ascending].
    + intros k. unfold highlight_dict. simpl. rewrite dom_empty. set_solver.
    + intros k Hk%elem_of_sorted_tuple. by apply elem_of_range_set in Hk.
Qed.

(** The normalisation done by [_state] itself, whatever it is given. *)
Lemma _state_sorted_indices {A} (l : list A) hl (F : gset Z) d :
  StronglySorted Z.lt (sorted_indices (_state l hl F d)) ∧
  ∀ k, k ∈ sorted_indices (_state l hl F d) ↔ k ∈ F.
Proof. split; [apply sorted_tuple_ascending | intros k; apply elem_of_sorted_tuple]. Qed.

(** C8. Bubble sort on [[5, 1]]: the pair is first shown as compared, in
    a snapshot of its own, then as swapped; the run ends with [[1, 5]]
    and both indices finalized. *)
Theorem bubble_sort_two_elements :
  snapshots (bubble_sort id) [5; 1] = Some
    [ mkSortState [5; 1] (highlight_dict [(0, COMPARE); (1, COMPARE)]) []
        "Comparing indices 0 and 1";
      mkSortState [1; 5] (highlight_dict [(0, SWAP); (1, SWAP)]) []
        "Swapped indices 0 and 1";
      mkSortState [1; 5] (highlight_dict [(1, SORTED)]) [1] "Position 1 is sorted";
      mkSortState [1; 5] (highlight_dict [(0, SORTED)]) [0; 1] "Position 0 is sorted";
      mkSortState [1; 5] ∅ [0; 1] "Bubble sort complete" ].
Proof. vm_compute. reflexivity. Qed.

(** ** Finalized indices along a run *)

(** X1. In every run the finalized indices of a snapshot are among those of
    every later snapshot, so their number never decreases. *)
Theorem finalized_grows {A} (val : A → Z) (alg : algorithm) (xs : list A) :
  ∃ tr, snapshots (engine val alg) xs = Some tr ∧
    ∀ i j s s', (i < j)%nat → tr !! i = Some s → tr !! j = Some s' →
      (∀ k, k ∈ sorted_indices s → k ∈ sorted_indices s') ∧
      (length (sorted_indices s) ≤ length (sorted_indices s'))%nat.
Proof.
  destruct (snapshots_run val alg xs) as (l' & F & gs & Hsn & _ & _ & _ & Htr & HF & _).
  eexists. split; [exact Hsn|].
  intros i j s s' Hij Hi Hj.
  assert (∃ T T' : gset Z, sorted_indices s = sorted_tuple T ∧
            sorted_indices s' = sorted_tuple T' ∧ T ⊆ T') as (T & T' & -> & -> & Hsub).
  { assert (i < length gs)%nat as Hilt.
    { apply lookup_lt_Some in Hj. rewrite length_app, length_fmap in Hj. simpl in Hj. lia. }
    rewrite lookup_app_l in Hi by (by rewrite length_fmap).
    apply list_lookup_fmap_Some in Hi as (f & -> & Hf).
    destruct (decide (j < length gs)%nat) as [Hjlt|Hjge].
    - rewrite lookup_app_l in Hj by (by rewrite length_fmap).
      apply list_lookup_fmap_Some in Hj as (f' & -> & Hf').
      destruct (trace_ok_lookup _ _ _ _ _ _ _ i j f f' Htr Hij Hf Hf')
        as (T & T' & Hok & Hok' & _ & Hsub & _).
      apply frame_ok_snapshot in Hok as (_ & _ & _ & Hsi & _).
      apply frame_ok_snapshot in Hok' as (_ & _ & _ & Hsi' & _).
      by exists T, T'.
    - rewrite lookup_app_r in Hj by (rewrite length_fmap; lia).
      apply list_lookup_singleton_Some in Hj as [_ <-].
      apply list_elem_of_lookup_2 in Hf.
      destruct (trace_ok_elem _ _ _ _ _ _ _ _ Htr Hf) as (T & _ & _ & Hok).
      apply frame_ok_snapshot in Hok as (_ & _ & _ & Hsi & _ & HT).
      exists T, (range_set (Z.of_nat (length xs))). split_and!; [done | done |].
      intros k Hk. apply elem_of_range_set. by apply HT. }
  split.
  - intros k. rewrite !elem_of_sorted_tuple. apply Hsub.
  - rewrite !length_sorted_tuple. by apply subseteq_size.
Qed.

(** X3. Bubble, insertion, selection and quick sort show every index
    finalized only in their last two snapshots: the one of the engine's
    last step and the completion snapshot. *)
Theorem full_coverage_at_end {A} (val : A → Z) (alg : algorithm) (xs : list A) :
  alg ≠ Merge →
  ∃ tr, snapshots (engine val alg) xs = Some tr ∧
    ∀ i s, tr !! i = Some s →
      sorted_indices s = seqZ 0 (Z.of_nat (length xs)) → (length tr ≤ i + 2)%nat.
Proof.
  intros Halg.
  destruct (snapshots_run val alg xs)
    as (l' & F & gs & Hsn & _ & _ & _ & _ & _ & Hearly & _).
  specialize (Hearly Halg).
  eexists. split; [exact Hsn|].
  intros i s Hi Hfull. rewrite length_app, length_fmap. simpl.
  destruct (decide (length gs + 1 ≤ i + 2)%nat) as [|Hlt]; [done|exfalso].
  destruct gs as [|f gs' _] using rev_ind; [simpl in Hlt; lia|].
  rewrite length_app in Hlt. simpl in Hlt.
  specialize (Hearly gs' f eq_refl).
  rewrite fmap_app, <- app_assoc in Hi.
  rewrite lookup_app_l in Hi by (rewrite length_fmap; lia).
  apply list_lookup_fmap_Some in Hi as (g & -> & Hg).
  rewrite Forall_forall in Hearly.
  destruct (Hearly g) as (k & Hk & Hnot); [by eapply list_elem_of_lookup_2|].
  apply Hnot. rewrite Hfull, elem_of_seqZ. lia.
Qed.

(** X2. Bubble, selection and quick sort finalize an index only once its
    value is settled: an index listed as finalized in a snapshot holds
    the same value in every later snapshot of the run. *)
Theorem finalized_values_fixed {A} (val : A → Z) (alg : algorithm) (xs : list A) :
  alg ≠ Insertion → alg ≠ Merge →
  ∃ tr, snapshots (engine val alg) xs = Some tr ∧
    ∀ i j s s' (k : nat), (i < j)%nat → tr !! i = Some s → tr !! j = Some s' →
      Z.of_nat k ∈ sorted_indices s → array s !! k = array s' !! k.
Proof.
  intros Hins Hmer.
  destruct (snapshots_run val alg xs)
    as (l' & F & gs & Hsn & _ & _ & _ & Htr & _ & _ & Hset).
  specialize (Hset Hins Hmer). unfold settled in Hset. rewrite Forall_forall in Hset.
  eexists. split; [exact Hsn|].
  intros i j s s' k Hij Hi Hj Hk.
  assert (i < length gs)%nat as Hilt.
  { apply lookup_lt_Some in Hj. rewrite length_app, length_fmap in Hj. simpl in Hj. lia. }
  rewrite lookup_app_l in Hi by (by rewrite length_fmap).
  apply list_lookup_fmap_Some in Hi as (f & -> & Hf).
  rewrite (Hset f); [|by eapply list_elem_of_lookup_2|done].
  destruct (decide (j < length gs)%nat) as [Hjlt|Hjge].
  - rewrite lookup_app_l in Hj by (by rewrite length_fmap).
    apply list_lookup_fmap_Some in Hj as (f' & -> & Hf').
    symmetry. apply Hset; [by eapply list_elem_of_lookup_2|].
    destruct (trace_ok_lookup _ _ _ _ _ _ _ i j f f' Htr Hij Hf Hf')
      as (T & T' & Hok & Hok' & _ & Hsub & _).
    apply frame_ok_snapshot in Hok as (_ & _ & _ & Hsi & _).
    apply frame_ok_snapshot in Hok' as (_ & _ & _ & Hsi' & _).
    rewrite Hsi in Hk. rewrite Hsi'. apply elem_of_sorted_tuple.
    apply Hsub. by apply elem_of_sorted_tuple.
  - rewrite lookup_app_r in Hj by (rewrite length_fmap; lia).
    by apply list_lookup_singleton_Some in Hj as [_ <-].
Qed.

(** C2. Insertion sort on [[2, 3, 1]] shows index 0 as finalized while
    it holds 2 (second snapshot), and later writes 1 there; merge sort on
    [[2, 1]] shows index 0 as finalized while it holds 2 (first
    snapshot), and later writes 1 there. *)
Theorem finalized_value_overwritten :
  (∃ tr s s',
     snapshots (insertion_sort id) [2; 3; 1] = Some tr ∧
     tr !! 1%nat = Some s ∧ sorted_indices s = [0; 1] ∧ array s = [2; 3; 1] ∧
     tr !! 7%nat = Some s' ∧ array s' = [1; 2; 3]) ∧
  (∃ tr s s',
     snapshots (merge_sort id) [2; 1] = Some tr ∧
     tr !! 0%nat = Some s ∧ sorted_indices s = [0] ∧ array s = [2; 1] ∧
     tr !! 3%nat = Some s' ∧ array s' = [1; 1]).
Proof.
  split; eexists _, _, _;
    (split; [vm_compute; reflexivity|]); split_and!; reflexivity.
Qed.

(** C3. Merge sort on [[2, 1]] shows both indices as finalized in its
    second snapshot, while the array is still [[2, 1]] and five more
    snapshots follow. *)
Theorem merge_sort_early_full_coverage :
  ∃ tr s,
    snapshots (merge_sort id) [2; 1] = Some tr ∧ length tr = 7%nat ∧
    tr !! 1%nat = Some s ∧ sorted_indices s = seqZ 0 2 ∧ array s = [2; 1].
Proof.
  eexists _, _. split; [vm_compute; reflexivity|]. split_and!; reflexivity.
Qed.

(** ** One call of [_quick_sort] *)

(** C5. A call of [_quick_sort] on an empty subrange yields nothing and
    changes nothing; on a single index it finalizes the index and yields
    one SORTED snapshot for it; on a longer subrange the partition step
    takes the last value as pivot, leaves it at an index [p] with the
    values no larger than the pivot on its left and the larger ones on its
    right, finalizes [p], yields a SORTED snapshot for [p], and the call
    goes on with the subranges left and right of [p]; when the call
    returns, [p] still holds the pivot. *)
Theorem quick_sort_step {A} (val : A → Z) (h0 : gmap loc (list A)) (a : loc)
    (fuel : nat) (low high : Z) (l : list A) (F : gset Z) (gs : list (Frame A)) :
  (high < low →
     _quick_sort val (S fuel) a low high (St h0 a l F gs) = Ok tt (St h0 a l F gs)) ∧
  (low = high →
     _quick_sort val (S fuel) a low high (St h0 a l F gs)
     = Ok tt (St h0 a l ({[low]} ∪ F)
                (gs ++ [snap h0 a l ({[low]} ∪ F) [(low, SORTED)]
                          ("Index " +:+ pretty low +:+ " is sorted")]))) ∧
  (0 ≤ low → low < high → high < Z.of_nat (length l) → set_in_range (length l) F →
     ∃ pivot (p : nat) l' scan,
       l !! Z.to_nat high = Some pivot ∧
       low ≤ Z.of_nat p ≤ high ∧
       _quick_sort_partition val a low high (St h0 a l F gs)
       = Ok (Z.of_nat p)
           (St h0 a l' ({[Z.of_nat p]} ∪ F)
              (gs ++ (snap h0 a l F [(high, PIVOT)]
                        ("Pivot chosen at index " +:+ pretty high) :: scan)
                  ++ [snap h0 a l' ({[Z.of_nat p]} ∪ F) [(Z.of_nat p, SORTED)]
                        ("Pivot settled at index " +:+ pretty (Z.of_nat p))])) ∧
       _quick_sort val (S fuel) a low high (St h0 a l F gs)
       = (_quick_sort val fuel a low (Z.of_nat p - 1) ;;
          _quick_sort val fuel a (Z.of_nat p + 1) high)
           (St h0 a l' ({[Z.of_nat p]} ∪ F)
              (gs ++ (snap h0 a l F [(high, PIVOT)]
                        ("Pivot chosen at index " +:+ pretty high) :: scan)
                  ++ [snap h0 a l' ({[Z.of_nat p]} ∪ F) [(Z.of_nat p, SORTED)]
                        ("Pivot settled at index " +:+ pretty (Z.of_nat p))])) ∧
       l' ≡ₚ l ∧ l' !! p = Some pivot ∧
       (∀ q x, low ≤ Z.of_nat q < Z.of_nat p → l' !! q = Some x → val x ≤ val pivot) ∧
       (∀ q x, Z.of_nat p < Z.of_nat q ≤ high → l' !! q = Some x → val pivot < val x) ∧
       (∀ q, Z.of_nat q < low ∨ high < Z.of_nat q → l' !! q = l !! q) ∧
       ((∀ k, low ≤ k ≤ high → k ∉ F) → high - low < Z.of_nat fuel →
          ∃ l'' gs'',
            _quick_sort val (S fuel) a low high (St h0 a l F gs)
            = Ok tt (St h0 a l'' (list_to_set (range low (high + 1)) ∪ F) gs'') ∧
            l'' !! p = Some pivot)).
Proof.
  split_and!.
  - intros Hlt. simpl.
    destruct (Z.geb_spec low high); [|lia].
    destruct (Z.eqb_spec low high); [lia|done].
  - intros <-. simpl. rewrite Z.geb_leb, Z.leb_refl, Z.eqb_refl.
    unfold bind, set_add, yield_state, yield_, St, snap. simpl.
    by rewrite lookup_insert_eq.
  - intros Hlow Hlt Hhigh HF.
    set (lo := Z.to_nat low). set (e := Z.to_nat (high + 1)).
    destruct (lookup_lt_is_Some_2 l (e - 1)%nat) as [pivot Hpivot]; [lia|].
    destruct (quick_partition_wp val h0 a (length l) lo e pivot l F gs)
      as (r & st' & Hpart & p & l' & scan & -> & Hp & -> & Hlen & Hperm & Hso & _
            & Hpiv & Hle & Hgt & _); [lia | lia | done | done | done |].
    replace (Z.of_nat lo) with low in Hpart by lia.
    replace (Z.of_nat e - 1) with high in * by lia.
    assert (_quick_sort val (S fuel) a low high (St h0 a l F gs)
            = (_quick_sort val fuel a low (Z.of_nat p - 1) ;;
               _quick_sort val fuel a (Z.of_nat p + 1) high)
                (St h0 a l' ({[Z.of_nat p]} ∪ F)
                   (gs ++ (snap h0 a l F [(high, PIVOT)]
                             ("Pivot chosen at index " +:+ pretty high) :: scan)
                       ++ [snap h0 a l' ({[Z.of_nat p]} ∪ F) [(Z.of_nat p, SORTED)]
                             ("Pivot settled at index " +:+ pretty (Z.of_nat p))])))
      as Hstep.
    { simpl. destruct (Z.geb_spec low high); [lia|].
      unfold bind at 1. by rewrite Hpart. }
    exists pivot, p, l', scan.
    split_and!; [by replace (Z.to_nat high) with (e - 1)%nat by lia | lia | lia
                | done | done | done | done | | | |].
    + intros q x Hq. apply Hle. lia.
    + intros q x Hq. apply Hgt. lia.
    + intros q Hq. apply Hso. lia.
    + intros Hfresh Hfuel. rewrite Hstep.
      assert (set_in_range (length l) ({[Z.of_nat p]} ∪ F)) as HF1.
      { intros k. rewrite elem_of_union, elem_of_singleton. intros [->|?%HF]; lia. }
      destruct (quick_sort_rec_wp val h0 a (length l) fuel lo p l' ({[Z.of_nat p]} ∪ F)
                  (gs ++ (snap h0 a l F [(high, PIVOT)]
                            ("Pivot chosen at index " +:+ pretty high) :: scan)
                      ++ [snap h0 a l' ({[Z.of_nat p]} ∪ F) [(Z.of_nat p, SORTED)]
                            ("Pivot settled at index " +:+ pretty (Z.of_nat p))]))
        as ([] & st2 & Hleft & l2 & new2 & -> & Hlen2 & _ & Hso2 & _); [lia..|done|done| |].
      { intros k Hk. rewrite elem_of_union, elem_of_singleton.
        intros [?|?]; [lia|]. apply (Hfresh (Z.of_nat k)); [lia|done]. }
      replace (Z.of_nat lo) with low in Hleft by lia.
      set (F2 := list_to_set (range low (Z.of_nat p)) ∪ ({[Z.of_nat p]} ∪ F)) in *.
      assert (set_in_range (length l) F2) as HF2.
      { intros k. unfold F2. rewrite elem_of_union, elem_of_range_to_set.
        intros [?|?%HF1]; lia. }
      match type of Hleft with _ = Ok tt (St _ _ _ _ ?g) => set (gs2 := g) in * end.
      destruct (quick_sort_rec_wp val h0 a (length l) fuel (S p) e l2 F2 gs2)
        as ([] & st3 & Hright & l3 & new3 & -> & _ & _ & Hso3 & _); [lia..|done|done| |].
      { intros k Hk. unfold F2.
        rewrite !elem_of_union, elem_of_range_to_set, elem_of_singleton.
        intros [?|[?|?]]; [lia | lia |]. apply (Hfresh (Z.of_nat k)); [lia|done]. }
      replace (Z.of_nat (S p)) with (Z.of_nat p + 1) in Hright by lia.
      replace (Z.of_nat e - 1) with high in Hright by lia.
      replace (Z.of_nat e) with (high + 1) in Hright by lia.
      eexists l3, _. split.
      * unfold bind. rewrite Hleft, Hright. f_equal. f_equal.
        apply set_eq. intros k. unfold F2.
        rewrite !elem_of_union, !elem_of_range_to_set, elem_of_singleton.
        naive_solver lia.
      * rewrite Hso3 by lia. rewrite Hso2 by lia. done.
Qed.

Lemma quick_sort_step_witness :
  (_quick_sort id 3 0%nat 0 (-1) (St ∅ 0%nat [3; 1; 2] ∅ [])
   = Ok tt (St ∅ 0%nat [3; 1; 2] ∅ [])) ∧
  (_quick_sort id 3 0%nat 1 1 (St ∅ 0%nat [3; 1; 2] ∅ [])
   = Ok tt (St ∅ 0%nat [3; 1; 2] ({[1]} ∪ ∅)
              ([] ++ [snap ∅ 0%nat [3; 1; 2] ({[1]} ∪ ∅) [(1, SORTED)]
                        ("Index " +:+ pretty 1 +:+ " is sorted")]))) ∧
  (∃ pivot (p : nat) l',
     [3; 1; 2] !! Z.to_nat 2 = Some pivot ∧ l' !! p = Some pivot ∧ l' ≡ₚ [3; 1; 2] ∧
     (∀ q x, 0 ≤ Z.of_nat q < Z.of_nat p → l' !! q = Some x → id x ≤ id pivot) ∧
     (∀ q x, Z.of_nat p < Z.of_nat q ≤ 2 → l' !! q = Some x → id pivot < id x) ∧
     ∃ l'' gs'',
       _quick_sort id 4 0%nat 0 2 (St ∅ 0%nat [3; 1; 2] ∅ [])
       = Ok tt (St ∅ 0%nat l'' (list_to_set (range 0 (2 + 1)) ∪ ∅) gs'') ∧
       l'' !! p = Some pivot).
Proof.
  split_and!.
  - apply (quick_sort_step id ∅ 0%nat 2 0 (-1) [3; 1; 2] ∅ []). lia.
  - apply (quick_sort_step id ∅ 0%nat 2 1 1 [3; 1; 2] ∅ []). reflexivity.
  - destruct (quick_sort_step id ∅ 0%nat 3 0 2 [3; 1; 2] ∅ []) as (_ & _ & H).
    destruct H as (pivot & p & l' & scan & Hpiv & _ & _ & _ & Hperm & Hp & Hle & Hgt
                     & _ & Hfinal).
    + lia.
    + lia.
    + simpl. lia.
    + intros k Hk. exfalso. revert Hk. apply not_elem_of_empty.
    + exists pivot, p, l'. split_and!; try assumption.
      apply Hfinal; [|simpl; lia].
      intros k _. apply not_elem_of_empty.
Defined.

(** ** One call of [_merge] *)

(** The merge of two runs that takes the head of the left one whenever it
    is not larger than the head of the right one. *)
Definition stable_merge {A} (val : A → Z) : list A → list A → list A :=
  list_merge (le_val val).

Lemma highlight_dict_const (c : HighlightType) (ks : list Z) (k : Z) :
  highlight_dict ((λ idx, (idx, c)) <$> ks) !! k
  = if decide (k ∈ ks) then Some c else None.
Proof.
  unfold highlight_dict.
  assert (∀ m : gmap Z HighlightType,
            foldl (λ m p, <[p.1 := p.2]> m) m ((λ idx, (idx, c)) <$> ks) !! k
            = if decide (k ∈ ks) then Some c else m !! k) as H.
  { induction ks as [|i ks IH]; intros m; simpl.
    - done.
    - rewrite IH. destruct (decide (k ∈ ks)) as [Hin|Hnin].
      + by rewrite decide_True by (by right).
      + destruct (decide (k = i)) as [->|Hne].
        * rewrite decide_True by left. apply lookup_insert_eq.
        * rewrite decide_False by (by intros [?|?]%elem_of_cons).
          by rewrite lookup_insert_ne. }
  rewrite H. by destruct (decide (k ∈ ks)).
Qed.

(** C6. [_merge] on the halves [s .. m] and [m+1 .. e] leaves in
    [s .. e] the merge of the two halves in which the left head is taken
    whenever it is not larger than the right head; its frames are those of
    the comparing phase, two per placement, then one single-cell SWAP
    frame per value that remained when one half ran out, then one frame
    that shows every index of [s .. e], and those only, as SORTED, all of
    them finalized.  On [[3, 1, 2, 1]] with labelled values the two 1s
    come out in their original order. *)
Theorem merge_step {A} (val : A → Z) (h0 : gmap loc (list A)) (a : loc)
    (fuel : nat) (s m e : nat) (l : list A) (F : gset Z) (gs : list (Frame A)) :
  ((s ≤ m)%nat → (m < e)%nat → (e < length l)%nat → set_in_range (length l) F →
   (e + 1 - s < fuel)%nat →
   ∃ cmp drainl drainr final (i j : nat),
     let left := py_slice l (Z.of_nat s) (Z.of_nat m + 1) in
     let right := py_slice l (Z.of_nat m + 1) (Z.of_nat e + 1) in
     let l' := overwrite s (stable_merge val left right) l in
     _merge val fuel a (Z.of_nat s) (Z.of_nat m) (Z.of_nat e) (St h0 a l F gs)
     = Ok tt (St h0 a l' (list_to_set (range (Z.of_nat s) (Z.of_nat e + 1)) ∪ F)
                (gs ++ cmp ++ drainl ++ drainr ++ [final])) ∧
     (i = length left ∨ j = length right) ∧
     length cmp = (2 * (i + j))%nat ∧
     length drainl = (length left - i)%nat ∧ Forall swap_frame drainl ∧
     length drainr = (length right - j)%nat ∧ Forall swap_frame drainr ∧
     array (snapshot final) = l' ∧
     (∀ k, highlights (snapshot final) !! k
           = if decide (Z.of_nat s ≤ k ≤ Z.of_nat e) then Some SORTED else None) ∧
     (∀ k, Z.of_nat s ≤ k ≤ Z.of_nat e → k ∈ sorted_indices (snapshot final))) ∧
  (∀ x y l1 l2,
     stable_merge val (x :: l1) (y :: l2)
     = if val x <=? val y then x :: stable_merge val l1 (y :: l2)
       else y :: stable_merge val (x :: l1) l2) ∧
  (∃ tr s', snapshots (merge_sort fst) [(3, "a"); (1, "b"); (2, "c"); (1, "d")] = Some tr ∧
            last tr = Some s' ∧
            array s' = [(1, "b"); (1, "d"); (2, "c"); (3, "a")]).
Proof.
  split_and!.
  - intros Hs Hm He HF Hfuel.
    destruct (merge_wp val h0 a (length l) fuel s m e l F gs)
      as ([] & st' & Hrun & cmp & drainl & drainr & i & j & Hst & _ & _ & _ & Hex
            & Hcmp & Hdl & Hsl & Hdr & Hsr); [done..|].
    simpl in Hst. subst st'.
    replace (Z.of_nat m + 1) with (Z.of_nat (m + 1)) by lia.
    replace (Z.of_nat e + 1) with (Z.of_nat (e + 1)) by lia.
    rewrite !py_slice_nat by lia.
    replace (e + 1 - (m + 1))%nat with (e - m)%nat by lia.
    replace (Z.of_nat (e + 1)) with (Z.of_nat e + 1) by lia.
    eexists cmp, drainl, drainr, _, i, j. cbv zeta.
    split_and!; [exact Hrun | done.. | |].
    + intros k. unfold segment_frame, snap, _state. cbn [snapshot highlights].
      rewrite highlight_dict_const.
      destruct (decide (Z.of_nat s ≤ k ≤ Z.of_nat e)).
      * rewrite decide_True; [done|]. apply elem_of_range. lia.
      * rewrite decide_False; [done|]. rewrite elem_of_range. lia.
    + intros k Hk. unfold segment_frame, snap, _state. cbn [snapshot sorted_indices].
      apply elem_of_sorted_tuple, elem_of_union. left.
      apply elem_of_range_to_set. lia.
  - intros x y l1 l2. unfold stable_merge. rewrite list_merge_cons.
    destruct (Z.leb_spec (val x) (val y)).
    + by rewrite decide_True.
    + rewrite decide_False; [done|]. unfold le_val. lia.
  - eexists _, _. split; [vm_compute; reflexivity|]. split; reflexivity.
Qed.

Lemma merge_step_witness :
  ∃ cmp drainl drainr final (i j : nat),
    _merge id 5 0%nat 0 0 1 (St ∅ 0%nat [2; 1] ∅ [])
    = Ok tt (St ∅ 0%nat (overwrite 0 (stable_merge id [2] [1]) [2; 1])
               (list_to_set (range 0 2) ∪ ∅)
               ([] ++ cmp ++ drainl ++ drainr ++ [final])) ∧
    (i = 1%nat ∨ j = 1%nat) ∧
    length cmp = (2 * (i + j))%nat ∧
    length drainl = (1 - i)%nat ∧ Forall swap_frame drainl ∧
    length drainr = (1 - j)%nat ∧ Forall swap_frame drainr.
Proof.
  destruct (merge_step id ∅ 0%nat 5 0 0 1 [2; 1] ∅ []) as (H & _).
  destruct H as (cmp & drainl & drainr & final & i & j & Hrun & Hex & Hc & Hdl & Hsl
                   & Hdr & Hsr & _).
  - lia.
  - lia.
  - simpl. lia.
  - intros k Hk. exfalso. revert Hk. apply not_elem_of_empty.
  - lia.
  - exists cmp, drainl, drainr, final, i, j. split_and!; assumption.
Defined.

(** * Further properties of the engines *)

(** ** Invariants of engine code *)

(** [wlp m st Q]: if [m] returns from [st], it does so in a result and
    state related by [Q].  The engines are known to return; an invariant
    of their code, established by a walk through it, then holds of the
    state a run ends in. *)

Section Safety.
Context {A : Type}.

Definition wlp {R} (m : M A R) (st : state A) (Q : R → state A → Prop) : Prop :=
  ∀ r st', m st = Ok r st' → Q r st'.

Lemma wlp_ret {R} (r : R) st (Q : R → state A → Prop) :
  Q r st → wlp (ret r) st Q.
Proof. intros HQ r' st' [= <- <-]. done. Qed.

Lemma wlp_raise {R} e st (Q : R → state A → Prop) : wlp (raise e) st Q.
Proof. intros r st' H. discriminate H. Qed.

Lemma wlp_bind {R R'} (m : M A R) (k : R → M A R') st (Q : R' → state A → Prop) :
  wlp m st (λ r st', wlp (k r) st' Q) → wlp (bind m k) st Q.
Proof.
  intros Hm r st' H. unfold bind in H.
  destruct (m st) as [r1 st1|] eqn:E; [|done]. by eapply Hm.
Qed.

Lemma wlp_mono {R} (m : M A R) st (Q Q' : R → state A → Prop) :
  wlp m st Q → (∀ r st', Q r st' → Q' r st') → wlp m st Q'.
Proof. intros Hm HQ r st' H. by apply HQ, Hm. Qed.

Lemma wlp_len a st (Q : Z → state A → Prop) :
  (∀ l, heap st !! a = Some l → Q (Z.of_nat (length l)) st) → wlp (len a) st Q.
Proof.
  intros HQ r st' H. unfold len in H.
  destruct (heap st !! a) as [l|] eqn:E; [|done]. simplify_eq. by apply HQ.
Qed.

Lemma wlp_load a i st (Q : A → state A → Prop) :
  (∀ l x, heap st !! a = Some l → py_getitem l i = Some x → Q x st) →
  wlp (load a i) st Q.
Proof.
  intros HQ r st' H. unfold load in H.
  destruct (heap st !! a) as [l|] eqn:E; [|done].
  destruct (py_getitem l i) as [x|] eqn:E'; [|done]. simplify_eq. by eapply HQ.
Qed.

Lemma wlp_store a i x st (Q : unit → state A → Prop) :
  (∀ l l', heap st !! a = Some l → py_setitem l i x = Some l' →
     Q tt (mkState (<[a := l']> (heap st)) (finalized st) (yielded st))) →
  wlp (store a i x) st Q.
Proof.
  intros HQ r st' H. unfold store in H.
  destruct (heap st !! a) as [l|] eqn:E; [|done].
  destruct (py_setitem l i x) as [l'|] eqn:E'; [|done]. simplify_eq. by eapply HQ.
Qed.

Lemma wlp_swap a i j st (Q : unit → state A → Prop) :
  (∀ l l1 l2 x y, heap st !! a = Some l →
     py_getitem l j = Some x → py_getitem l i = Some y →
     py_setitem l i x = Some l1 → py_setitem l1 j y = Some l2 →
     Q tt (mkState (<[a := l2]> (heap st)) (finalized st) (yielded st))) →
  wlp (swap a i j) st Q.
Proof.
  intros HQ. unfold swap.
  apply wlp_bind, wlp_load. intros l x Hl Hx.
  apply wlp_bind, wlp_load. intros l' y Hl' Hy. simplify_eq.
  apply wlp_bind, wlp_store. intros l' l1 Hl' H1. simplify_eq.
  apply wlp_store. simpl. intros l' l2 Hl' H2.
  rewrite lookup_insert_eq in Hl'. simplify_eq.
  rewrite insert_insert_eq. by eapply HQ.
Qed.

Lemma wlp_slice a lo hi st (Q : list A → state A → Prop) :
  (∀ l, heap st !! a = Some l → Q (py_slice l lo hi) st) → wlp (slice a lo hi) st Q.
Proof.
  intros HQ r st' H. unfold slice in H.
  destruct (heap st !! a) as [l|] eqn:E; [|done]. simplify_eq. by apply HQ.
Qed.

Lemma wlp_set_add i st (Q : unit → state A → Prop) :
  Q tt (mkState (heap st) ({[i]} ∪ finalized st) (yielded st)) → wlp (set_add i) st Q.
Proof. intros HQ r st' [= <- <-]. done. Qed.

Lemma wlp_set_update_range lo hi st (Q : unit → state A → Prop) :
  Q tt (mkState (heap st) (list_to_set (range lo hi) ∪ finalized st) (yielded st)) →
  wlp (set_update_range lo hi) st Q.
Proof. intros HQ r st' [= <- <-]. done. Qed.

Lemma wlp_new_set st (Q : unit → state A → Prop) :
  Q tt (mkState (heap st) ∅ (yielded st)) → wlp new_set st Q.
Proof. intros HQ r st' [= <- <-]. done. Qed.

Lemma wlp_yield_state a hl d st (Q : unit → state A → Prop) :
  (∀ l, heap st !! a = Some l →
     Q tt (mkState (heap st) (finalized st)
             (yielded st ++ [mkFrame (_state l hl (finalized st) d) (heap st)]))) →
  wlp (yield_state a hl d) st Q.
Proof.
  intros HQ r st' H. unfold yield_state in H.
  destruct (heap st !! a) as [l|] eqn:E; [|done].
  unfold yield_ in H. simplify_eq. by apply HQ.
Qed.

Lemma wlp_yield_complete a d st (Q : unit → state A → Prop) :
  (∀ l, heap st !! a = Some l →
     Q tt (mkState (heap st) (finalized st)
             (yielded st ++ [mkFrame (_state l [] (range_set (Z.of_nat (length l))) d)
                               (heap st)]))) →
  wlp (yield_complete a d) st Q.
Proof.
  intros HQ r st' H. unfold yield_complete in H.
  destruct (heap st !! a) as [l|] eqn:E; [|done].
  unfold yield_ in H. simplify_eq. by apply HQ.
Qed.

Lemma wlp_list_copy d st (Q : loc → state A → Prop) :
  (∀ xs, heap st !! d = Some xs →
     Q (fresh (dom (heap st)))
       (mkState (<[fresh (dom (heap st)) := xs]> (heap st)) (finalized st) (yielded st))) →
  wlp (list_copy d) st Q.
Proof.
  intros HQ r st' H. unfold list_copy in H.
  destruct (heap st !! d) as [xs|] eqn:E; [|done]. simplify_eq. by apply HQ.
Qed.

(** Invariant rule of the [for] loops. *)
Lemma wlp_for_each {T} (I : T → state A → Prop) xs (body : Z → T → M A T) acc st
    (Q : T → state A → Prop) :
  I acc st →
  (∀ x acc st, x ∈ xs → I acc st → wlp (body x acc) st I) →
  (∀ acc st, I acc st → Q acc st) →
  wlp (for_each xs body acc) st Q.
Proof.
  intros HI Hbody HQ. revert acc st HI.
  induction xs as [|x xs IH]; intros acc st HI; simpl.
  - by apply wlp_ret, HQ.
  - apply wlp_bind. eapply wlp_mono; [apply Hbody; [left|done]|].
    intros acc' st' HI'. apply IH; [|done].
    intros y acc0 st0 Hy. apply Hbody. by right.
Qed.

Lemma wlp_for_ (I : state A → Prop) xs (body : Z → M A unit) st
    (Q : unit → state A → Prop) :
  I st →
  (∀ x st, x ∈ xs → I st → wlp (body x) st (λ _, I)) →
  (∀ st, I st → Q tt st) →
  wlp (for_ xs body) st Q.
Proof.
  intros HI Hbody HQ. unfold for_.
  apply (wlp_for_each (λ _, I)); [done | | by intros []].
  intros x [] st0 Hx HI0. by apply Hbody.
Qed.

(** *** Index resolution *)

Lemma py_index_Some n i k :
  py_index n i = Some k → (k < n)%nat ∧ (0 ≤ i → k = Z.to_nat i).
Proof.
  unfold py_index. intros H.
  destruct (decide (0 ≤ i < Z.of_nat n)); [simplify_eq; lia|].
  destruct (decide (- Z.of_nat n ≤ i < 0)); [simplify_eq; lia|done].
Qed.

Lemma py_getitem_Some (l : list A) i x :
  py_getitem l i = Some x →
  ∃ k, l !! k = Some x ∧ (0 ≤ i → k = Z.to_nat i).
Proof.
  unfold py_getitem. intros H.
  destruct (py_index (length l) i) as [k|] eqn:E; [|done]. simpl in H.
  apply py_index_Some in E as [_ Hk]. eauto.
Qed.

Lemma py_setitem_Some (l : list A) i x l' :
  py_setitem l i x = Some l' →
  ∃ k, (k < length l)%nat ∧ l' = <[k := x]> l ∧ (0 ≤ i → k = Z.to_nat i).
Proof.
  unfold py_setitem. intros H.
  destruct (py_index (length l) i) as [k|] eqn:E; [|done]. simpl in H.
  apply py_index_Some in E as [? Hk]. simplify_eq. eauto.
Qed.

Lemma py_getitem_setitem_index (l l' : list A) i x y :
  py_getitem l i = Some x → py_setitem l i y = Some l' →
  ∃ k, l !! k = Some x ∧ l' = <[k := y]> l ∧ (0 ≤ i → k = Z.to_nat i).
Proof.
  unfold py_getitem, py_setitem. intros Hg Hs.
  destruct (py_index (length l) i) as [k|] eqn:E; [|done]. simpl in *.
  apply py_index_Some in E as [? Hk]. simplify_eq. eauto.
Qed.

(** What an exchange [arr[i], arr[j] = arr[j], arr[i]] leaves. *)
Lemma swap_result (l l1 l2 : list A) i j x y :
  py_getitem l j = Some x → py_getitem l i = Some y →
  py_setitem l i x = Some l1 → py_setitem l1 j y = Some l2 →
  ∃ ki kj, l !! ki = Some y ∧ l !! kj = Some x ∧
    l2 = <[kj := y]> (<[ki := x]> l) ∧
    (0 ≤ i → ki = Z.to_nat i) ∧ (0 ≤ j → kj = Z.to_nat j).
Proof.
  intros Hx Hy H1 H2.
  destruct (py_getitem_setitem_index _ _ _ _ _ Hy H1) as (ki & Hki & -> & Hi).
  unfold py_getitem in Hx. unfold py_setitem in H2. rewrite length_insert in H2.
  destruct (py_index (length l) j) as [kj|] eqn:E; [|done]. simpl in *.
  apply py_index_Some in E as [? Hj]. simplify_eq. exists ki, kj. done.
Qed.

Lemma swap_result_perm (l l1 l2 : list A) i j x y :
  py_getitem l j = Some x → py_getitem l i = Some y →
  py_setitem l i x = Some l1 → py_setitem l1 j y = Some l2 →
  l2 ≡ₚ l.
Proof.
  intros Hx Hy H1 H2.
  destruct (swap_result _ _ _ _ _ _ _ Hx Hy H1 H2) as (ki & kj & Hki & Hkj & -> & _).
  by apply Permutation_insert_swap.
Qed.
End Safety.

(** ** What every snapshot of a run shows *)

(** The dictionary built from the highlight pairs maps an index only to
    a style it is paired with. *)
Lemma highlight_dict_lookup hl k c : highlight_dict hl !! k = Some c → (k, c) ∈ hl.
Proof.
  unfold highlight_dict. induction hl as [|[i c'] hl IH] using rev_ind; simpl.
  - by rewrite lookup_empty.
  - rewrite foldl_app. simpl. rewrite elem_of_app, list_elem_of_singleton.
    destruct (decide (i = k)) as [->|Hne].
    + rewrite lookup_insert_eq. intros [= ->]. by right.
    + rewrite lookup_insert_ne by done. auto.
Qed.

(** Every index that a snapshot highlights as SORTED is among its
    finalized indices. *)
Definition sorted_marks_finalized {A} (s : SortState A) : Prop :=
  ∀ k, highlights s !! k = Some SORTED → k ∈ sorted_indices s.

Section Shown.
Context {A : Type} (a : loc).

(** What a snapshot shows: an array with property [Ψ], and SORTED marks
    on finalized indices only. *)
Definition shows (Ψ : list A → Prop) (f : Frame A) : Prop :=
  Ψ (array (snapshot f)) ∧ sorted_marks_finalized (snapshot f).

(** The engine's list has property [Φ], and every snapshot yielded so
    far shows an array with property [Ψ]. *)
Definition lives (Φ Ψ : list A → Prop) (st : state A) : Prop :=
  (∃ l, heap st !! a = Some l ∧ Φ l) ∧ Forall (shows Ψ) (yielded st).

Lemma shows_state (Ψ : list A → Prop) l hl F d h :
  Ψ l → (∀ k, (k, SORTED) ∈ hl → k ∈ F) → shows Ψ (mkFrame (_state l hl F d) h).
Proof.
  intros HΨ Hhl. split; [done|]. intros k Hk. simpl in *.
  apply elem_of_sorted_tuple. by apply Hhl, highlight_dict_lookup.
Qed.

End Shown.

(** Side condition of a [yield]: the SORTED pairs of a literal highlight
    list name finalized indices. *)
Ltac marks_tac :=
  let k := fresh "k" in let Hk := fresh "Hk" in
  intros k Hk;
  repeat (apply elem_of_cons in Hk as [Hk|Hk]; [simplify_eq; try set_solver|]);
  by apply elem_of_nil in Hk.

(** One step of a walk through engine code. *)
Ltac wlp_step :=
  lazymatch goal with
  | |- wlp (bind _ _) _ _ => apply wlp_bind
  | |- wlp (ret _) _ _ => apply wlp_ret
  | |- wlp (raise _) _ _ => apply wlp_raise
  | |- wlp (load _ _) _ _ =>
      let l := fresh "l" in let x := fresh "x" in
      let Hl := fresh "Hl" in let Hx := fresh "Hx" in
      apply wlp_load; cbn [heap finalized yielded]; intros l x Hl Hx;
      rewrite ?lookup_insert_eq in Hl; simplify_eq
  | |- wlp (store _ _ _) _ _ =>
      let l := fresh "l" in let l' := fresh "l" in
      let Hl := fresh "Hl" in let Hs := fresh "Hs" in
      apply wlp_store; cbn [heap finalized yielded]; intros l l' Hl Hs;
      rewrite ?lookup_insert_eq in Hl; simplify_eq; rewrite ?insert_insert_eq
  | |- wlp (swap _ _ _) _ _ =>
      let l := fresh "l" in let l1 := fresh "l" in let l2 := fresh "l" in
      let x := fresh "x" in let y := fresh "y" in
      let Hl := fresh "Hl" in let Hx := fresh "Hx" in let Hy := fresh "Hy" in
      let H1 := fresh "Hs" in let H2 := fresh "Hs" in
      let Hswap := fresh "Hswap" in
      apply wlp_swap; cbn [heap finalized yielded]; intros l l1 l2 x y Hl Hx Hy H1 H2;
      pose proof (swap_result_perm _ _ _ _ _ _ _ Hx Hy H1 H2) as Hswap;
      rewrite ?lookup_insert_eq in Hl; simplify_eq
  | |- wlp (len _) _ _ =>
      let l := fresh "l" in let Hl := fresh "Hl" in
      apply wlp_len; cbn [heap finalized yielded]; intros l Hl;
      rewrite ?lookup_insert_eq in Hl; simplify_eq
  | |- wlp (slice _ _ _) _ _ =>
      let l := fresh "l" in let Hl := fresh "Hl" in
      apply wlp_slice; cbn [heap finalized yielded]; intros l Hl;
      rewrite ?lookup_insert_eq in Hl; simplify_eq
  | |- wlp (set_add _) _ _ => apply wlp_set_add; cbn [heap finalized yielded]
  | |- wlp (set_update_range _ _) _ _ =>
      apply wlp_set_update_range; cbn [heap finalized yielded]
  | |- wlp new_set _ _ => apply wlp_new_set; cbn [heap finalized yielded]
  | |- wlp (yield_state _ _ _) _ _ =>
      let l := fresh "l" in let Hl := fresh "Hl" in
      apply wlp_yield_state; cbn [heap finalized yielded]; intros l Hl;
      rewrite ?lookup_insert_eq in Hl; simplify_eq
  | |- wlp (yield_complete _ _) _ _ =>
      let l := fresh "l" in let Hl := fresh "Hl" in
      apply wlp_yield_complete; cbn [heap finalized yielded]; intros l Hl;
      rewrite ?lookup_insert_eq in Hl; simplify_eq
  end.

(** Closing a walk: the list of the final state and the frames added. *)
Ltac lives_tac :=
  split;
  [ eexists; split; [first [apply lookup_insert_eq | eassumption]|]
  | cbn [heap finalized yielded];
    rewrite ?Forall_app, ?Forall_singleton; split_and?;
    try assumption; try (apply shows_state; [try (cbn beta; assumption)|marks_tac]) ].

Section SwapEngines.
Context {A : Type} (val tag : A → Z) (a : loc) (xs : list A).

(** The lists a stable exchange engine goes through: rearrangements of
    the input that keep equal values in their input order. *)
Definition stable_perm (l : list A) : Prop :=
  l ≡ₚ xs ∧ (in_order val tag xs → in_order val tag l).

Lemma in_order_swap_adjacent (l : list A) k x y :
  in_order val tag l → l !! k = Some x → l !! S k = Some y → val x ≠ val y →
  in_order val tag (<[S k := x]> (<[k := y]> l)).
Proof.
  intros Hin Hx Hy Hne p q u v Hpq Hu Hv Heq.
  apply (lookup_swap _ _ _ x y) in Hu; [|done..].
  apply (lookup_swap _ _ _ x y) in Hv; [|done..].
  destruct Hu as [[-> ->]|[(_ & -> & ->)|(? & ? & Hu)]];
    destruct Hv as [[-> ->]|[(_ & -> & ->)|(? & ? & Hv)]]; try lia.
  - apply (Hin k q x v); [lia | done..].
  - apply (Hin (S k) q y v); [lia | done..].
  - apply (Hin p k u x); [lia | done..].
  - apply (Hin p (S k) u y); [lia | done..].
  - by apply (Hin p q u v).
Qed.

Lemma bubble_pass_lives n i st :
  lives a stable_perm (λ l, l ≡ₚ xs) st →
  wlp (bubble_pass val a n i) st (λ _, lives a stable_perm (λ l, l ≡ₚ xs)).
Proof.
  intros HI. unfold bubble_pass.
  apply (wlp_for_ (lives a stable_perm (λ l, l ≡ₚ xs))); [done | | done].
  clear st HI. intros j st Hj%elem_of_range [(l & Hl & Hperm & Hord) HG].
  do 2 wlp_step. do 2 wlp_step. rename x into x0. do 2 wlp_step.
  destruct (Z.gtb_spec (val x0) (val x)) as [Hgt|Hle].
  - wlp_step. apply wlp_swap. cbn [heap finalized yielded].
    intros l0 l1 l2 x' y' Hl0 Hx' Hy' H1 H2. simplify_eq.
    wlp_step.
    destruct (swap_result _ _ _ _ _ _ _ Hx0 Hx H1 H2)
      as (ki & kj & Hki & Hkj & -> & Hi' & Hj').
    rewrite Hi' in * by lia. rewrite Hj' in * by lia.
    replace (Z.to_nat (j + 1)) with (S (Z.to_nat j)) in * by lia.
    assert (<[S (Z.to_nat j) := x0]> (<[Z.to_nat j := x]> l) ≡ₚ xs) as Hperm'.
    { etrans; [by apply Permutation_insert_swap|done]. }
    lives_tac.
    split; [done|]. intros Hxs. apply in_order_swap_adjacent; [by apply Hord | done..| lia].
  - wlp_step. lives_tac. by split.
Qed.

Lemma bubble_round_lives n i st :
  lives a stable_perm (λ l, l ≡ₚ xs) st →
  wlp (bubble_round val a n i) st (λ _, lives a stable_perm (λ l, l ≡ₚ xs)).
Proof.
  intros HI. unfold bubble_round. wlp_step.
  eapply wlp_mono; [by apply bubble_pass_lives|].
  clear st HI. intros ? st [(l & Hl & Hperm & Hord) HG]. cbn beta.
  do 3 wlp_step. lives_tac. by split.
Qed.

Lemma bubble_sort_lives h d :
  h !! d = Some xs → a = fresh (dom h) →
  wlp (bubble_sort val d) (mkState h ∅ []) (λ _, lives a stable_perm (λ l, l ≡ₚ xs)).
Proof.
  intros Hd Ha. unfold bubble_sort.
  wlp_step. apply wlp_list_copy. cbn [heap finalized yielded]. rewrite <- Ha.
  clear Ha. intros xs' Hd'. simplify_eq.
  do 4 wlp_step. wlp_step.
  apply (wlp_for_ (lives a stable_perm (λ l, l ≡ₚ xs))).
  - split; [|by apply Forall_nil]. exists xs. split; [apply lookup_insert_eq|by split].
  - intros i st _ HI. by apply bubble_round_lives.
  - intros st [(l0 & Hl0 & Hperm & Hord) HG]. wlp_step. lives_tac. by split.
Qed.

(** Selection sort and quick sort exchange values at a distance. *)
Definition perm_of (l : list A) : Prop := l ≡ₚ xs.

Lemma selection_scan_lives n i m st :
  lives a perm_of perm_of st →
  wlp (selection_scan val a n i m) st (λ _, lives a perm_of perm_of).
Proof.
  intros HI. unfold selection_scan.
  apply (wlp_for_each (λ _, lives a perm_of perm_of)); [done | | done].
  clear st HI m. intros j m st _ [(l & Hl & Hperm) HG].
  do 2 wlp_step. do 2 wlp_step. rename x into x0. do 2 wlp_step.
  destruct (val x0 <? val x).
  - do 3 wlp_step. lives_tac. done.
  - wlp_step. lives_tac. done.
Qed.

Lemma selection_round_lives n i st :
  lives a perm_of perm_of st →
  wlp (selection_round val a n i) st (λ _, lives a perm_of perm_of).
Proof.
  intros HI. unfold selection_round. wlp_step.
  eapply wlp_mono; [by apply selection_scan_lives|].
  clear st HI. intros m st [(l & Hl & Hperm) HG]. cbn beta.
  do 2 wlp_step. do 3 wlp_step.
  assert (perm_of l0) by (unfold perm_of; by etrans).
  lives_tac. done.
Qed.

Lemma selection_sort_lives h d :
  h !! d = Some xs → a = fresh (dom h) →
  wlp (selection_sort val d) (mkState h ∅ []) (λ _, lives a perm_of perm_of).
Proof.
  intros Hd Ha. unfold selection_sort.
  wlp_step. apply wlp_list_copy. cbn [heap finalized yielded]. rewrite <- Ha.
  clear Ha. intros xs' Hd'. simplify_eq.
  do 4 wlp_step. wlp_step.
  apply (wlp_for_ (lives a perm_of perm_of)).
  - split; [|by apply Forall_nil]. exists xs. split; [apply lookup_insert_eq|by unfold perm_of].
  - intros i st _ HI. by apply selection_round_lives.
  - intros st [(l0 & Hl0 & Hperm) HG]. wlp_step. lives_tac. done.
Qed.

Lemma quick_sort_scan_lives pivot low high i st :
  lives a perm_of perm_of st →
  wlp (_quick_sort_scan val a pivot low high i) st (λ _, lives a perm_of perm_of).
Proof.
  intros HI. unfold _quick_sort_scan.
  apply (wlp_for_each (λ _, lives a perm_of perm_of)); [done | | done].
  clear st HI i. intros j i st _ [(l & Hl & Hperm) HG].
  do 2 wlp_step. do 2 wlp_step.
  destruct (val x <=? val pivot).
  - do 2 wlp_step. do 3 wlp_step.
    assert (perm_of l0) by (unfold perm_of; by etrans).
    lives_tac. done.
  - wlp_step. lives_tac. done.
Qed.

Lemma quick_sort_partition_lives low high st :
  lives a perm_of perm_of st →
  wlp (_quick_sort_partition val a low high) st (λ _, lives a perm_of perm_of).
Proof.
  intros [(l & Hl & Hperm) HG]. unfold _quick_sort_partition.
  do 2 wlp_step. do 2 wlp_step. wlp_step.
  eapply wlp_mono.
  { apply quick_sort_scan_lives. lives_tac. done. }
  clear dependent st. clear dependent l. intros i st [(l & Hl & Hperm) HG]. cbn beta.
  do 2 wlp_step. do 5 wlp_step.
  assert (perm_of l0) by (unfold perm_of; by etrans).
  lives_tac. done.
Qed.

Lemma quick_sort_rec_lives fuel low high st :
  lives a perm_of perm_of st →
  wlp (_quick_sort val fuel a low high) st (λ _, lives a perm_of perm_of).
Proof.
  revert low high st. induction fuel as [|fuel IH]; intros low high st HI; simpl.
  - apply wlp_raise.
  - destruct (low >=? high).
    + destruct (low =? high).
      * destruct HI as [(l & Hl & Hperm) HG]. do 3 wlp_step. lives_tac. done.
      * by wlp_step.
    + wlp_step. eapply wlp_mono; [by apply quick_sort_partition_lives|].
      intros p st1 HI1. cbn beta. wlp_step.
      eapply wlp_mono; [by apply IH|]. intros ? st2 HI2. by apply IH.
Qed.

Lemma quick_sort_lives h d :
  h !! d = Some xs → a = fresh (dom h) →
  wlp (quick_sort val d) (mkState h ∅ []) (λ _, lives a perm_of perm_of).
Proof.
  intros Hd Ha. unfold quick_sort.
  wlp_step. apply wlp_list_copy. cbn [heap finalized yielded]. rewrite <- Ha.
  clear Ha. intros xs' Hd'. simplify_eq.
  do 4 wlp_step. wlp_step.
  eapply wlp_mono.
  { apply quick_sort_rec_lives.
    split; [|by apply Forall_nil]. exists xs. split; [apply lookup_insert_eq|by unfold perm_of]. }
  intros ? st [(l0 & Hl0 & Hperm) HG]. wlp_step. lives_tac. done.
Qed.
End SwapEngines.

Section StoreEngines.
Context {A : Type} (val tag : A → Z) (a : loc) (xs : list A).

(** Insertion sort and merge sort write values back one cell at a time:
    their list always holds values of the input, though not always all
    of them. *)
Definition drawn (l : list A) : Prop := l ⊆ xs.

Lemma drawn_insert l k x : drawn l → x ∈ xs → drawn (<[k := x]> l).
Proof.
  intros Hl Hx y Hy. apply list_elem_of_lookup in Hy as [i Hi].
  apply list_lookup_insert_Some in Hi as [(_ & <- & _)|[_ Hi]]; [done|].
  apply Hl. by eapply list_elem_of_lookup_2.
Qed.

Lemma drawn_getitem l i x : drawn l → py_getitem l i = Some x → x ∈ xs.
Proof.
  intros Hl (k & Hk & _)%py_getitem_Some. apply Hl. by eapply list_elem_of_lookup_2.
Qed.

Lemma drawn_slice l lo hi : drawn l → drawn (py_slice l lo hi).
Proof.
  intros Hl. unfold drawn, py_slice.
  etrans; [apply subseteq_take|]. etrans; [apply subseteq_drop|]. done.
Qed.

Definition stable_drawn (l : list A) : Prop :=
  drawn l ∧ (in_order val tag xs → in_order val tag l).

(** While [key] is being inserted: writing it at [j + 1] would give a
    list that keeps equal values in their input order. *)
Definition shifting (key : A) (j : Z) (l : list A) : Prop :=
  drawn l ∧ key ∈ xs ∧ -1 ≤ j ∧
  (in_order val tag xs → in_order val tag (<[Z.to_nat (j + 1) := key]> l)).

Lemma insertion_shift_lives fuel key j st :
  lives a (shifting key j) drawn st →
  wlp (insertion_shift val fuel a key j) st (λ j' st', lives a (shifting key j') drawn st').
Proof.
  revert j st. induction fuel as [|fuel IH]; intros j st HI; simpl.
  - apply wlp_raise.
  - destruct HI as [(l & Hl & Hsub & Hkey & Hj & Hord) HG].
    wlp_step. destruct (Z.geb_spec j 0) as [Hge|Hlt].
    + do 3 wlp_step. destruct (Z.gtb_spec (val x) (val key)) as [Hgt|Hle].
      * do 2 wlp_step. do 2 wlp_step. do 2 wlp_step. do 2 wlp_step.
        apply IH.
        apply py_getitem_Some in Hx as (k & Hk & Hk').
        apply py_setitem_Some in Hs as (k' & Hlt' & -> & Hk'').
        rewrite Hk' in * by lia. rewrite Hk'' in * by lia.
        replace (Z.to_nat (j + 1)) with (S (Z.to_nat j)) in * by lia.
        assert (x ∈ xs) by (apply Hsub; by eapply list_elem_of_lookup_2).
        assert (drawn (<[S (Z.to_nat j) := x]> l)) by (by apply drawn_insert).
        lives_tac. split_and!; [done | done | lia |].
        intros Hxs. replace (Z.to_nat (j - 1 + 1)) with (Z.to_nat j) by lia.
        set (m := Z.to_nat j) in *.
        assert (<[m := key]> (<[S m := x]> l)
                = <[S m := x]> (<[m := key]> (<[S m := key]> l))) as ->.
        { rewrite (list_insert_insert_ne l m (S m) key x) by lia.
          rewrite (list_insert_insert_ne l m (S m) key key) by lia.
          by rewrite list_insert_insert_eq. }
        apply in_order_swap_adjacent; [by apply Hord | | | lia].
        -- by rewrite list_lookup_insert_ne by lia.
        -- by rewrite list_lookup_insert_eq by lia.
      * wlp_step. lives_tac. done.
    + do 2 wlp_step. lives_tac. done.
Qed.

Lemma insertion_round_lives n i st :
  1 ≤ i → lives a stable_drawn drawn st →
  wlp (insertion_round val a n i) st (λ _, lives a stable_drawn drawn).
Proof.
  intros Hi [(l & Hl & Hsub & Hord) HG]. unfold insertion_round.
  do 2 wlp_step. do 2 wlp_step. wlp_step.
  apply py_getitem_Some in Hx as (k & Hk & Hk').
  eapply wlp_mono.
  { apply insertion_shift_lives. lives_tac.
    split_and!; [done | apply Hsub; by eapply list_elem_of_lookup_2 | lia |].
    intros Hxs. replace (i - 1 + 1) with i by lia.
    rewrite <- Hk' by lia. rewrite list_insert_id by done. by apply Hord. }
  clear dependent st. clear dependent l.
  intros j st [(l & Hl & Hsub & Hkey & Hj & Hord) HG]. cbn beta.
  do 2 wlp_step. do 3 wlp_step.
  apply py_setitem_Some in Hs as (k' & Hlt' & -> & Hk'').
  rewrite Hk'' in * by lia.
  assert (drawn (<[Z.to_nat (j + 1) := x]> l)) by (by apply drawn_insert).
  lives_tac. split; [done|]. done.
Qed.

Lemma insertion_sort_lives h d :
  h !! d = Some xs → a = fresh (dom h) →
  wlp (insertion_sort val d) (mkState h ∅ []) (λ _, lives a stable_drawn drawn).
Proof.
  intros Hd Ha. unfold insertion_sort.
  wlp_step. apply wlp_list_copy. cbn [heap finalized yielded]. rewrite <- Ha.
  clear Ha. intros xs' Hd'. simplify_eq.
  do 4 wlp_step. wlp_step.
  apply (wlp_for_ (lives a stable_drawn drawn)).
  - split; [|by apply Forall_nil]. exists xs.
    split; [apply lookup_insert_eq|by split; [unfold drawn|]].
  - intros i st Hi%elem_of_range HI. apply insertion_round_lives; [lia|done].
  - intros st [(l0 & Hl0 & Hsub & Hord) HG]. wlp_step. lives_tac. by split.
Qed.

Lemma merge_compare_lives fuel start mid end_ left right i j k st :
  drawn left → drawn right → lives a drawn drawn st →
  wlp (_merge_compare val fuel a start mid end_ left right i j k) st
    (λ _, lives a drawn drawn).
Proof.
  intros Hleft Hright. revert i j k st.
  induction fuel as [|fuel IH]; intros i j k st HI; simpl.
  - apply wlp_raise.
  - destruct ((i <? Z.of_nat (length left)) && (j <? Z.of_nat (length right)));
      [|by wlp_step].
    destruct HI as [(l & Hl & Hsub) HG]. do 2 wlp_step.
    destruct (py_getitem left i) as [x|] eqn:Hx; [|apply wlp_raise].
    destruct (py_getitem right j) as [y|] eqn:Hy; [|apply wlp_raise].
    apply drawn_getitem in Hx; [|done]. apply drawn_getitem in Hy; [|done].
    wlp_step. destruct (val x <=? val y).
    + do 3 wlp_step. cbn beta. do 2 wlp_step.
      apply py_setitem_Some in Hs as (k' & _ & -> & _).
      apply IH. assert (drawn (<[k' := x]> l)) by (by apply drawn_insert).
      lives_tac. done.
    + do 3 wlp_step. cbn beta. do 2 wlp_step.
      apply py_setitem_Some in Hs as (k' & _ & -> & _).
      apply IH. assert (drawn (<[k' := y]> l)) by (by apply drawn_insert).
      lives_tac. done.
Qed.

Lemma merge_drain_lives fuel side src i k st :
  drawn src → lives a drawn drawn st →
  wlp (_merge_drain fuel a side src i k) st (λ _, lives a drawn drawn).
Proof.
  intros Hsrc. revert i k st.
  induction fuel as [|fuel IH]; intros i k st HI; simpl.
  - apply wlp_raise.
  - destruct (i <? Z.of_nat (length src)); [|by wlp_step].
    destruct HI as [(l & Hl & Hsub) HG].
    destruct (py_getitem src i) as [x|] eqn:Hx; [|apply wlp_raise].
    apply drawn_getitem in Hx; [|done].
    do 2 wlp_step. do 2 wlp_step.
    apply py_setitem_Some in Hs as (k' & _ & -> & _).
    apply IH. assert (drawn (<[k' := x]> l)) by (by apply drawn_insert).
    lives_tac. done.
Qed.

Lemma merge_lives fuel start mid end_ st :
  lives a drawn drawn st →
  wlp (_merge val fuel a start mid end_) st (λ _, lives a drawn drawn).
Proof.
  intros HI. unfold _merge.
  pose proof HI as [(l & Hl & Hsub) HG].
  do 2 wlp_step. do 2 wlp_step. wlp_step.
  eapply wlp_mono; [apply merge_compare_lives; [by apply drawn_slice..|done]|].
  intros ijk st1 HI1. cbn beta. wlp_step.
  eapply wlp_mono; [apply merge_drain_lives; [by apply drawn_slice|done]|].
  intros k st2 HI2. cbn beta. wlp_step.
  eapply wlp_mono; [apply merge_drain_lives; [by apply drawn_slice|done]|].
  intros k' st3 [(l3 & Hl3 & Hsub3) HG3]. cbn beta.
  do 3 wlp_step. split; [by eauto|]. cbn [heap finalized yielded].
  rewrite Forall_app, Forall_singleton. split; [done|].
  apply shows_state; [done|].
  intros k0 (idx & [= -> ] & Hidx)%list_elem_of_fmap.
  rewrite elem_of_union, elem_of_range_to_set. left. by apply elem_of_range.
Qed.

Lemma merge_sort_rec_lives fuel start end_ st :
  lives a drawn drawn st →
  wlp (_merge_sort val fuel a start end_) st (λ _, lives a drawn drawn).
Proof.
  revert start end_ st. induction fuel as [|fuel IH]; intros start end_ st HI; simpl.
  - apply wlp_raise.
  - destruct (start >=? end_).
    + destruct HI as [(l & Hl & Hsub) HG]. do 3 wlp_step. lives_tac. done.
    + wlp_step. eapply wlp_mono; [by apply IH|]. intros ? st1 HI1. cbn beta.
      wlp_step. eapply wlp_mono; [by apply IH|]. intros ? st2 HI2. cbn beta.
      by apply merge_lives.
Qed.

Lemma merge_sort_lives h d :
  h !! d = Some xs → a = fresh (dom h) →
  wlp (merge_sort val d) (mkState h ∅ []) (λ _, lives a drawn drawn).
Proof.
  intros Hd Ha. unfold merge_sort.
  wlp_step. apply wlp_list_copy. cbn [heap finalized yielded]. rewrite <- Ha.
  clear Ha. intros xs' Hd'. simplify_eq.
  do 4 wlp_step. wlp_step.
  assert (lives a drawn drawn (mkState (<[a := xs]> h) ∅ [])) as HI.
  { split; [|by apply Forall_nil]. exists xs.
    split; [apply lookup_insert_eq|by unfold drawn]. }
  eapply wlp_mono.
  { destruct (0 <? Z.of_nat (length xs)).
    - apply merge_sort_rec_lives, HI.
    - apply wlp_ret, HI. }
  intros ? st [(l0 & Hl0 & Hsub) HG]. cbn beta. wlp_step. lives_tac. done.
Qed.
End StoreEngines.

(** ** Every snapshot of every run *)

Section ShownByRuns.
Context {A : Type} (val : A → Z).

Lemma shows_mono (Ψ Ψ' : list A → Prop) (f : Frame A) :
  (∀ l, Ψ l → Ψ' l) → shows Ψ f → shows Ψ' f.
Proof. intros H [? ?]. split; auto. Qed.

Lemma perm_of_drawn (xs l : list A) : perm_of xs l → drawn xs l.
Proof. unfold perm_of. intros H x Hx. by rewrite <- H. Qed.

(** What the walks give for the state a run ends in. *)
Lemma engine_lives tag alg h d xs :
  h !! d = Some xs →
  wlp (engine val alg d) (mkState h ∅ [])
    (λ _ st',
       Forall (shows (drawn xs)) (yielded st') ∧
       (alg ≠ Insertion → alg ≠ Merge → Forall (shows (perm_of xs)) (yielded st')) ∧
       (alg = Bubble ∨ alg = Insertion → in_order val tag xs →
          ∃ l, heap st' !! fresh (dom h) = Some l ∧ in_order val tag l)).
Proof.
  intros Hd. destruct alg; simpl.
  - eapply wlp_mono; [by apply (bubble_sort_lives val tag)|].
    intros ? st [(l & Hl & Hperm & Hord) HG]. split_and!; [|done|by eauto].
    eapply Forall_impl; [done|]. intros f. apply shows_mono, perm_of_drawn.
  - eapply wlp_mono; [by apply (insertion_sort_lives val tag)|].
    intros ? st [(l & Hl & Hsub & Hord) HG]. split_and!; [done|done|by eauto].
  - eapply wlp_mono; [by apply selection_sort_lives|].
    intros ? st [(l & Hl & Hperm) HG]. split_and!; [|done|by intros [?|?]].
    eapply Forall_impl; [done|]. intros f. apply shows_mono, perm_of_drawn.
  - eapply wlp_mono; [by apply quick_sort_lives|].
    intros ? st [(l & Hl & Hperm) HG]. split_and!; [|done|by intros [?|?]].
    eapply Forall_impl; [done|]. intros f. apply shows_mono, perm_of_drawn.
  - eapply wlp_mono; [by apply merge_sort_lives|].
    intros ? st [(l & Hl & Hsub) HG]. split_and!; [done|done|by intros [?|?]].
Qed.

Lemma snapshots_show alg xs :
  ∃ tr, snapshots (engine val alg) xs = Some tr ∧
    Forall (λ s, array s ⊆ xs ∧ sorted_marks_finalized s) tr ∧
    (alg ≠ Insertion → alg ≠ Merge → Forall (λ s, array s ≡ₚ xs) tr).
Proof.
  destruct (engine_run val alg (caller_store xs) 0%nat xs) as (l' & F & gs & Hrun & _).
  { apply lookup_singleton_eq. }
  pose proof (engine_lives val alg (caller_store xs) 0%nat xs
                (lookup_singleton_eq _ _) _ _ Hrun) as (Hall & Hperm & _).
  unfold snapshots. rewrite Hrun. eexists. split; [done|]. split.
  - apply Forall_fmap. eapply Forall_impl; [done|]. by intros f [? ?].
  - intros H1 H2. apply Forall_fmap. eapply Forall_impl; [by apply Hperm|].
    by intros f [? ?].
Qed.
End ShownByRuns.

(** X5. Bubble sort, selection sort and quick sort only exchange values: in
    every snapshot of a run the array is a rearrangement of the input. *)
Theorem exchange_engines_show_permutations {A} (val : A → Z) (alg : algorithm)
    (xs : list A) :
  alg ≠ Insertion → alg ≠ Merge →
  ∃ tr, snapshots (engine val alg) xs = Some tr ∧ Forall (λ s, array s ≡ₚ xs) tr.
Proof.
  intros H1 H2. destruct (snapshots_show val alg xs) as (tr & Hsn & _ & Hperm).
  exists tr. auto.
Qed.

Lemma exchange_engines_show_permutations_witness :
  Quick ≠ Insertion ∧ Quick ≠ Merge ∧
  ∃ tr, snapshots (engine id Quick) [3; 1; 2; 1] = Some tr ∧
    Forall (λ s, array s ≡ₚ [3; 1; 2; 1]) tr.
Proof.
  split; [discriminate|]. split; [discriminate|].
  apply (exchange_engines_show_permutations id Quick [3; 1; 2; 1]); discriminate.
Defined.

(** X6. In every snapshot of every run, each value of the array is a value
    of the input: insertion sort and merge sort show arrays in which a
    value is missing and another one doubled, never a value from
    elsewhere. *)
Theorem snapshots_hold_input_values {A} (val : A → Z) (alg : algorithm) (xs : list A) :
  ∃ tr, snapshots (engine val alg) xs = Some tr ∧
    Forall (λ s, ∀ x, x ∈ array s → x ∈ xs) tr.
Proof.
  destruct (snapshots_show val alg xs) as (tr & Hsn & Hall & _).
  exists tr. split; [done|]. eapply Forall_impl; [done|]. by intros s [? _].
Qed.

(** X7. In every snapshot of every run, an index highlighted as SORTED is
    one of the snapshot's finalized indices. *)
Theorem sorted_highlights_are_finalized {A} (val : A → Z) (alg : algorithm)
    (xs : list A) :
  ∃ tr, snapshots (engine val alg) xs = Some tr ∧
    Forall (λ s, ∀ k, highlights s !! k = Some SORTED → k ∈ sorted_indices s) tr.
Proof.
  destruct (snapshots_show val alg xs) as (tr & Hsn & Hall & _).
  exists tr. split; [done|]. eapply Forall_impl; [done|]. by intros s [_ ?].
Qed.

(** X8. Bubble sort, insertion sort and merge sort are stable: if equal
    values of the input stand in the order of their tags, so do they in
    the sorted array of the last snapshot. *)
Theorem stable_engines {A} (val tag : A → Z) (alg : algorithm) (xs : list A) :
  alg ≠ Selection → alg ≠ Quick → in_order val tag xs →
  ∃ tr s, snapshots (engine val alg) xs = Some tr ∧ last tr = Some s ∧
    Sorted (le_val val) (array s) ∧ array s ≡ₚ xs ∧ in_order val tag (array s).
Proof.
  intros H1 H2 Hin.
  set (h := caller_store xs).
  assert (h !! 0%nat = Some xs) as Hd by apply lookup_singleton_eq.
  assert (∃ l' F gs,
            run (engine val alg) h 0%nat
            = Ok tt (St h (fresh (dom h)) l' F
                       (gs ++ [snap h (fresh (dom h)) l'
                                 (range_set (Z.of_nat (length xs))) [] (completion alg)])) ∧
            l' ≡ₚ xs ∧ nondecreasing val l' ∧ in_order val tag l')
    as (l' & F & gs & Hrun & Hperm & Hnd & Hord).
  { assert (alg = Merge ∨ alg ≠ Merge) as [->|Hm]
      by (destruct alg; (by left) || (by right)).
    - destruct (merge_sort_run val h (fresh (dom h)) (length xs) 0%nat xs Hd eq_refl eq_refl)
        as (l' & F & gs & Hrun & _ & Hperm & Hnd & _ & _ & Hord).
      exists l', F, gs. auto.
    - destruct (engine_run val alg h 0%nat xs Hd)
        as (l' & F & gs & Hrun & _ & Hperm & Hnd & _).
      exists l', F, gs. split_and!; [done..|].
      destruct (engine_lives val tag alg h 0%nat xs Hd _ _ Hrun) as (_ & _ & Hst).
      destruct Hst as (l & Hl & Hl'); [by destruct alg; auto|done|].
      rewrite heap_St in Hl. by simplify_eq. }
  unfold snapshots. fold h. rewrite Hrun. eexists _, _. split; [done|].
  unfold St. cbn [yielded]. rewrite fmap_app. cbn [fmap list_fmap].
  rewrite last_snoc. split; [done|]. simpl.
  split_and!; [by apply nondecreasing_Sorted|done..].
Qed.

Lemma stable_engines_witness :
  Merge ≠ Selection ∧ Merge ≠ Quick ∧
  in_order fst snd [(2, 0); (1, 1); (2, 2); (1, 3)] ∧
  ∃ tr s, snapshots (engine fst Merge) [(2, 0); (1, 1); (2, 2); (1, 3)] = Some tr ∧
    last tr = Some s ∧
    Sorted (le_val fst) (array s) ∧ array s ≡ₚ [(2, 0); (1, 1); (2, 2); (1, 3)] ∧
    in_order fst snd (array s).
Proof.
  assert (in_order fst snd [(2, 0); (1, 1); (2, 2); (1, 3)]) as Hin.
  { apply (bool_decide_unpack _). vm_compute. exact I. }
  split; [discriminate|]. split; [discriminate|]. split; [exact Hin|].
  apply (stable_engines fst snd Merge); [discriminate | discriminate | exact Hin].
Defined.

(** Selection sort and quick sort are not stable. *)
Lemma selection_and_quick_not_stable :
  ∀ alg, alg = Selection ∨ alg = Quick →
  ∃ tr s, snapshots (engine fst alg) [(2, 0); (2, 1); (1, 2)] = Some tr ∧
    last tr = Some s ∧ array s = [(1, 2); (2, 1); (2, 0)].
Proof.
  intros alg [-> | ->]; eexists _, _; (split; [vm_compute; reflexivity|]);
    split; reflexivity.
Qed.


(** ** Contracts of the recursive helpers *)

(** X9. A call [_quick_sort(arr, low, high)] on a subrange none of whose
    indices is finalized yet returns with the subrange in non-decreasing
    order, holding the values it held before; the positions outside
    [low .. high] are not written, and exactly the indices of the subrange
    are added to the finalized ones. *)
Theorem quick_sort_call {A} (val : A → Z) (h0 : gmap loc (list A)) (a : loc)
    (fuel : nat) (low high : Z) (l : list A) (F : gset Z) (gs : list (Frame A)) :
  0 ≤ low → low ≤ high + 1 → high < Z.of_nat (length l) →
  high - low + 1 < Z.of_nat fuel →
  set_in_range (length l) F → (∀ k, low ≤ k ≤ high → k ∉ F) →
  ∃ l' new,
    _quick_sort val fuel a low high (St h0 a l F gs)
    = Ok tt (St h0 a l' (list_to_set (range low (high + 1)) ∪ F) (gs ++ new)) ∧
    l' ≡ₚ l ∧
    (∀ p : nat, Z.of_nat p < low ∨ high < Z.of_nat p → l' !! p = l !! p) ∧
    (∀ (p q : nat) x y, low ≤ Z.of_nat p → (p < q)%nat → Z.of_nat q ≤ high →
       l' !! p = Some x → l' !! q = Some y → val x ≤ val y) ∧
    (low ≤ high → new ≠ []).
Proof.
  intros Hlow Hle Hhigh Hfuel HF Hfresh.
  set (lo := Z.to_nat low). set (e := Z.to_nat (high + 1)).
  destruct (quick_sort_rec_wp val h0 a (length l) fuel lo e l F gs)
    as ([] & st' & Hrun & l' & new & -> & _ & Hperm & Hso & _ & Hsorted & _ & Hem & _);
    [lia | lia | lia | done | done | |].
  { intros k Hk. apply Hfresh. lia. }
  replace (Z.of_nat lo) with low in Hrun by lia.
  replace (Z.of_nat e - 1) with high in Hrun by lia.
  replace (Z.of_nat e) with (high + 1) in Hrun by lia.
  exists l', new. split_and!; [done | done | | |].
  - intros p Hp. apply Hso. lia.
  - intros p q x y Hp Hpq Hq. apply Hsorted; lia.
  - intros Hne. destruct Hem as [Hem _].
    destruct Hem as (gs' & f & -> & _); [lia|]. by destruct gs'.
Qed.

Lemma quick_sort_call_witness :
  ∃ l' new,
    _quick_sort id 5 0%nat 1 3 (St ∅ 0%nat [9; 3; 1; 2; 0] ∅ [])
    = Ok tt (St ∅ 0%nat l' (list_to_set (range 1 (3 + 1)) ∪ ∅) ([] ++ new)) ∧
    l' = [9; 1; 2; 3; 0] ∧ new ≠ [].
Proof.
  destruct (quick_sort_call id ∅ 0%nat 5 1 3 [9; 3; 1; 2; 0] ∅ [])
    as (l' & new & Hrun & _ & _ & _ & Hnew);
    [lia | lia | simpl; lia | lia | | |].
  - intros k Hk. exfalso. revert Hk. apply not_elem_of_empty.
  - intros k _. apply not_elem_of_empty.
  - exists l', new. split; [exact Hrun|].
    split; [|apply Hnew; lia].
    assert (Ok tt (St ∅ 0%nat l' (list_to_set (range 1 (3 + 1)) ∪ ∅) ([] ++ new))
            = _quick_sort id 5 0%nat 1 3 (St ∅ 0%nat [9; 3; 1; 2; 0] ∅ [])) as Heq
      by (symmetry; exact Hrun).
    vm_compute in Heq. injection Heq as Hl _. exact Hl.
Defined.

(** X10. A call [_merge_sort(arr, start, end)] on a subrange of the list
    returns with the subrange in non-decreasing order, holding the values
    it held before, equal values in the order they had; the positions
    outside [start .. end] are not written, and the indices of the
    subrange are added to the finalized ones. *)
Theorem merge_sort_call {A} (val : A → Z) (h0 : gmap loc (list A)) (a : loc)
    (fuel : nat) (start end_ : Z) (l : list A) (F : gset Z) (gs : list (Frame A)) :
  0 ≤ start → start ≤ end_ → end_ < Z.of_nat (length l) →
  end_ - start < Z.of_nat fuel → set_in_range (length l) F →
  ∃ seg new,
    _merge_sort val fuel a start end_ (St h0 a l F gs)
    = Ok tt (St h0 a (take (Z.to_nat start) l ++ seg ++ drop (Z.to_nat (end_ + 1)) l)
               (list_to_set (range start (end_ + 1)) ∪ F) (gs ++ new)) ∧
    seg ≡ₚ take (Z.to_nat (end_ + 1 - start)) (drop (Z.to_nat start) l) ∧
    Sorted (le_val val) seg ∧
    (∀ tag, in_order val tag (take (Z.to_nat (end_ + 1 - start)) (drop (Z.to_nat start) l)) →
            in_order val tag seg).
Proof.
  intros Hstart Hle Hend Hfuel HF.
  set (s := Z.to_nat start). set (e := Z.to_nat end_).
  destruct (merge_sort_rec_wp val h0 a (length l) fuel s e l F gs)
    as ([] & st' & Hrun & seg & new & -> & Hlen & Hperm & Hsorted & Htr & Hord);
    [lia | lia | lia | done | done |].
  replace (Z.of_nat s) with start in * by lia.
  replace (Z.of_nat e) with end_ in * by lia.
  replace (Z.to_nat (end_ + 1 - start)) with (e + 1 - s)%nat by lia.
  exists seg, new. split_and!; [| done | done | done].
  rewrite Hrun. unfold overwrite. do 5 f_equal. lia.
Qed.

Lemma merge_sort_call_witness :
  ∃ seg new,
    _merge_sort id 3 0%nat 1 3 (St ∅ 0%nat [9; 3; 1; 2; 0] ∅ [])
    = Ok tt (St ∅ 0%nat (take (Z.to_nat 1) [9; 3; 1; 2; 0] ++ seg
                          ++ drop (Z.to_nat (3 + 1)) [9; 3; 1; 2; 0])
               (list_to_set (range 1 (3 + 1)) ∪ ∅) ([] ++ new)) ∧
    seg ≡ₚ [3; 1; 2] ∧ Sorted (le_val id) seg.
Proof.
  destruct (merge_sort_call id ∅ 0%nat 3 1 3 [9; 3; 1; 2; 0] ∅ [])
    as (seg & new & Hrun & Hperm & Hsorted & _);
    [lia | lia | simpl; lia | lia | |].
  - intros k Hk. exfalso. revert Hk. apply not_elem_of_empty.
  - exists seg, new. split; [exact Hrun|]. split; [exact Hperm|exact Hsorted].
Defined.


(** * The visualizer and the application *)

(** ** [settings.py] *)

Module settings.
Definition SCREEN_WIDTH : Z := 960.
Definition SCREEN_HEIGHT : Z := 540.

Definition ARRAY_SIZE : Z := 100.
Definition ARRAY_MIN_VALUE : Z := 10.
Definition ARRAY_MAX_VALUE : Z := SCREEN_HEIGHT - 100.

Definition INITIAL_DELAY_MS : Z := 40.
Definition MIN_DELAY_MS : Z := 5.
Definition MAX_DELAY_MS : Z := 200.
Definition DELAY_STEP_MS : Z := 5.

Definition BAR_COLOR : Z * Z * Z := (100, 180, 255).
Definition COMPARE_COLOR : Z * Z * Z := (255, 99, 71).
Definition SWAP_COLOR : Z * Z * Z := (255, 215, 0).
Definition SORTED_COLOR : Z * Z * Z := (80, 220, 120).
Definition PIVOT_COLOR : Z * Z * Z := (186, 85, 211).

Definition FINISH_EFFECT_DURATION_MS : Z := 1200.
End settings.

(** ** [visualizer.py] *)

(** A [pygame.Color] built from an RGB triple (its alpha is always 255). *)
Definition Color : Type := Z * Z * Z.

(** The state of an [ArrayVisualizer] that its methods read and write:
    whether a click sound was loaded, and [_finish_start_ticks]. *)
Record ArrayVisualizer := mkArrayVisualizer {
  click_sound : bool;
  _finish_start_ticks : option Z
}.

Definition _calculate_bar_width (count : Z) : Z :=
  if count =? 0 then settings.SCREEN_WIDTH
  else Z.max 2 (settings.SCREEN_WIDTH `div` count).

Definition _resolve_color {A} (index : Z) (state : SortState A)
    (finish_effect : option Color) : Color :=
  match finish_effect with
  | Some c => c
  | None =>
      let highlight := highlights state !! index in
      if decide (highlight = Some COMPARE) then settings.COMPARE_COLOR
      else if decide (highlight = Some SWAP) then settings.SWAP_COLOR
      else if decide (highlight = Some PIVOT) then settings.PIVOT_COLOR
      else if decide (index ∈ sorted_indices state) then settings.SORTED_COLOR
      else settings.BAR_COLOR
  end.

Definition _contains_swap {A} (state : SortState A) : bool :=
  existsb (λ p, bool_decide (p.2 = SWAP)) (map_to_list (highlights state)).

(** [play_swap_sound]: whether the clip is played. *)
Definition play_swap_sound {A} (self : ArrayVisualizer) (state : SortState A) : bool :=
  click_sound self && _contains_swap state.

Section FinishEffect.
(** The colour of the glow, [elapsed] milliseconds into the effect: the
    source computes it in floating point from a sine of [elapsed]; it
    is a parameter here. *)
Context (boosted : Z → Color).

(** [_compute_finish_effect], at tick [current_ticks]: the colour
    returned and the visualizer it leaves. *)
Definition _compute_finish_effect {A} (self : ArrayVisualizer) (state : SortState A)
    (array_length : Z) (current_ticks : Z) : option Color * ArrayVisualizer :=
  if array_length =? 0 then (None, self)
  else
    let all_sorted := Z.of_nat (length (sorted_indices state)) =? array_length in
    if all_sorted then
      let start := match _finish_start_ticks self with
                   | None => current_ticks
                   | Some t => t
                   end in
      let self := mkArrayVisualizer (click_sound self) (Some start) in
      let elapsed := current_ticks - start in
      if elapsed <=? settings.FINISH_EFFECT_DURATION_MS
      then (Some (boosted elapsed), self)
      else (Some settings.SORTED_COLOR, self)
    else (None, mkArrayVisualizer (click_sound self) None).

(** [max(array_values) if array_values else 1] *)
Definition max_value (array_values : list Z) : Z :=
  match array_values with
  | [] => 1
  | x :: xs => foldl Z.max x xs
  end.

(** The bars of [draw], without their vertical extent (the height of a
    bar is computed in floating point): for each index the left edge
    [x_pos], the width and the colour of its rectangle.  The height is
    [value / max_value] scaled, a division that raises
    [ZeroDivisionError] when [max_value] is 0: [None].  Headers and
    description are text rendering and left out. *)
Definition draw (self : ArrayVisualizer) (state : SortState Z)
    (current_ticks : Z) : option (list (Z * Z * Color)) * ArrayVisualizer :=
  let array_values := array state in
  let count := Z.of_nat (length array_values) in
  let bar_width := _calculate_bar_width count in
  let max_value := max_value array_values in
  let '(finish_effect, self) := _compute_finish_effect self state count current_ticks in
  (if bool_decide (array_values ≠ []) && (max_value =? 0) then None
   else Some (imap (λ index _,
                 let x_pos := Z.of_nat index * bar_width in
                 (x_pos, bar_width - 1, _resolve_color (Z.of_nat index) state finish_effect))
              array_values),
   self).
End FinishEffect.

(** *** Bar geometry *)

Lemma _calculate_bar_width_bounds (count : Z) :
  0 ≤ count →
  2 ≤ _calculate_bar_width count ∧
  (count ≤ 480 → count * _calculate_bar_width count ≤ settings.SCREEN_WIDTH) ∧
  (480 < count → _calculate_bar_width count = 2).
Proof.
  intros Hc. unfold _calculate_bar_width, settings.SCREEN_WIDTH.
  destruct (Z.eqb_spec count 0) as [->|Hne]; [lia|].
  pose proof (Z.mul_div_le 960 count ltac:(lia)).
  split_and!; [lia | lia |].
  intros Hbig. assert (960 `div` count < 2); [|lia].
  apply Z.div_lt_upper_bound; lia.
Qed.

(** X11. With at most 480 values every bar of [draw] lies on the screen, is
    at least one pixel wide and leaves a gap of one pixel before the
    next one; with more, the bars are two pixels apart and the last ones
    are off the screen. *)
Theorem bars_fit_the_screen (boosted : Z → Color) (self : ArrayVisualizer)
    (state : SortState Z) (current_ticks : Z) (bars : list (Z * Z * Color)) :
  (draw boosted self state current_ticks).1 = Some bars →
  length bars = length (array state) ∧
  (∀ (i : nat) x w c, bars !! i = Some (x, w, c) →
     0 ≤ x ∧ 1 ≤ w ∧
     ((length bars ≤ 480)%nat → x + w < settings.SCREEN_WIDTH) ∧
     ∀ x' w' c', bars !! S i = Some (x', w', c') → x' = x + w + 1) ∧
  ((480 < length bars)%nat →
     ∃ x w c, last bars = Some (x, w, c) ∧ settings.SCREEN_WIDTH ≤ x).
Proof.
  unfold draw.
  destruct (_compute_finish_effect boosted self state _ current_ticks) as [fe self'].
  cbn [fst]. destruct (_ && _); [done|]. intros [= <-].
  set (n := length (array state)).
  destruct (_calculate_bar_width_bounds (Z.of_nat n)) as (Hw & Hfit & Hbig); [lia|].
  set (bw := _calculate_bar_width (Z.of_nat n)) in *.
  assert (∀ i x w c,
            imap (λ index _, (Z.of_nat index * bw, bw - 1,
                               _resolve_color (Z.of_nat index) state fe)) (array state) !! i
            = Some (x, w, c) →
            (i < n)%nat ∧ x = Z.of_nat i * bw ∧ w = bw - 1) as Hlk.
  { intros i x w c Hi. rewrite list_lookup_imap in Hi.
    destruct (array state !! i) as [v|] eqn:Hv; [|done]. simpl in Hi. simplify_eq.
    apply lookup_lt_Some in Hv. done. }
  rewrite length_imap. split_and!; [done | |].
  - intros i x w c Hi. apply Hlk in Hi as (Hi & -> & ->).
    split_and!; [lia | lia | |].
    + intros Hn. fold n in Hn. specialize (Hfit ltac:(lia)). nia.
    + intros x' w' c' Hi'. apply Hlk in Hi' as (_ & -> & ->). lia.
  - fold n. intros Hn. rewrite Hbig in * by lia.
    destruct (array state) as [|v l] eqn:Harr using rev_ind; [simpl in n; lia|].
    clear IHl. rewrite imap_app. simpl. rewrite last_snoc. eexists _, _, _.
    split; [done|]. unfold n in Hn. rewrite length_app in Hn. simpl in Hn.
    unfold settings.SCREEN_WIDTH. lia.
Qed.

Lemma bars_fit_the_screen_witness :
  ∃ bars,
    (draw (λ _, (0, 0, 0)) (mkArrayVisualizer false None)
       (mkSortState [3; 1; 2] (highlight_dict [(0, COMPARE); (1, COMPARE)]) [2] "") 0).1
    = Some bars ∧
    bars = [(0, 319, settings.COMPARE_COLOR); (320, 319, settings.COMPARE_COLOR);
            (640, 319, settings.SORTED_COLOR)] ∧
    length bars = 3%nat.
Proof.
  eexists. split; [vm_compute; reflexivity|]. split; [reflexivity|].
  apply (bars_fit_the_screen (λ _, (0, 0, 0)) (mkArrayVisualizer false None)
           (mkSortState [3; 1; 2] (highlight_dict [(0, COMPARE); (1, COMPARE)]) [2] "") 0).
  vm_compute. reflexivity.
Defined.

(** *** Colours and the finish effect along a run *)

(** X12. In every snapshot of every run, a bar whose index is highlighted as
    SORTED is drawn in the colour of the finalized bars, as long as the
    finish effect is off: [_resolve_color] ignores the SORTED highlight
    itself, and the engines highlight as SORTED only indices they have
    finalized. *)
Theorem sorted_highlight_is_drawn_sorted {A} (val : A → Z) (alg : algorithm)
    (xs : list A) :
  ∃ tr, snapshots (engine val alg) xs = Some tr ∧
    Forall (λ s, ∀ k, highlights s !! k = Some SORTED →
                   _resolve_color k s None = settings.SORTED_COLOR) tr.
Proof.
  destruct (snapshots_show val alg xs) as (tr & Hsn & Hall & _).
  exists tr. split; [done|]. eapply Forall_impl; [done|].
  intros s [_ Hs] k Hk. unfold _resolve_color. cbn zeta. rewrite Hk.
  rewrite !decide_False by done. by rewrite decide_True by by apply Hs.
Qed.

(** A frame that leaves an index of the array out of its finalized
    indices lists fewer finalized indices than the array has values. *)
Lemma unfinished_length {A} (h0 : gmap loc (list A)) a n done_ F (f : Frame A) :
  frame_ok h0 a n done_ F f → unfinished n f →
  length (array (snapshot f)) = n ∧ (length (sorted_indices (snapshot f)) < n)%nat.
Proof.
  intros Hok (k & Hk & Hnot).
  apply frame_ok_snapshot in Hok as (Hlen & _ & _ & Hsi & _ & HF).
  split; [done|]. rewrite Hsi in Hnot |- *. rewrite length_sorted_tuple.
  rewrite elem_of_sorted_tuple in Hnot.
  assert (F ⊆ range_set (Z.of_nat n) ∖ {[k]}) as Hsub.
  { intros j Hj. apply elem_of_difference. split.
    - by apply elem_of_range_set, HF.
    - intros ->%elem_of_singleton. done. }
  apply subseteq_size in Hsub.
  rewrite size_difference in Hsub
    by (apply singleton_subseteq_l; by apply elem_of_range_set).
  rewrite size_singleton in Hsub.
  assert (size (range_set (Z.of_nat n)) = n) as Hsize.
  { unfold range_set. rewrite size_list_to_set by apply NoDup_seqZ.
    rewrite length_seqZ. lia. }
  lia.
Qed.

(** X13. While bubble, insertion, selection or quick sort runs, the finish
    effect stays off and forgets its start tick: it can only come on at
    one of the last two snapshots, and on a non-empty input it is on at
    the completion snapshot. *)
Theorem finish_effect_waits_for_the_end {A} (val : A → Z) (boosted : Z → Color)
    (alg : algorithm) (xs : list A) :
  alg ≠ Merge →
  ∃ tr, snapshots (engine val alg) xs = Some tr ∧
    (∀ (i : nat) s, tr !! i = Some s → (i + 2 < length tr)%nat →
       ∀ self t,
         _compute_finish_effect boosted self s (Z.of_nat (length (array s))) t
         = (None, mkArrayVisualizer (click_sound self) None)) ∧
    (xs ≠ [] → ∀ s, last tr = Some s →
       ∀ self t, ∃ c,
         (_compute_finish_effect boosted self s (Z.of_nat (length (array s))) t).1 = Some c).
Proof.
  intros Halg.
  destruct (snapshots_run val alg xs)
    as (l' & F & gs & Hsn & Hlen & _ & _ & Htr & _ & Hearly & _).
  specialize (Hearly Halg).
  eexists. split; [exact Hsn|]. split.
  - intros i s Hi Hlt self t.
    rewrite length_app, length_fmap in Hlt. simpl in Hlt.
    destruct gs as [|f gs' _] using rev_ind; [simpl in Hlt; lia|].
    rewrite length_app in Hlt. simpl in Hlt.
    specialize (Hearly gs' f eq_refl).
    rewrite fmap_app, <- app_assoc in Hi.
    rewrite lookup_app_l in Hi by (rewrite length_fmap; lia).
    apply list_lookup_fmap_Some in Hi as (g & -> & Hg).
    apply list_elem_of_lookup_2 in Hg.
    rewrite Forall_forall in Hearly. specialize (Hearly g Hg).
    destruct (trace_ok_elem _ _ _ _ _ _ _ g Htr) as (T & _ & _ & Hok);
      [apply elem_of_app; by left|].
    destruct (unfinished_length _ _ _ _ _ _ Hok Hearly) as [Hl Hs].
    unfold _compute_finish_effect. rewrite Hl.
    destruct (Z.eqb_spec (Z.of_nat (length xs)) 0) as [Hz|_]; [lia|].
    destruct (Z.eqb_spec (Z.of_nat (length (sorted_indices (snapshot g))))
                (Z.of_nat (length xs))); [lia|done].
  - intros Hne s Hs self t. rewrite last_snoc in Hs. simplify_eq.
    unfold _compute_finish_effect. simpl.
    rewrite sorted_tuple_range_set, length_seqZ, Hlen.
    destruct (Z.eqb_spec (Z.of_nat (length xs)) 0) as [Hz|_].
    { destruct xs; [done|simpl in Hz; lia]. }
    rewrite Z2Nat.id, Z.eqb_refl by lia.
    destruct (_ <=? _); eauto.
Qed.

Lemma finish_effect_waits_for_the_end_witness :
  Bubble ≠ Merge ∧
  ∃ tr, snapshots (engine id Bubble) [5; 1] = Some tr ∧ length tr = 5%nat ∧
    ∀ (i : nat) s, tr !! i = Some s → (i + 2 < length tr)%nat →
      ∀ self t,
        _compute_finish_effect (λ _, (0, 0, 0)) self s (Z.of_nat (length (array s))) t
        = (None, mkArrayVisualizer (click_sound self) None).
Proof.
  split; [discriminate|].
  destruct (finish_effect_waits_for_the_end id (λ _, (0, 0, 0)) Bubble [5; 1])
    as (tr & Hsn & Hoff & _); [discriminate|].
  exists tr. split; [exact Hsn|]. split; [|exact Hoff].
  assert (Some tr = snapshots (engine id Bubble) [5; 1]) as Heq by (symmetry; exact Hsn).
  vm_compute in Heq. injection Heq as ->. reflexivity.
Defined.

(** Merge sort turns the finish effect on while it is still sorting: on
    [[2, 1]] already at the second of seven snapshots. *)
Lemma merge_sort_early_finish_effect :
  ∃ tr s, snapshots (merge_sort id) [2; 1] = Some tr ∧ length tr = 7%nat ∧
    tr !! 1%nat = Some s ∧ array s = [2; 1] ∧
    (_compute_finish_effect (λ _, (0, 0, 0)) (mkArrayVisualizer false None) s 2 0).1
    = Some (0, 0, 0).
Proof.
  eexists _, _. split; [vm_compute; reflexivity|]. split_and!; reflexivity.
Qed.

(** *** The division in [draw] *)

Lemma max_value_elem (l : list Z) : l ≠ [] → max_value l ∈ l.
Proof.
  destruct l as [|x l]; [done|]. intros _. simpl.
  assert (∀ m, foldl Z.max m l = m ∨ foldl Z.max m l ∈ l) as H.
  { induction l as [|y l IH]; intros m; simpl; [by left|].
    destruct (IH (Z.max m y)) as [->|?]; [|right; by right].
    destruct (Z.max_spec m y) as [[_ ->]|[_ ->]]; [right; left|by left]. }
  destruct (H x) as [->|?]; [left|by right].
Qed.



(** A snapshot whose array is all zeros cannot be drawn. *)
Lemma draw_divides_by_zero (boosted : Z → Color) self t :
  (draw boosted self (mkSortState [0; 0] ∅ [] "") t).1 = None.
Proof. reflexivity. Qed.


(** ** [main.py] *)

(** The keys the application tells apart; [K_OTHER] is any other key. *)
Inductive Key :=
| K_ESCAPE | K_r | K_1 | K_2 | K_3 | K_4 | K_5
| K_MINUS | K_KP_MINUS | K_EQUALS | K_PLUS | K_KP_PLUS | K_SPACE | K_OTHER.

#[global] Instance Key_eq_dec : EqDecision Key.
Proof. solve_decision. Defined.

Inductive Event := QUIT | KEYDOWN (key : Key) | OTHER_EVENT.

(** The dictionary of [_build_algorithm_map], by key; an engine function
    is named by its [algorithm]. *)
Definition _build_algorithm_map : list (Key * (string * algorithm)) :=
  [ (K_1, ("Bubble Sort", Bubble));
    (K_2, ("Insertion Sort", Insertion));
    (K_3, ("Selection Sort", Selection));
    (K_4, ("Quick Sort", Quick));
    (K_5, ("Merge Sort", Merge)) ].

(** [d[key]], [None] for a [KeyError]. *)
Fixpoint dict_get {V} (d : list (Key * V)) (key : Key) : option V :=
  match d with
  | [] => None
  | (k, v) :: d => if decide (k = key) then Some v else dict_get d key
  end.

(** [random.randint(a, b)], an integer between [a] and [b], both
    included; [r] is the randomness consumed. *)
Definition randint (a b : Z) (r : Z) : Z := a + r `mod` (b - a + 1).

(** The application: the fields of [SortApp] that its methods read and
    write.  [objects] holds the list objects alive, [data] is the
    location of [self.data]; [state_iter] holds the snapshots the
    generator has still to yield, each with the objects as they are
    when it is yielded; [algorithm_name_] is [self.algorithm_name]. *)
Record SortApp := mkSortApp {
  visualizer : ArrayVisualizer;
  active_key : Key;
  algorithm_name_ : string;
  algorithm_fn : algorithm;
  delay_ms : Z;
  paused : bool;
  sort_complete : bool;
  _last_step_tick : Z;
  _running : bool;
  objects : gmap loc (list Z);
  data : loc;
  state_iter : list (Frame Z);
  current_state : SortState Z
}.

(** [iter(algorithm_fn(data))]: the snapshots of the run; [None] if the
    engine raises. *)
Definition generator (fn : algorithm) (h : gmap loc (list Z)) (d : loc)
  : option (list (Frame Z)) :=
  match run (engine id fn) h d with
  | Ok _ st => Some (yielded st)
  | Raise _ => None
  end.

(** [SortState(array=tuple(data))] *)
Definition initial_state (xs : list Z) : SortState Z := mkSortState xs ∅ [] "".

(** Methods return [None] when an exception escapes them. [now] is
    what [pygame.time.get_ticks()] returns, [rand] the randomness that
    [_generate_data] consumes. *)

Definition _adjust_delay (delta : Z) (self : SortApp) : SortApp :=
  mkSortApp (visualizer self) (active_key self) (algorithm_name_ self) (algorithm_fn self)
    (Z.max settings.MIN_DELAY_MS (Z.min settings.MAX_DELAY_MS (delay_ms self + delta)))
    (paused self) (sort_complete self) (_last_step_tick self) (_running self)
    (objects self) (data self) (state_iter self) (current_state self).

Definition _generate_data (rand : nat → Z) : list Z :=
  (λ k, randint settings.ARRAY_MIN_VALUE settings.ARRAY_MAX_VALUE (rand k))
    <$> seq 0 (Z.to_nat settings.ARRAY_SIZE).

Definition _start_algorithm (now : Z) (self : SortApp) : option SortApp :=
  it ← generator (algorithm_fn self) (objects self) (data self);
  xs ← objects self !! data self;
  Some (mkSortApp (visualizer self) (active_key self) (algorithm_name_ self)
          (algorithm_fn self) (delay_ms self) (paused self) false now (_running self)
          (objects self) (data self) it (initial_state xs)).

Definition _restart_with_shuffle (rand : nat → Z) (now : Z) (self : SortApp)
  : option SortApp :=
  let d := fresh (dom (objects self)) in
  _start_algorithm now
    (mkSortApp (visualizer self) (active_key self) (algorithm_name_ self)
       (algorithm_fn self) (delay_ms self) (paused self) (sort_complete self)
       (_last_step_tick self) (_running self)
       (<[d := _generate_data rand]> (objects self)) d
       (state_iter self) (current_state self)).

Definition _switch_algorithm (key : Key) (now : Z) (self : SortApp) : option SortApp :=
  entry ← dict_get _build_algorithm_map key;
  _start_algorithm now
    (mkSortApp (visualizer self) key entry.1 entry.2
       (delay_ms self) (paused self) (sort_complete self)
       (_last_step_tick self) (_running self)
       (objects self) (data self) (state_iter self) (current_state self)).

Definition _handle_key (key : Key) (rand : nat → Z) (now : Z) (self : SortApp)
  : option SortApp :=
  if decide (key = K_ESCAPE) then
    Some (mkSortApp (visualizer self) (active_key self) (algorithm_name_ self)
            (algorithm_fn self) (delay_ms self) (paused self) (sort_complete self)
            (_last_step_tick self) false
            (objects self) (data self) (state_iter self) (current_state self))
  else if decide (key = K_r) then _restart_with_shuffle rand now self
  else if decide (is_Some (dict_get _build_algorithm_map key)) then
    _switch_algorithm key now self
  else if decide (key ∈ [K_MINUS; K_KP_MINUS]) then
    Some (_adjust_delay settings.DELAY_STEP_MS self)
  else if decide (key ∈ [K_EQUALS; K_PLUS; K_KP_PLUS]) then
    Some (_adjust_delay (- settings.DELAY_STEP_MS) self)
  else if decide (key = K_SPACE) then
    Some (mkSortApp (visualizer self) (active_key self) (algorithm_name_ self)
            (algorithm_fn self) (delay_ms self) (negb (paused self)) (sort_complete self)
            (_last_step_tick self) (_running self)
            (objects self) (data self) (state_iter self) (current_state self))
  else Some self.

(** One event of [pygame.event.get()], with what the environment
    returns while it is handled. *)
Definition _handle_event (ev : Event * (nat → Z) * Z) (self : SortApp) : option SortApp :=
  match ev.1.1 with
  | QUIT =>
      Some (mkSortApp (visualizer self) (active_key self) (algorithm_name_ self)
              (algorithm_fn self) (delay_ms self) (paused self) (sort_complete self)
              (_last_step_tick self) false
              (objects self) (data self) (state_iter self) (current_state self))
  | KEYDOWN key => _handle_key key ev.1.2 ev.2 self
  | OTHER_EVENT => Some self
  end.

Fixpoint _handle_events (events : list (Event * (nat → Z) * Z)) (self : SortApp)
  : option SortApp :=
  match events with
  | [] => Some self
  | ev :: events => self ← _handle_event ev self; _handle_events events self
  end.

(** [_update_state]: the application it leaves and whether the click
    was played. *)
Definition _update_state (now : Z) (self : SortApp) : SortApp * bool :=
  if paused self || sort_complete self then (self, false)
  else if now - _last_step_tick self <? delay_ms self then (self, false)
  else
    match state_iter self with
    | [] =>
        (mkSortApp (visualizer self) (active_key self) (algorithm_name_ self)
           (algorithm_fn self) (delay_ms self) (paused self) true
           (_last_step_tick self) (_running self)
           (objects self) (data self) [] (current_state self), false)
    | next :: rest =>
        let next_state := snapshot next in
        (mkSortApp (visualizer self) (active_key self) (algorithm_name_ self)
           (algorithm_fn self) (delay_ms self) (paused self) (sort_complete self)
           now (_running self)
           (store_at next) (data self) rest next_state,
         play_swap_sound (visualizer self) next_state)
    end.

(** [SortApp.__init__]: [click] tells whether the mixer came up and a
    click sound was made. *)
Definition __init__ (click : bool) (rand : nat → Z) (now : Z) : option SortApp :=
  entry ← dict_get _build_algorithm_map K_1;
  let xs := _generate_data rand in
  _start_algorithm now
    (mkSortApp (mkArrayVisualizer click None) K_1 entry.1 entry.2
       settings.INITIAL_DELAY_MS false false 0 true
       {[ 0%nat := xs ]} 0%nat [] (initial_state xs)).

(** One turn of the loop of [SortApp.run]: the events pending, the tick
    at which the state is updated and the tick at which it is drawn. *)
Record Turn := mkTurn {
  events : list (Event * (nat → Z) * Z);
  update_ticks : Z;
  draw_ticks : Z
}.

Section Loop.
Context (boosted : Z → Color).

Definition turn (t : Turn) (self : SortApp) : option SortApp :=
  self ← _handle_events (events t) self;
  let self := (_update_state (update_ticks t) self).1 in
  let '(bars, vis) := draw boosted (visualizer self) (current_state self) (draw_ticks t) in
  _ ← bars;
  Some (mkSortApp vis (active_key self) (algorithm_name_ self)
          (algorithm_fn self) (delay_ms self) (paused self) (sort_complete self)
          (_last_step_tick self) (_running self)
          (objects self) (data self) (state_iter self) (current_state self)).

(** [SortApp.run], over the turns the environment provides. *)
Fixpoint SortApp_run (turns : list Turn) (self : SortApp) : option SortApp :=
  match turns with
  | [] => Some self
  | t :: turns =>
      if _running self then self ← turn t self; SortApp_run turns self
      else Some self
  end.
End Loop.

(** *** What a generator holds *)

Lemma generator_spec (fn : algorithm) (h : gmap loc (list Z)) (d : loc) (xs : list Z) :
  h !! d = Some xs →
  ∃ fs f,
    generator fn h d = Some (fs ++ [f]) ∧
    Forall (λ g, store_at g !! d = Some xs ∧
                 length (array (snapshot g)) = length xs ∧
                 array (snapshot g) ⊆ xs) (fs ++ [f]) ∧
    Sorted Z.le (array (snapshot f)) ∧ array (snapshot f) ≡ₚ xs ∧
    sorted_indices (snapshot f) = seqZ 0 (Z.of_nat (length xs)) ∧
    description (snapshot f) = completion fn.
Proof.
  intros Hd.
  destruct (engine_run id fn h d xs Hd)
    as (l' & F & gs & Hrun & Hlen & Hperm & Hnd & Htr & _).
  destruct (engine_lives id id fn h d xs Hd _ _ Hrun) as (Hall & _).
  set (a := fresh (dom h)) in *.
  assert (h !! a = None) as Ha by apply not_elem_of_dom, is_fresh.
  assert (a ≠ d) as Hne by congruence.
  exists gs, (snap h a l' (range_set (Z.of_nat (length xs))) [] (completion fn)).
  unfold generator. rewrite Hrun. split; [done|]. split_and!.
  - unfold St in Hall. cbn [yielded] in Hall.
    apply Forall_forall. intros g Hg.
    rewrite Forall_forall in Hall. destruct (Hall g Hg) as [Hsub _].
    split_and!; [| |done].
    + apply elem_of_app in Hg as [Hg|Hg%list_elem_of_singleton].
      * destruct (trace_ok_elem _ _ _ _ _ _ _ _ Htr Hg)
          as (T & _ & _ & l & hl & dsc & -> & _).
        simpl. by rewrite lookup_insert_ne.
      * subst g. simpl. by rewrite lookup_insert_ne.
    + apply elem_of_app in Hg as [Hg|Hg%list_elem_of_singleton].
      * destruct (trace_ok_elem _ _ _ _ _ _ _ _ Htr Hg) as (T & _ & _ & Hok).
        by apply frame_ok_snapshot in Hok as (? & _).
      * by subst g.
  - simpl. by apply (nondecreasing_Sorted id).
  - done.
  - simpl. apply sorted_tuple_range_set.
  - done.
Qed.

(** *** States of the application *)

Definition in_bounds (xs : list Z) : Prop :=
  Forall (λ v, settings.ARRAY_MIN_VALUE ≤ v ≤ settings.ARRAY_MAX_VALUE) xs.

(** What holds of the application whenever a method is entered: the
    delay is within its bounds and a multiple of the delay step, the
    active algorithm is the one bound to
    the active key, [self.data] is a list of [ARRAY_SIZE] values within
    the configured bounds, and what is shown and what the generator has
    still to yield are arrays of that size over the values of the data,
    yielded without touching the data. *)
Record app_ok (self : SortApp) : Prop := mk_app_ok {
  ok_delay : settings.MIN_DELAY_MS ≤ delay_ms self ≤ settings.MAX_DELAY_MS;
  ok_delay_step : (settings.DELAY_STEP_MS | delay_ms self);
  ok_algorithm :
    dict_get _build_algorithm_map (active_key self)
    = Some (algorithm_name_ self, algorithm_fn self);
  ok_data : ∃ xs,
    objects self !! data self = Some xs ∧
    length xs = Z.to_nat settings.ARRAY_SIZE ∧ in_bounds xs ∧
    length (array (current_state self)) = length xs ∧
    array (current_state self) ⊆ xs ∧
    Forall (λ g, store_at g !! data self = Some xs ∧
                 length (array (snapshot g)) = length xs ∧
                 array (snapshot g) ⊆ xs) (state_iter self)
}.

Lemma _generate_data_in_bounds rand :
  length (_generate_data rand) = Z.to_nat settings.ARRAY_SIZE ∧
  in_bounds (_generate_data rand).
Proof.
  unfold _generate_data. split; [by rewrite length_fmap, length_seq|].
  apply Forall_fmap, Forall_forall. intros k _. simpl.
  unfold randint, settings.ARRAY_MIN_VALUE, settings.ARRAY_MAX_VALUE,
    settings.SCREEN_HEIGHT.
  pose proof (Z.mod_pos_bound (rand k) (540 - 100 - 10 + 1) ltac:(lia)). lia.
Qed.

Lemma _adjust_delay_ok delta d :
  settings.MIN_DELAY_MS ≤ d ≤ settings.MAX_DELAY_MS → (settings.DELAY_STEP_MS | d) →
  delta = settings.DELAY_STEP_MS ∨ delta = - settings.DELAY_STEP_MS →
  let d' := Z.max settings.MIN_DELAY_MS (Z.min settings.MAX_DELAY_MS (d + delta)) in
  settings.MIN_DELAY_MS ≤ d' ≤ settings.MAX_DELAY_MS ∧ (settings.DELAY_STEP_MS | d').
Proof.
  unfold settings.MIN_DELAY_MS, settings.MAX_DELAY_MS, settings.DELAY_STEP_MS.
  intros Hd [q Hq] Hdelta. cbn zeta. split; [lia|].
  destruct (Z.max_spec 5 (Z.min 200 (d + delta))) as [[_ ->]|[_ ->]]; [|by exists 1].
  destruct (Z.min_spec 200 (d + delta)) as [[_ ->]|[_ ->]]; [by exists 40|].
  destruct Hdelta as [-> | ->]; [exists (q + 1)|exists (q - 1)]; lia.
Qed.

Lemma _start_algorithm_ok now self xs :
  settings.MIN_DELAY_MS ≤ delay_ms self ≤ settings.MAX_DELAY_MS →
  (settings.DELAY_STEP_MS | delay_ms self) →
  dict_get _build_algorithm_map (active_key self)
  = Some (algorithm_name_ self, algorithm_fn self) →
  objects self !! data self = Some xs →
  length xs = Z.to_nat settings.ARRAY_SIZE → in_bounds xs →
  ∃ self', _start_algorithm now self = Some self' ∧ app_ok self' ∧
    objects self' = objects self ∧ data self' = data self ∧
    paused self' = paused self ∧ delay_ms self' = delay_ms self ∧
    _last_step_tick self' = now ∧ sort_complete self' = false ∧
    algorithm_fn self' = algorithm_fn self ∧
    generator (algorithm_fn self) (objects self) (data self) = Some (state_iter self').
Proof.
  intros Hdelay Hstep Halg Hd Hlen Hb.
  destruct (generator_spec (algorithm_fn self) _ _ _ Hd) as (fs & f & Hgen & Hall & _).
  unfold _start_algorithm. rewrite Hgen, Hd. simpl.
  eexists. split; [done|]. split; [|done].
  split; simpl; [done | done | done |].
  exists xs. split_and!; done.
Qed.

Lemma _handle_key_ok key rand now self :
  app_ok self → ∃ self', _handle_key key rand now self = Some self' ∧ app_ok self'.
Proof.
  intros [Hdelay Hstep Halg (xs & Hd & Hlen & Hb & Hcl & Hcs & Hit)].
  unfold _handle_key.
  destruct (decide (key = K_ESCAPE)).
  { eexists. split; [done|]. split; simpl; eauto 10. }
  destruct (decide (key = K_r)).
  { unfold _restart_with_shuffle.
    destruct (_generate_data_in_bounds rand) as [Hl' Hb'].
    edestruct (_start_algorithm_ok now) as (self' & -> & Hok & _); [..|by eauto];
      simpl; [done | done | done | apply lookup_insert_eq | done | done]. }
  destruct (decide (is_Some (dict_get _build_algorithm_map key))) as [[entry He]|].
  { unfold _switch_algorithm. rewrite He. simpl.
    edestruct (_start_algorithm_ok now) as (self' & -> & Hok & _); [..|by eauto];
      simpl; [done | done | by destruct entry | done | done | done]. }
  destruct (decide (key ∈ [K_MINUS; K_KP_MINUS])).
  { destruct (_adjust_delay_ok settings.DELAY_STEP_MS (delay_ms self)); [done|done|by left|].
    eexists. split; [done|]. split; simpl; [done|done|done|by eauto 10]. }
  destruct (decide (key ∈ [K_EQUALS; K_PLUS; K_KP_PLUS])).
  { destruct (_adjust_delay_ok (- settings.DELAY_STEP_MS) (delay_ms self));
      [done|done|by right|].
    eexists. split; [done|]. split; simpl; [done|done|done|by eauto 10]. }
  destruct (decide (key = K_SPACE)).
  { eexists. split; [done|]. split; simpl; eauto 10. }
  eexists. split; [done|]. split; eauto 10.
Qed.

Lemma _handle_events_ok evs self :
  app_ok self → ∃ self', _handle_events evs self = Some self' ∧ app_ok self'.
Proof.
  revert self. induction evs as [|[[ev rand] now] evs IH]; intros self Hok; simpl.
  - eauto.
  - assert (∃ self1, _handle_event (ev, rand, now) self = Some self1 ∧ app_ok self1)
      as (self1 & -> & Hok1).
    { unfold _handle_event. simpl. destruct ev as [|key|].
      - destruct Hok as [? ? ? ?]. eexists. split; [done|]. by split.
      - by apply _handle_key_ok.
      - eauto. }
    simpl. by apply IH.
Qed.

Lemma _update_state_ok now self : app_ok self → app_ok (_update_state now self).1.
Proof.
  intros Hok. unfold _update_state.
  destruct (paused self || sort_complete self); [done|].
  destruct (now - _last_step_tick self <? delay_ms self); [done|].
  destruct Hok as [Hdelay Hstep Halg (xs & Hd & Hlen & Hb & Hcl & Hcs & Hit)].
  destruct (state_iter self) as [|next rest]; simpl.
  - split; simpl; [done | done | done |]. exists xs. split_and!; done.
  - apply Forall_cons in Hit as [(Hs & Hl & Hsub) Hit].
    split; simpl; [done | done | done |]. exists xs. split_and!; done.
Qed.

Lemma draw_ok boosted self t :
  app_ok self →
  ∃ bars, (draw boosted (visualizer self) (current_state self) t).1 = Some bars.
Proof.
  intros [_ _ _ (xs & Hd & Hlen & Hb & Hcl & Hcs & _)]. unfold draw.
  destruct (_compute_finish_effect boosted _ _ _ t) as [fe vis]. cbn [fst].
  destruct (bool_decide (array (current_state self) ≠ [])
            && (max_value (array (current_state self)) =? 0)) eqn:E; [|eauto].
  apply andb_true_iff in E as [Hne%bool_decide_eq_true Hz%Z.eqb_eq].
  apply max_value_elem, Hcs in Hne. rewrite Hz in Hne.
  unfold in_bounds in Hb. rewrite Forall_forall in Hb. apply Hb in Hne.
  unfold settings.ARRAY_MIN_VALUE in Hne. lia.
Qed.

Section LoopFacts.
Context (boosted : Z → Color).

Lemma turn_ok t self :
  app_ok self → ∃ self', turn boosted t self = Some self' ∧ app_ok self'.
Proof.
  intros Hok. unfold turn.
  destruct (_handle_events_ok (events t) self Hok) as (self1 & -> & Hok1). simpl.
  pose proof (_update_state_ok (update_ticks t) self1 Hok1) as Hok2.
  set (self2 := (_update_state (update_ticks t) self1).1) in *.
  destruct (draw_ok boosted self2 (draw_ticks t) Hok2) as (bars & Hbars).
  destruct (draw boosted (visualizer self2) (current_state self2) (draw_ticks t))
    as [b vis]. simpl in Hbars. subst b. simpl.
  eexists. split; [done|]. destruct Hok2 as [? ? ? ?]. by split.
Qed.
End LoopFacts.

Lemma __init___ok click rand now :
  ∃ self0, __init__ click rand now = Some self0 ∧ app_ok self0 ∧
    objects self0 !! data self0 = Some (_generate_data rand).
Proof.
  unfold __init__. simpl.
  destruct (_generate_data_in_bounds rand) as [Hl Hb].
  edestruct (_start_algorithm_ok now) as (self' & -> & Hok & Ho & Hd & _);
    [..|eexists; split; [done|]; split; [done|]];
    simpl; [| | done | apply lookup_singleton_eq | done | done |].
  - unfold settings.MIN_DELAY_MS, settings.MAX_DELAY_MS, settings.INITIAL_DELAY_MS. lia.
  - by exists 8.
  - rewrite Ho, Hd. simpl. apply lookup_singleton_eq.
Qed.

(** X15. The application never raises: whatever the randomness, the clock
    and the events, [__init__] returns an application and [run] takes
    every turn of its loop without an exception, the delay staying
    within its bounds and a multiple of the step, the algorithm being
    the one of the active key,
    the data a list of [ARRAY_SIZE] values within the configured
    bounds. *)
Theorem application_never_raises (boosted : Z → Color) (click : bool)
    (rand : nat → Z) (now : Z) (turns : list Turn) :
  ∃ self0 self,
    __init__ click rand now = Some self0 ∧
    SortApp_run boosted turns self0 = Some self ∧
    app_ok self.
Proof.
  destruct (__init___ok click rand now) as (self0 & Hinit & Hok0 & _).
  exists self0. rewrite Hinit.
  assert (∀ self, app_ok self →
            ∃ self', SortApp_run boosted turns self = Some self' ∧ app_ok self') as Hrun.
  { induction turns as [|t turns IH]; intros self Hok; simpl; [by eauto|].
    destruct (_running self); [|by eauto].
    destruct (turn_ok boosted t self Hok) as (self1 & -> & Hok1). simpl. by apply IH. }
  destruct (Hrun self0 Hok0) as (self & ? & ?). eauto.
Qed.

(** *** Stepping through a run *)

(** Successive calls of [_update_state], at the ticks [nows]. *)
Fixpoint updates (nows : list Z) (self : SortApp) : SortApp :=
  match nows with
  | [] => self
  | now :: nows => updates nows (_update_state now self).1
  end.

(** Ticks far enough apart for each update to take a step. *)
Fixpoint due (delay last : Z) (nows : list Z) : Prop :=
  match nows with
  | [] => True
  | now :: nows => delay ≤ now - last ∧ due delay now nows
  end.

Lemma updates_complete nows self :
  sort_complete self = true → updates nows self = self.
Proof.
  intros Hc. induction nows as [|now nows IH]; simpl; [done|].
  unfold _update_state. rewrite Hc, orb_true_r. simpl. done.
Qed.

Lemma updates_drain fs self nows :
  paused self = false → sort_complete self = false → state_iter self = fs →
  due (delay_ms self) (_last_step_tick self) nows → (length fs < length nows)%nat →
  sort_complete (updates nows self) = true ∧
  state_iter (updates nows self) = [] ∧
  current_state (updates nows self) = default (current_state self) (snapshot <$> last fs) ∧
  objects (updates nows self) = default (objects self) (store_at <$> last fs) ∧
  data (updates nows self) = data self.
Proof.
  revert self nows. induction fs as [|f fs IH]; intros self nows Hp Hc Hit Hdue Hlen.
  - destruct nows as [|now nows]; [simpl in Hlen; lia|]. simpl.
    destruct Hdue as [Hd _].
    unfold _update_state. rewrite Hp, Hc, Hit. simpl.
    destruct (Z.ltb_spec (now - _last_step_tick self) (delay_ms self)); [lia|].
    simpl. by rewrite updates_complete.
  - destruct nows as [|now nows]; [simpl in Hlen; lia|]. simpl.
    destruct Hdue as [Hd Hdue].
    unfold _update_state. rewrite Hp, Hc, Hit. simpl.
    destruct (Z.ltb_spec (now - _last_step_tick self) (delay_ms self)); [lia|].
    simpl.
    edestruct (IH (mkSortApp (visualizer self) (active_key self) (algorithm_name_ self)
                     (algorithm_fn self) (delay_ms self) false false
                     now (_running self) (store_at f) (data self) fs (snapshot f)) nows)
      as (H1 & H2 & H3 & H4 & H5); simpl; [done | done | done | done | simpl in Hlen; lia |].
    split_and!; [done | done | | | done].
    + rewrite H3. simpl. destruct fs as [|g fs']; [done|].
      change (last (f :: g :: fs')) with (last (g :: fs')).
      destruct (last (g :: fs')) eqn:E; [done|]. by apply last_None in E.
    + rewrite H4. simpl. destruct fs as [|g fs']; [done|].
      change (last (f :: g :: fs')) with (last (g :: fs')).
      destruct (last (g :: fs')) eqn:E; [done|]. by apply last_None in E.
Qed.

(** X16. Once an algorithm is started and the application is not paused, the
    updates step through the snapshots of the run: after one due update
    more than there are snapshots, the run is marked complete, the array
    shown is the data in non-decreasing order with every index
    finalized, and [self.data] is what it was. *)
Theorem application_sorts_the_data (now : Z) (self : SortApp) (xs : list Z) :
  objects self !! data self = Some xs → paused self = false →
  ∃ self1,
    _start_algorithm now self = Some self1 ∧
    sort_complete self1 = false ∧ array (current_state self1) = xs ∧
    ∀ nows, due (delay_ms self) now nows →
      (length (state_iter self1) < length nows)%nat →
      sort_complete (updates nows self1) = true ∧
      Sorted Z.le (array (current_state (updates nows self1))) ∧
      array (current_state (updates nows self1)) ≡ₚ xs ∧
      sorted_indices (current_state (updates nows self1))
      = seqZ 0 (Z.of_nat (length xs)) ∧
      description (current_state (updates nows self1)) = completion (algorithm_fn self) ∧
      objects (updates nows self1) !! data (updates nows self1) = Some xs.
Proof.
  intros Hd Hp.
  destruct (generator_spec (algorithm_fn self) _ _ _ Hd)
    as (fs & f & Hgen & Hall & Hsorted & Hperm & Hsi & Hdesc).
  unfold _start_algorithm. rewrite Hgen, Hd. simpl.
  set (self1 := mkSortApp (visualizer self) (active_key self) (algorithm_name_ self)
                  (algorithm_fn self) (delay_ms self) (paused self) false now
                  (_running self) (objects self) (data self) (fs ++ [f])
                  (initial_state xs)).
  exists self1. split; [done|]. split; [done|]. split; [done|].
  intros nows Hdue Hlen.
  destruct (updates_drain (fs ++ [f]) self1 nows) as (H1 & _ & H3 & H4 & H5);
    [done | done | done | exact Hdue | exact Hlen |].
  rewrite last_snoc in H3, H4. simpl in H3, H4, H5.
  rewrite H1, H3, H4, H5. split_and!; [done..|].
  apply Forall_app in Hall as [_ Hf]. by apply Forall_singleton in Hf as (? & _).
Qed.

Lemma application_sorts_the_data_witness :
  let self :=
    mkSortApp (mkArrayVisualizer false None) K_4 "Quick Sort" Quick 40 false false 0 true
      {[ 0%nat := [3; 1; 2] ]} 0%nat [] (initial_state [3; 1; 2]) in
  let nows := [40; 80; 120; 160; 200; 240; 280; 320; 360] in
  objects self !! data self = Some [3; 1; 2] ∧ paused self = false ∧
  ∃ self1,
    _start_algorithm 0 self = Some self1 ∧
    length (state_iter self1) = 8%nat ∧
    sort_complete (updates nows self1) = true ∧
    Sorted Z.le (array (current_state (updates nows self1))) ∧
    array (current_state (updates nows self1)) ≡ₚ [3; 1; 2] ∧
    objects (updates nows self1) !! data (updates nows self1) = Some [3; 1; 2].
Proof.
  intros self nows. split; [reflexivity|]. split; [reflexivity|].
  destruct (application_sorts_the_data 0 self [3; 1; 2])
    as (self1 & Hstart & _ & _ & Hsorts); [reflexivity | reflexivity |].
  assert (length (state_iter self1) = 8%nat) as Hlen.
  { assert (Some self1 = _start_algorithm 0 self) as Heq by (symmetry; exact Hstart).
    vm_compute in Heq. injection Heq as ->. reflexivity. }
  exists self1. split; [exact Hstart|]. split; [exact Hlen|].
  destruct (Hsorts nows) as (H1 & H2 & H3 & _ & _ & H6).
  - simpl. lia.
  - rewrite Hlen. simpl. lia.
  - split_and!; assumption.
Defined.

(** *** The data list *)

Definition restarts (ev : Event * (nat → Z) * Z) : Prop := ev.1.1 = KEYDOWN K_r.

Lemma _handle_key_data key rand now self self' :
  key ≠ K_r → _handle_key key rand now self = Some self' →
  objects self' = objects self ∧ data self' = data self.
Proof.
  intros Hkey. unfold _handle_key.
  destruct (decide (key = K_ESCAPE)); [by intros [= <-]|].
  destruct (decide (key = K_r)); [done|].
  destruct (decide (is_Some (dict_get _build_algorithm_map key))).
  { unfold _switch_algorithm, _start_algorithm. intros H.
    destruct (dict_get _build_algorithm_map key); [|done]. simpl in H.
    destruct (generator _ _ _); [|done]. simpl in H.
    destruct (objects self !! data self); [|done]. simpl in H. by simplify_eq. }
  destruct (decide (key ∈ [K_MINUS; K_KP_MINUS])); [by intros [= <-]|].
  destruct (decide (key ∈ [K_EQUALS; K_PLUS; K_KP_PLUS])); [by intros [= <-]|].
  destruct (decide (key = K_SPACE)); by intros [= <-].
Qed.

Lemma _handle_events_data evs self self' :
  Forall (λ ev, ¬ restarts ev) evs → _handle_events evs self = Some self' →
  objects self' = objects self ∧ data self' = data self.
Proof.
  revert self. induction evs as [|[[ev rand] now] evs IH]; intros self Hevs; simpl.
  - by intros [= <-].
  - apply Forall_cons in Hevs as [Hev Hevs]. unfold restarts in Hev. simpl in Hev.
    destruct (_handle_event (ev, rand, now) self) as [self1|] eqn:E; [|done]. simpl.
    intros H. destruct (IH self1 Hevs H) as [-> ->].
    unfold _handle_event in E. simpl in E. destruct ev as [|key|].
    + by simplify_eq.
    + eapply _handle_key_data; [|done]. by intros ->.
    + by simplify_eq.
Qed.

Lemma _update_state_data now self :
  app_ok self →
  objects (_update_state now self).1 !! data (_update_state now self).1
  = objects self !! data self.
Proof.
  intros [_ _ _ (xs & Hd & _ & _ & _ & _ & Hit)]. unfold _update_state.
  destruct (paused self || sort_complete self); [done|].
  destruct (now - _last_step_tick self <? delay_ms self); [done|].
  destruct (state_iter self) as [|next rest]; simpl; [done|].
  apply Forall_cons in Hit as [(Hs & _) _]. by rewrite Hs, Hd.
Qed.

(** X17. [self.data] changes only when R is pressed: as long as it is not,
    whatever algorithms are chosen and however far their runs get, the
    data list is the one [__init__] generated. *)
Theorem data_changes_only_on_restart (boosted : Z → Color) (click : bool)
    (rand : nat → Z) (now : Z) (turns : list Turn) :
  Forall (λ t, Forall (λ ev, ¬ restarts ev) (events t)) turns →
  ∃ self0 self,
    __init__ click rand now = Some self0 ∧
    SortApp_run boosted turns self0 = Some self ∧
    objects self !! data self = Some (_generate_data rand).
Proof.
  intros Hturns.
  destruct (__init___ok click rand now) as (self0 & Hinit & Hok0 & Hd0).
  exists self0. rewrite Hinit.
  assert (∀ self, app_ok self → objects self !! data self = Some (_generate_data rand) →
            ∃ self', SortApp_run boosted turns self = Some self' ∧
              objects self' !! data self' = Some (_generate_data rand)) as Hrun.
  { induction turns as [|t turns IH]; intros self Hok Hd; simpl; [by eauto|].
    apply Forall_cons in Hturns as [Ht Hturns].
    destruct (_running self); [|by eauto].
    destruct (turn_ok boosted t self Hok) as (self1 & Hturn & Hok1). rewrite Hturn. simpl.
    apply IH; [done..|].
    unfold turn in Hturn.
    destruct (_handle_events_ok (events t) self Hok) as (self2 & He & Hok2).
    rewrite He in Hturn. simpl in Hturn.
    destruct (_handle_events_data _ _ _ Ht He) as [Ho Hdt].
    pose proof (_update_state_data (update_ticks t) self2 Hok2) as Hu.
    destruct (draw boosted _ _ _) as [[bars|] vis]; [|done]. simpl in Hturn.
    simplify_eq. simpl. by rewrite Hu, Ho, Hdt. }
  destruct (Hrun self0 Hok0 Hd0) as (self & ? & ?). eauto.
Qed.

Lemma data_changes_only_on_restart_witness :
  ∃ self0 self,
    __init__ false (λ k, Z.of_nat k) 0 = Some self0 ∧
    SortApp_run (λ _, (0, 0, 0))
      [mkTurn [(KEYDOWN K_2, λ k, 0, 5); (KEYDOWN K_MINUS, λ k, 0, 6)] 50 60;
       mkTurn [(OTHER_EVENT, λ k, 0, 70)] 95 96] self0 = Some self ∧
    objects self !! data self = Some (_generate_data (λ k, Z.of_nat k)).
Proof.
  apply (data_changes_only_on_restart (λ _, (0, 0, 0)) false (λ k, Z.of_nat k) 0).
  unfold restarts. repeat (constructor; [repeat (constructor; [simpl; discriminate|])|]);
    constructor.
Defined.


(** ** What insertion sort's finalized indices mean *)

Section InsertionPrefix.
Context {A : Type} (val : A → Z) (a : loc) (n : nat).

(** Invariant rule of [for k in range(lo, hi)], the invariant indexed by
    the loop variable. *)
Lemma wlp_for_range (I : Z → state A → Prop) (lo hi : Z) (body : Z → M A unit) st
    (Q : unit → state A → Prop) :
  I lo st →
  (∀ k st, lo ≤ k < hi → I k st → wlp (body k) st (λ _, I (k + 1))) →
  (∀ st, I (Z.max lo hi) st → Q tt st) →
  wlp (for_ (range lo hi) body) st Q.
Proof.
  intros HI Hbody HQ. unfold for_.
  remember (Z.to_nat (hi - lo)) as d eqn:Hd.
  revert lo st HI Hbody HQ Hd.
  induction d as [|d IH]; intros lo st HI Hbody HQ Hd.
  - rewrite range_nil by lia. apply wlp_ret, HQ.
    by replace (Z.max lo hi) with lo by lia.
  - rewrite range_cons by lia. simpl. apply wlp_bind.
    eapply wlp_mono; [apply Hbody; [lia|done]|].
    intros [] st' HI'. apply IH; [done | | | lia].
    + intros k st0 Hk. apply Hbody. lia.
    + intros st0. replace (Z.max (lo + 1) hi) with (Z.max lo hi) by lia. apply HQ.
Qed.

(** The finalized indices of the snapshot are the first [m], and the
    values at these positions are in non-decreasing order. *)
Definition prefix_shown (s : SortState A) : Prop :=
  ∃ m : nat, sorted_indices s = seqZ 0 (Z.of_nat m) ∧ prefix_sorted val m (array s).

Lemma prefix_sorted_mono (i m : nat) (l : list A) :
  (m ≤ i)%nat → prefix_sorted val i l → prefix_sorted val m l.
Proof. intros Hm H p q x y Hpq Hq. apply H; lia. Qed.

Lemma prefix_shown_state (i m : nat) l hl d :
  (m ≤ i)%nat → prefix_sorted val i l →
  prefix_shown (_state l hl (list_to_set (range 0 (Z.of_nat m))) d).
Proof.
  intros Hm Hl. exists m. split; [|by eapply prefix_sorted_mono]. simpl.
  unfold range. rewrite Z.sub_0_r. apply sorted_tuple_range_set.
Qed.

(** While [key] is being inserted in round [i], [j] being the next
    position to compare it with. *)
Definition shift_inv (i m : nat) (key : A) (j : Z) (st : state A) : Prop :=
  ∃ l, heap st !! a = Some l ∧ length l = n ∧
    finalized st = list_to_set (range 0 (Z.of_nat m)) ∧ (m ≤ i)%nat ∧
    -1 ≤ j < Z.of_nat i ∧ prefix_sorted val i l ∧
    (∀ (q : nat) y, j + 1 < Z.of_nat q ≤ Z.of_nat i → l !! q = Some y → val key < val y) ∧
    (j + 1 < Z.of_nat i → prefix_sorted val (S i) l) ∧
    Forall (λ f, prefix_shown (snapshot f)) (yielded st).

Lemma insertion_shift_prefix fuel (i m : nat) key j st :
  shift_inv i m key j st →
  wlp (insertion_shift val fuel a key j) st
    (λ j' st', shift_inv i m key j' st' ∧
       (0 ≤ j' → ∃ l x, heap st' !! a = Some l ∧ l !! Z.to_nat j' = Some x ∧
                        val x ≤ val key)).
Proof.
  revert j st. induction fuel as [|fuel IH]; intros j st HI; simpl.
  - apply wlp_raise.
  - destruct HI as (l & Hl & Hlen & HF & Hm & Hj & Hpre & Habove & Hfull & HG).
    wlp_step. destruct (Z.geb_spec j 0) as [Hge|Hlt].
    + do 3 wlp_step. destruct (Z.gtb_spec (val x) (val key)) as [Hgt|Hle].
      * do 2 wlp_step. do 2 wlp_step. do 2 wlp_step. do 2 wlp_step.
        apply py_getitem_Some in Hx as (k & Hk & Hk').
        apply py_setitem_Some in Hs as (k' & Hlt' & -> & Hk'').
        rewrite Hk' in * by lia. rewrite Hk'' in * by lia.
        replace (Z.to_nat (j + 1)) with (S (Z.to_nat j)) in * by lia.
        set (c := Z.to_nat j) in *.
        assert (prefix_sorted val i (<[S c := x]> l)) as Hpre'.
        { intros p q u v Hpq Hq Hu Hv.
          apply list_lookup_insert_Some in Hu as [(<- & <- & _)|[Hpc Hu]];
            apply list_lookup_insert_Some in Hv as [(<- & <- & _)|[Hqc Hv]]; try lia.
          - apply (Hpre c q); [lia | done..].
          - destruct (decide (p = c)) as [->|]; [by simplify_eq|].
            apply (Hpre p c); [lia | lia | done..].
          - by apply (Hpre p q). }
        apply IH. exists (<[S c := x]> l).
        split_and!; [apply lookup_insert_eq | by rewrite length_insert | done | done
                     | lia | lia | done | | |].
        -- intros q y Hq Hy.
           apply list_lookup_insert_Some in Hy as [(<- & <- & _)|[Hqc Hy]]; [lia|].
           apply (Habove q); [lia|done].
        -- intros _ p q u v Hpq Hq Hu Hv.
           apply list_lookup_insert_Some in Hu as [(<- & <- & _)|[Hpc Hu]];
             apply list_lookup_insert_Some in Hv as [(<- & <- & _)|[Hqc Hv]]; try lia.
           ++ destruct (decide (q < i)%nat).
              ** apply (Hpre c q); [lia | done..].
              ** apply (Hfull ltac:(lia) c q); [lia | lia | done..].
           ++ destruct (decide (p = c)) as [->|]; [by simplify_eq|].
              apply (Hpre p c); [lia | lia | done..].
           ++ destruct (decide (q < i)%nat).
              ** by apply (Hpre p q).
              ** apply (Hfull ltac:(lia) p q); [lia | lia | done..].
        -- cbn [heap finalized yielded]. rewrite !Forall_app, !Forall_singleton.
           split_and!; [done | |]; simpl; rewrite HF;
             by eapply prefix_shown_state.
      * wlp_step. split.
        -- exists l. split_and!; (done || lia).
        -- intros _. apply py_getitem_Some in Hx as (k & Hk & Hk').
           rewrite Hk' in Hk by lia. exists l, x. split_and!; [done | done | lia].
    + do 2 wlp_step. split; [|lia]. exists l. split_and!; (done || lia).
Qed.

(** Between two rounds: the positions below [i] are in order. *)
Definition round_inv (i : Z) (st : state A) : Prop :=
  ∃ l (m : nat), heap st !! a = Some l ∧ length l = n ∧
    finalized st = list_to_set (range 0 (Z.of_nat m)) ∧ Z.of_nat m ≤ i ∧
    prefix_sorted val (Z.to_nat i) l ∧
    Forall (λ f, prefix_shown (snapshot f)) (yielded st).

Lemma insertion_round_prefix len i st :
  1 ≤ i → round_inv i st →
  wlp (insertion_round val a len i) st (λ _, round_inv (i + 1)).
Proof.
  intros Hi (l & m & Hl & Hlen & HF & Hm & Hpre & HG). unfold insertion_round.
  do 2 wlp_step. do 2 wlp_step. wlp_step.
  eapply wlp_mono.
  { apply (insertion_shift_prefix _ (Z.to_nat i) m).
    exists l. split_and!; [done | done | done | lia | lia | lia | done | | |].
    - intros q y Hq. lia.
    - lia.
    - cbn [heap finalized yielded]. rewrite Forall_app, Forall_singleton.
      split; [done|]. simpl. rewrite HF. by eapply (prefix_shown_state (Z.to_nat i)); [lia|]. }
  clear dependent st. clear dependent l.
  intros j st [(l & Hl & Hlen & HF & Hm' & Hj & Hpre & Habove & Hfull & HG) Hexit].
  cbn beta.
  do 2 wlp_step. do 3 wlp_step.
  apply py_setitem_Some in Hs as (k' & Hlt' & -> & Hk'').
  rewrite Hk'' in * by lia. set (c := Z.to_nat (j + 1)) in *.
  assert (prefix_sorted val (S (Z.to_nat i)) (<[c := x]> l)) as Hpre'.
  { intros p q u v Hpq Hq Hu Hv.
    apply list_lookup_insert_Some in Hu as [(<- & <- & _)|[Hpc Hu]];
      apply list_lookup_insert_Some in Hv as [(<- & <- & _)|[Hqc Hv]]; try lia.
    - assert (val x < val v); [|lia]. apply (Habove q); [lia|done].
    - destruct Hexit as (l0 & z & Hl0 & Hz & Hle); [lia|]. simplify_eq.
      destruct (decide (p = Z.to_nat j)) as [->|]; [by simplify_eq|].
      assert (val u ≤ val z); [|lia].
      apply (Hpre p (Z.to_nat j)); [lia | lia | done..].
    - destruct (decide (q < Z.to_nat i)%nat).
      + by apply (Hpre p q).
      + apply (Hfull ltac:(lia) p q); [lia | lia | done..]. }
  assert (list_to_set (range 0 (i + 1)) ∪ list_to_set (range 0 (Z.of_nat m))
          = (list_to_set (range 0 (Z.of_nat (S (Z.to_nat i)))) : gset Z)) as HF'.
  { apply set_eq. intros k. rewrite elem_of_union, !elem_of_range_to_set. lia. }
  exists (<[c := x]> l), (S (Z.to_nat i)).
  split_and!; [apply lookup_insert_eq | by rewrite length_insert
               | by rewrite HF, HF' | lia | | ].
  - by replace (Z.to_nat (i + 1)) with (S (Z.to_nat i)) by lia.
  - cbn [heap finalized yielded]. rewrite Forall_app, Forall_singleton.
    split; [done|]. simpl. rewrite HF, HF'. by eapply prefix_shown_state.
Qed.

Lemma insertion_sort_prefix h d xs :
  h !! d = Some xs → a = fresh (dom h) → n = length xs →
  wlp (insertion_sort val d) (mkState h ∅ [])
    (λ _ st, Forall (λ f, prefix_shown (snapshot f)) (yielded st)).
Proof.
  intros Hd Ha Hn. unfold insertion_sort.
  wlp_step. apply wlp_list_copy. cbn [heap finalized yielded]. rewrite <- Ha.
  clear Ha. intros xs' Hd'. assert (xs' = xs) as -> by congruence. clear Hd'.
  wlp_step. apply wlp_new_set. cbn [heap finalized yielded].
  wlp_step. apply wlp_len. cbn [heap finalized yielded]. intros l0 Hl0.
  rewrite lookup_insert_eq in Hl0. assert (l0 = xs) as -> by congruence. clear Hl0.
  rewrite <- Hn. wlp_step.
  apply (wlp_for_range round_inv).
  - exists xs, 0%nat. split_and!; [apply lookup_insert_eq | done | done | lia | | done].
    intros p q x y Hpq Hq. lia.
  - intros i st Hi HI. apply insertion_round_prefix; [lia|done].
  - intros st (l & m & Hl & Hlen & HF & Hm & Hpre & HG).
    apply wlp_yield_complete. intros l1 Hl1. assert (l1 = l) as -> by congruence.
    cbn [heap finalized yielded]. rewrite Forall_app, Forall_singleton.
    split; [done|]. simpl. exists (length l).
    split; [apply sorted_tuple_range_set|].
    intros p q x y Hpq Hq Hx Hy.
    apply (Hpre p q); [done | lia | done | done].
Qed.
End InsertionPrefix.

(** X4. In every snapshot of insertion sort the finalized indices are the
    first positions of the array, and the values at the finalized
    positions are in non-decreasing order: insertion sort finalizes the
    prefix it has put in order, not positions that hold their final
    value. *)
Theorem insertion_sort_finalized_prefix {A} (val : A → Z) (xs : list A) :
  ∃ tr, snapshots (insertion_sort val) xs = Some tr ∧
    Forall (λ s, ∃ m : nat, sorted_indices s = seqZ 0 (Z.of_nat m) ∧
              ∀ (p q : nat) x y, (p < q)%nat → (q < m)%nat →
                array s !! p = Some x → array s !! q = Some y → val x ≤ val y) tr.
Proof.
  destruct (engine_run val Insertion (caller_store xs) 0%nat xs)
    as (l' & F & gs & Hrun & _).
  { apply lookup_singleton_eq. }
  simpl in Hrun.
  pose proof (insertion_sort_prefix val _ _ (caller_store xs) 0%nat xs
                (lookup_singleton_eq _ _) eq_refl eq_refl _ _ Hrun) as Hall.
  unfold snapshots. rewrite Hrun. eexists. split; [done|].
  apply Forall_fmap. eapply Forall_impl; [exact Hall|].
  intros f (m & ? & ?). simpl. by exists m.
Qed.


(** ** Instances of the statements about finalized indices *)

Lemma finalized_values_fixed_witness :
  Selection ≠ Insertion ∧ Selection ≠ Merge ∧
  ∃ tr, snapshots (engine id Selection) [2; 3; 1] = Some tr ∧
    ∀ (i j : nat) s s' (k : nat), (i < j)%nat → tr !! i = Some s → tr !! j = Some s' →
      Z.of_nat k ∈ sorted_indices s → array s !! k = array s' !! k.
Proof.
  split; [discriminate|]. split; [discriminate|].
  apply (finalized_values_fixed id Selection [2; 3; 1]); discriminate.
Defined.

Lemma full_coverage_at_end_witness :
  Insertion ≠ Merge ∧
  ∃ tr, snapshots (engine id Insertion) [2; 3; 1] = Some tr ∧
    ∀ (i : nat) s, tr !! i = Some s →
      sorted_indices s = seqZ 0 (Z.of_nat (length [2; 3; 1])) → (length tr ≤ i + 2)%nat.
Proof.
  split; [discriminate|].
  apply (full_coverage_at_end id Insertion [2; 3; 1]). discriminate.
Defined.


(** ** How long bubble sort runs *)

Section Inversions.
Context {A : Type} (val : A → Z).

(** The number of pairs of positions whose values are out of order. *)
Fixpoint inversions (l : list A) : nat :=
  match l with
  | [] => 0
  | x :: l => length (filter (λ y, val y < val x) l) + inversions l
  end.

Lemma inversions_swap_adjacent (l : list A) k x y :
  l !! k = Some x → l !! S k = Some y → val y < val x →
  S (inversions (<[S k := x]> (<[k := y]> l))) = inversions l.
Proof.
  revert l. induction k as [|k IH]; intros l Hx Hy Hlt.
  - destruct l as [|x' [|y' l]]; simplify_eq/=.
    rewrite (filter_cons_True (λ y0, val y0 < val x) y) by done.
    rewrite (filter_cons_False (λ y0, val y0 < val y) x) by lia. simpl. lia.
  - destruct l as [|z l]; simplify_eq/=.
    rewrite <- (IH l Hx Hy Hlt).
    assert (length (filter (λ y0, val y0 < val z) (<[S k := x]> (<[k := y]> l)))
            = length (filter (λ y0, val y0 < val z) l)) as ->; [|lia].
    apply Permutation_length. f_equiv. by apply Permutation_insert_swap.
Qed.

Lemma inversions_nondecreasing (l : list A) : nondecreasing val l → inversions l = 0%nat.
Proof.
  intros Hs%nondecreasing_Sorted. apply Sorted_StronglySorted in Hs; [|apply _].
  induction Hs as [|x l Hs IH Hall]; [done|]. simpl. rewrite IH.
  assert (filter (λ y, val y < val x) l = []) as ->; [|done].
  clear IH Hs. induction Hall as [|y l Hy Hall IH]; [done|].
  rewrite filter_cons_False; [done|]. unfold le_val in Hy. lia.
Qed.
End Inversions.

Section BubbleCount.
Context {A : Type} (val : A → Z) (a : loc).

(** The snapshots yielded so far, plus the inversions still in the list. *)
Definition progress (c : Z) (st : state A) : Prop :=
  ∃ l, heap st !! a = Some l ∧
    Z.of_nat (length (yielded st)) + Z.of_nat (inversions val l) = c.

Lemma bubble_pass_count n i c st :
  0 ≤ n - i - 1 → progress c st →
  wlp (bubble_pass val a n i) st (λ _, progress (c + (n - i - 1))).
Proof.
  intros Hn HI. unfold bubble_pass.
  apply (wlp_for_range (λ j, progress (c + j))).
  - by rewrite Z.add_0_r.
  - clear st HI. intros j st Hj (l & Hl & Hc).
    do 2 wlp_step. do 2 wlp_step. rename x into x0. do 2 wlp_step.
    destruct (Z.gtb_spec (val x0) (val x)) as [Hgt|Hle].
    + wlp_step. apply wlp_swap. cbn [heap finalized yielded].
      intros l0 l1 l2 x' y' Hl0 Hx' Hy' H1 H2. simplify_eq.
      wlp_step.
      destruct (swap_result _ _ _ _ _ _ _ Hx0 Hx H1 H2)
        as (ki & kj & Hki & Hkj & -> & Hi' & Hj').
      rewrite Hi' in * by lia. rewrite Hj' in * by lia.
      replace (Z.to_nat (j + 1)) with (S (Z.to_nat j)) in * by lia.
      eexists. split; [apply lookup_insert_eq|]. cbn [heap finalized yielded].
      rewrite !length_app. simpl.
      pose proof (inversions_swap_adjacent val l _ _ _ Hki Hkj Hgt). lia.
    + wlp_step. exists l. split; [done|]. cbn [heap finalized yielded].
      rewrite length_app. simpl. lia.
  - intros st0. by replace (Z.max 0 (n - i - 1)) with (n - i - 1) by lia.
Qed.

Lemma bubble_sort_count h d xs :
  h !! d = Some xs → a = fresh (dom h) →
  wlp (bubble_sort val d) (mkState h ∅ [])
    (λ _ st, ∃ l, heap st !! a = Some l ∧
       2 * Z.of_nat (length (yielded st)) + 2 * Z.of_nat (inversions val l)
       = Z.of_nat (length xs) * (Z.of_nat (length xs) + 1)
         + 2 * Z.of_nat (inversions val xs) + 2).
Proof.
  intros Hd Ha. unfold bubble_sort.
  wlp_step. apply wlp_list_copy. cbn [heap finalized yielded]. rewrite <- Ha.
  clear Ha. intros xs' Hd'. assert (xs' = xs) as -> by congruence. clear Hd'.
  wlp_step. apply wlp_len. cbn [heap finalized yielded]. intros l0 Hl0.
  rewrite lookup_insert_eq in Hl0. assert (l0 = xs) as -> by congruence. clear Hl0.
  do 2 wlp_step. wlp_step.
  set (n := Z.of_nat (length xs)).
  apply (wlp_for_range
           (λ k st, ∃ c, progress c st ∧
              2 * c = 2 * Z.of_nat (inversions val xs) + 2 * k * n - k * k + k)).
  - exists (Z.of_nat (inversions val xs)). split; [|lia].
    exists xs. split; [apply lookup_insert_eq|]. simpl. lia.
  - intros i st Hi (c & HI & Hc). unfold bubble_round. wlp_step.
    eapply wlp_mono; [apply (bubble_pass_count n i c); [lia|done]|].
    intros ? st1 (l1 & Hl1 & Hc1). cbn beta. do 3 wlp_step.
    exists (c + (n - i - 1) + 1). split; [|nia].
    exists l1. split; [done|]. cbn [heap finalized yielded].
    rewrite length_app. simpl. lia.
  - intros st (c & (l1 & Hl1 & Hc1) & Hc).
    replace (Z.max 0 n) with n in Hc by lia. wlp_step.
    exists l1. split; [done|]. cbn [heap finalized yielded].
    rewrite length_app. simpl. nia.
Qed.
End BubbleCount.

(** X18. Bubble sort never stops early: on an input of [n] values it yields
    one snapshot per comparison, [n (n - 1) / 2] of them whatever the
    input, one per exchange, as many as the input has pairs out of
    order, one per position and the completion snapshot. *)
Theorem bubble_sort_snapshot_count {A} (val : A → Z) (xs : list A) :
  ∃ tr, snapshots (bubble_sort val) xs = Some tr ∧
    2 * Z.of_nat (length tr)
    = Z.of_nat (length xs) * (Z.of_nat (length xs) - 1)
      + 2 * Z.of_nat (inversions val xs) + 2 * Z.of_nat (length xs) + 2.
Proof.
  destruct (engine_run val Bubble (caller_store xs) 0%nat xs)
    as (l' & F & gs & Hrun & _ & _ & Hnd & _).
  { apply lookup_singleton_eq. }
  simpl in Hrun.
  destruct (bubble_sort_count val _ (caller_store xs) 0%nat xs
              (lookup_singleton_eq _ _) eq_refl _ _ Hrun) as (l & Hl & Hc).
  rewrite heap_St in Hl. simplify_eq.
  rewrite (inversions_nondecreasing val l) in Hc by done.
  unfold snapshots. rewrite Hrun. eexists. split; [done|].
  rewrite length_fmap. lia.
Qed.


(** ** How long insertion sort runs *)

Section InsertionCount.
Context {A : Type} (val : A → Z) (a : loc).

(** The snapshots yielded so far, plus two for each inversion of the
    list that writing [key] at [j + 1] would give. *)
Definition shift_progress (key : A) (j c : Z) (st : state A) : Prop :=
  ∃ l, heap st !! a = Some l ∧ -1 ≤ j ∧
    Z.of_nat (length (yielded st))
    + 2 * Z.of_nat (inversions val (<[Z.to_nat (j + 1) := key]> l)) - c = 0.

Lemma insertion_shift_count fuel key j c st :
  shift_progress key j c st →
  wlp (insertion_shift val fuel a key j) st (λ j', shift_progress key j' c).
Proof.
  revert j st. induction fuel as [|fuel IH]; intros j st HI; simpl.
  - apply wlp_raise.
  - destruct HI as (l & Hl & Hj & Hc).
    wlp_step. destruct (Z.geb_spec j 0) as [Hge|Hlt].
    + do 3 wlp_step. destruct (Z.gtb_spec (val x) (val key)) as [Hgt|Hle].
      * do 2 wlp_step. do 2 wlp_step. do 2 wlp_step. do 2 wlp_step.
        apply IH.
        apply py_getitem_Some in Hx as (k & Hk & Hk').
        apply py_setitem_Some in Hs as (k' & Hlt' & -> & Hk'').
        rewrite Hk' in * by lia. rewrite Hk'' in * by lia.
        replace (Z.to_nat (j + 1)) with (S (Z.to_nat j)) in * by lia.
        set (m := Z.to_nat j) in *.
        exists (<[S m := x]> l). split; [apply lookup_insert_eq|]. split; [lia|].
        cbn [heap finalized yielded]. rewrite !length_app. simpl.
        replace (Z.to_nat (j - 1 + 1)) with m by lia.
        assert (<[m := key]> (<[S m := x]> l)
                = <[S m := x]> (<[m := key]> (<[S m := key]> l))) as ->.
        { rewrite (list_insert_insert_ne l m (S m) key x) by lia.
          rewrite (list_insert_insert_ne l m (S m) key key) by lia.
          by rewrite list_insert_insert_eq. }
        pose proof (inversions_swap_adjacent val (<[S m := key]> l) m x key) as Hinv.
        rewrite list_lookup_insert_ne in Hinv by lia.
        rewrite list_lookup_insert_eq in Hinv by lia.
        specialize (Hinv Hk eq_refl Hgt). lia.
      * wlp_step. exists l. done.
    + do 2 wlp_step. exists l. done.
Qed.

(** The snapshots yielded so far, plus two for each inversion left. *)
Definition round_progress (c : Z) (st : state A) : Prop :=
  ∃ l, heap st !! a = Some l ∧
    Z.of_nat (length (yielded st)) + 2 * Z.of_nat (inversions val l) - c = 0.

Lemma insertion_round_count n i c st :
  1 ≤ i → round_progress c st →
  wlp (insertion_round val a n i) st (λ _, round_progress (c + 2)).
Proof.
  intros Hi (l & Hl & Hc). unfold insertion_round.
  do 2 wlp_step. do 2 wlp_step. wlp_step.
  apply py_getitem_Some in Hx as (k & Hk & Hk').
  eapply wlp_mono.
  { apply (insertion_shift_count _ x (i - 1) (c + 1)).
    exists l. split; [done|]. split; [lia|]. cbn [heap finalized yielded].
    rewrite length_app. simpl. replace (i - 1 + 1) with i by lia.
    rewrite <- Hk' by lia. rewrite list_insert_id by done. lia. }
  clear dependent st. clear dependent l.
  intros j st (l & Hl & Hj & Hc). cbn beta.
  do 2 wlp_step. do 3 wlp_step.
  apply py_setitem_Some in Hs as (k' & Hlt' & -> & Hk'').
  rewrite Hk'' in * by lia.
  eexists. split; [apply lookup_insert_eq|]. cbn [heap finalized yielded].
  rewrite length_app. simpl. lia.
Qed.

Lemma insertion_sort_count h d xs :
  h !! d = Some xs → a = fresh (dom h) →
  wlp (insertion_sort val d) (mkState h ∅ [])
    (λ _, round_progress (2 * Z.of_nat (inversions val xs)
                          + 2 * Z.max 0 (Z.of_nat (length xs) - 1) + 1)).
Proof.
  intros Hd Ha. unfold insertion_sort.
  wlp_step. apply wlp_list_copy. cbn [heap finalized yielded]. rewrite <- Ha.
  clear Ha. intros xs' Hd'. assert (xs' = xs) as -> by congruence. clear Hd'.
  wlp_step. apply wlp_new_set. cbn [heap finalized yielded].
  wlp_step. apply wlp_len. cbn [heap finalized yielded]. intros l0 Hl0.
  rewrite lookup_insert_eq in Hl0. assert (l0 = xs) as -> by congruence. clear Hl0.
  wlp_step.
  apply (wlp_for_range
           (λ k, round_progress (2 * Z.of_nat (inversions val xs) + 2 * (k - 1)))).
  - exists xs. split; [apply lookup_insert_eq|]. simpl. lia.
  - intros i st Hi HI.
    replace (2 * Z.of_nat (inversions val xs) + 2 * (i + 1 - 1))
      with (2 * Z.of_nat (inversions val xs) + 2 * (i - 1) + 2) by lia.
    apply insertion_round_count; [lia|done].
  - intros st (l & Hl & Hc). wlp_step.
    exists l. split; [done|]. cbn [heap finalized yielded].
    rewrite length_app. simpl. lia.
Qed.
End InsertionCount.

(** X19. Insertion sort shifts a value once for every pair of the input that
    is out of order: besides the two snapshots of each of its rounds and
    the completion snapshot, it yields two snapshots per inversion of
    the input, none on an input already in order. *)
Theorem insertion_sort_snapshot_count {A} (val : A → Z) (xs : list A) :
  ∃ tr, snapshots (insertion_sort val) xs = Some tr ∧
    Z.of_nat (length tr)
    = 2 * Z.of_nat (inversions val xs) + 2 * Z.max 0 (Z.of_nat (length xs) - 1) + 1.
Proof.
  destruct (engine_run val Insertion (caller_store xs) 0%nat xs)
    as (l' & F & gs & Hrun & _ & _ & Hnd & _).
  { apply lookup_singleton_eq. }
  simpl in Hrun.
  destruct (insertion_sort_count val _ (caller_store xs) 0%nat xs
              (lookup_singleton_eq _ _) eq_refl _ _ Hrun) as (l & Hl & Hc).
  rewrite heap_St in Hl. simplify_eq.
  rewrite (inversions_nondecreasing val l) in Hc by done.
  unfold snapshots. rewrite Hrun. eexists. split; [done|].
  rewrite length_fmap. lia.
Qed.
